(** * A minimal reverse-mode automatic differentiation engine

    Shallow embedding of [tmp.py]: the [Node] class with its memoised
    [eval], the four operators [AddOp], [SubOp], [MulOp], [DivOp] with
    their [forward] and [backward] rules, and [gradients].

    Python objects live in a heap: a node is an address into a list of
    node records, allocation appends to the list, and [eval] updates the
    [value] field in place.  Node identity (the default [__hash__] and
    [__eq__] of a Python class) is address equality, so the [grads]
    dictionary is a [gmap] keyed by address and [visited] is a [gset].

    Scalars are kept abstract behind the class [Scalar]; the numeric
    statements are proved at the instance of exact rationals [Q].  A
    second instance over IEEE binary64 shows where rounding makes the
    Python floats differ from exact arithmetic.

    [eval] and [build_topo] recurse along the inputs of a node, so their
    models take fuel, the depth of recursion allowed; the theorems give
    the fuel that is enough.  The state carries, next to the heap, a log
    of what [eval] does: it is there to state what is and is not
    evaluated, and no definition reads it. *)

From Stdlib Require Import QArith Qabs Uint63 Floats.
From stdpp Require Import gmap list.

(** * The model *)

(** ** Scalars *)

(** What the engine needs of the numbers stored in nodes: the four
    arithmetic operations used by the [forward] rules, the test that makes
    Python's [/] raise [ZeroDivisionError], and the integer literals
    ([1], [-1], [0]) that the code stores in fresh leaves. *)
Class Scalar (R : Type) := {
  s_add : R → R → R;
  s_sub : R → R → R;
  s_mul : R → R → R;
  s_div : R → R → R;
  s_is_zero : R → bool;
  s_int : Z → R
}.

(** Exact rationals.  [x / 0] is [0] in [Q]; the model never computes it,
    [forward] raising first. *)
#[global] Instance Q_scalar : Scalar Q := {|
  s_add := Qplus;
  s_sub := Qminus;
  s_mul := Qmult;
  s_div := Qdiv;
  s_is_zero := λ y, Qeq_bool y 0;
  s_int := inject_Z
|}.

(** IEEE binary64, the floats of Python.  [s_int] is exact on the
    literals the code uses, and the zero test holds of both zeros. *)
#[global] Instance float_scalar : Scalar float := {|
  s_add := PrimFloat.add;
  s_sub := PrimFloat.sub;
  s_mul := PrimFloat.mul;
  s_div := PrimFloat.div;
  s_is_zero := λ y, PrimFloat.eqb y 0%float;
  s_int := λ z,
    match z with
    | Z0 => 0%float
    | Zpos p => PrimFloat.of_uint63 (Uint63.of_pos p)
    | Zneg p => PrimFloat.opp (PrimFloat.of_uint63 (Uint63.of_pos p))
    end
|}.

(** ** Outcomes *)

(** The Python exceptions the code can raise, and two outcomes that belong
    to the model only: [OutOfFuel] (the recursion is deeper than the fuel
    given) and [Dangling] (an address outside the heap, which no Python
    reference can be). *)
Inductive error :=
  | ValueError | IndexError | ZeroDivisionError | TypeError | KeyError
  | OutOfFuel | Dangling.

Inductive res (A : Type) :=
  | Ok (x : A)
  | Err (e : error).
Arguments Ok {A} x.
Arguments Err {A} e.

#[global] Instance error_eq_dec : EqDecision error.
Proof. solve_decision. Defined.

#[global] Instance res_ret : MRet res := λ A x, Ok x.
#[global] Instance res_bind : MBind res := λ A B k m,
  match m with
  | Ok x => k x
  | Err e => Err e
  end.

(** A left fold whose step can fail: the model of a [for] loop that
    updates local variables and may raise. *)
Fixpoint res_foldM {A B} (f : A → B → res A) (acc : A) (l : list B) : res A :=
  match l with
  | [] => Ok acc
  | x :: l' => acc' ← f acc x; res_foldM f acc' l'
  end.

(** A reference to a node: its position in the heap. *)
Abbreviation addr := nat (only parsing).

Inductive Op := AddOp | SubOp | MulOp | DivOp.

#[global] Instance Op_eq_dec : EqDecision Op.
Proof. solve_decision. Defined.

(** What [eval] does that the heap does not show: the calls of [eval] and
    the invocations of an operator's [forward], in the order they happen. *)
Inductive event :=
  | EvCall (self : addr)
  | EvForward (self : addr).

#[global] Instance event_eq_dec : EqDecision event.
Proof. solve_decision. Defined.

Section Autodiff.
Context {R : Type} `{!Scalar R}.

(** ** Nodes and the heap *)

(** [class Node]: [inputs], [op] and [value] as set by [__init__]. *)
Record Node := mkNode {
  inputs : list addr;
  op : option Op;
  value : option R
}.

(** The heap of nodes, with the log of [eval]'s events (a ghost field:
    no code reads it). *)
Record state := mkState {
  heap : list Node;
  trace : list event
}.

Definition empty_state : state := mkState [] [].

(** Computations on the heap that may raise.  An exception leaves the
    heap as it was when it was raised. *)
Definition M (A : Type) : Type := state → res A * state.

#[global] Instance M_ret : MRet M := λ A x s, (Ok x, s).
#[global] Instance M_bind : MBind M := λ A B k m s,
  match m s with
  | (Ok x, s') => k x s'
  | (Err e, s') => (Err e, s')
  end.

Definition raise {A} (e : error) : M A := λ s, (Err e, s).

Definition lift {A} (r : res A) : M A := λ s, (r, s).

Definition get_heap : M (list Node) := λ s, (Ok (heap s), s).

Definition get_node (a : addr) : M Node := λ s,
  match heap s !! a with
  | Some n => (Ok n, s)
  | None => (Err Dangling, s)
  end.

Definition emit (e : event) : M unit := λ s,
  (Ok tt, mkState (heap s) (trace s ++ [e])).

Definition alloc (n : Node) : M addr := λ s,
  (Ok (length (heap s)), mkState (heap s ++ [n]) (trace s)).

(** [self.value = v] *)
Definition set_value (self : addr) (v : R) : M unit := λ s,
  (Ok tt,
   mkState (alter (λ n, mkNode (inputs n) (op n) (Some v)) self (heap s))
           (trace s)).

(** A list comprehension [[f x for x in l]] and a [for] loop over [l]. *)
Fixpoint mapM {A B} (f : A → M B) (l : list A) : M (list B) :=
  match l with
  | [] => mret []
  | x :: l' => y ← f x; ys ← mapM f l'; mret (y :: ys)
  end.

Fixpoint foldM {A B} (f : A → B → M A) (acc : A) (l : list B) : M A :=
  match l with
  | [] => mret acc
  | x :: l' => acc' ← f acc x; foldM f acc' l'
  end.

(** ** Construction *)

(** [Node.__init__]: stores its three arguments, checks nothing. *)
Definition Node_init (inputs : list addr) (op : option Op)
    (value : option R) : M addr :=
  alloc (mkNode inputs op value).

(** A leaf, [Node([], None, value=v)]. *)
Definition Leaf (v : R) : M addr := Node_init [] None (Some v).

(** [AddOp.__call__(self, node_a, node_b)] and its three siblings:
    [Node([node_a, node_b], self)]. *)
Definition op_call (o : Op) (node_a node_b : addr) : M addr :=
  Node_init [node_a; node_b] (Some o) None.

(** A call of an operator with the arguments in a list [args]: Python
    binds them to the two parameters of [__call__] and raises
    [TypeError], before the body runs, when there are not exactly two. *)
Definition op_apply (o : Op) (args : list addr) : M addr :=
  match args with
  | [node_a; node_b] => op_call o node_a node_b
  | _ => raise TypeError
  end.

Definition Node_add (self other : addr) : M addr := op_call AddOp self other.
Definition Node_sub (self other : addr) : M addr := op_call SubOp self other.
Definition Node_mul (self other : addr) : M addr := op_call MulOp self other.
Definition Node_truediv (self other : addr) : M addr := op_call DivOp self other.

(** ** Forward evaluation *)

(** [inputs[i]] on a Python list, for the indices [0] and [1] the code uses. *)
Definition index {A} (l : list A) (i : nat) : res A :=
  match l !! i with
  | Some x => Ok x
  | None => Err IndexError
  end.

(** [op.forward(inputs)]. *)
Definition forward (o : Op) (inputs : list R) : res R :=
  x ← index inputs 0;
  y ← index inputs 1;
  match o with
  | AddOp => Ok (s_add x y)
  | SubOp => Ok (s_sub x y)
  | MulOp => Ok (s_mul x y)
  | DivOp => if s_is_zero y then Err ZeroDivisionError else Ok (s_div x y)
  end.

(** [Node.eval]: the cached value if there is one; otherwise the inputs
    are evaluated left to right, then the operator is looked at, its
    [forward] is run and the result is stored in [value]. *)
Fixpoint eval (fuel : nat) (self : addr) : M R :=
  match fuel with
  | 0 => raise OutOfFuel
  | S fuel' =>
      _ ← emit (EvCall self);
      n ← get_node self;
      match value n with
      | Some v => mret v
      | None =>
          input_values ← mapM (eval fuel') (inputs n);
          n' ← get_node self;
          match op n' with
          | None => raise ValueError
          | Some o =>
              _ ← emit (EvForward self);
              v ← lift (forward o input_values);
              _ ← set_value self v;
              mret v
          end
      end
  end.

(** ** Backward rules *)

(** [node.inputs[i]] *)
Definition input_at (node : addr) (i : nat) : M addr :=
  n ← get_node node; lift (index (inputs n) i).

(** [op.backward(out_grad, node)], with Python's order of evaluation:
    operands left to right, every [Node(...)], [*] and [/] allocating. *)
Definition backward (o : Op) (out_grad node : addr) : M (list addr) :=
  match o with
  | AddOp => mret [out_grad; out_grad]
  | SubOp =>
      m ← Leaf (s_int (-1));
      g1 ← Node_mul m out_grad;
      mret [out_grad; g1]
  | MulOp =>
      b ← input_at node 1;
      g0 ← Node_mul b out_grad;
      a ← input_at node 0;
      g1 ← Node_mul a out_grad;
      mret [g0; g1]
  | DivOp =>
      one ← Leaf (s_int 1);
      b ← input_at node 1;
      q ← Node_truediv one b;
      g0 ← Node_mul out_grad q;
      m ← Leaf (s_int (-1));
      a ← input_at node 0;
      ma ← Node_mul m a;
      b1 ← input_at node 1;
      b2 ← input_at node 1;
      bb ← Node_mul b1 b2;
      q' ← Node_truediv ma bb;
      g1 ← Node_mul out_grad q';
      mret [g0; g1]
  end.

(** ** Gradients *)

(** [build_topo], the closure of [gradients], with its two captured
    variables [visited] and [topo_order] passed along.  It reads the heap
    and changes nothing in it. *)
Fixpoint build_topo (h : list Node) (fuel : nat)
    (vt : gset addr * list addr) (node : addr) : res (gset addr * list addr) :=
  match fuel with
  | 0 => Err OutOfFuel
  | S fuel' =>
      if decide (node ∈ vt.1) then Ok vt
      else
        match h !! node with
        | None => Err Dangling
        | Some n =>
            vt' ← res_foldM (build_topo h fuel') ({[node]} ∪ vt.1, vt.2) (inputs n);
            Ok (vt'.1, vt'.2 ++ [node])
        end
  end.

(** [grads[node]] *)
Definition grads_get (grads : gmap addr addr) (node : addr) : M addr :=
  match grads !! node with
  | Some g => mret g
  | None => raise KeyError
  end.

(** The body of the inner loop: add [in_grad] to what [inp] has, or store
    it. *)
Definition accumulate (grads : gmap addr addr) (p : addr * addr)
    : M (gmap addr addr) :=
  match grads !! p.1 with
  | Some g => s ← Node_add g p.2; mret (<[p.1 := s]> grads)
  | None => mret (<[p.1 := p.2]> grads)
  end.

(** The body of the outer loop, for one [node] of the reversed order. *)
Definition propagate (grads : gmap addr addr) (node : addr)
    : M (gmap addr addr) :=
  n ← get_node node;
  match op n with
  | None => mret grads
  | Some o =>
      out_grad ← grads_get grads node;
      in_grads ← backward o out_grad node;
      n' ← get_node node;
      foldM accumulate grads (zip (inputs n') in_grads)
  end.

(** [grads.get(inp, Node([], None, value=0))]: the default is built
    whether it is used or not. *)
Definition grads_get_default (grads : gmap addr addr) (inp : addr) : M addr :=
  z ← Leaf (s_int 0);
  mret (default z (grads !! inp)).

Definition gradients (fuel : nat) (output_node : addr)
    (input_nodes : list addr) : M (list addr) :=
  seed ← Leaf (s_int 1);
  h ← get_heap;
  vt ← lift (build_topo h fuel (∅, []) output_node);
  grads ← foldM propagate {[output_node := seed]} (reverse vt.2);
  mapM (grads_get_default grads) input_nodes.

(** ** The program of [__main__], and the diamond *)

(** [a], [b] and [c = a * a - b * b + a / b], returned as [(a, b, c)]. *)
Definition main_graph (x y : R) : M (addr * addr * addr) :=
  a ← Leaf x;
  b ← Leaf y;
  aa ← Node_mul a a;
  bb ← Node_mul b b;
  d ← Node_sub aa bb;
  q ← Node_truediv a b;
  c ← Node_add d q;
  mret (a, b, c).

(** [c.eval()], then [gradients(c, [a, b])] and the [eval] of its two
    results. *)
Definition main_values (fuel : nat) (x y : R) : M (R * R * R) :=
  abc ← main_graph x y;
  v ← eval fuel abc.2;
  gs ← gradients fuel abc.2 [abc.1.1; abc.1.2];
  ga ← lift (index gs 0);
  gb ← lift (index gs 1);
  va ← eval fuel ga;
  vb ← eval fuel gb;
  mret (v, va, vb).

(** The diamond with one shared node, [s = a + b; d = s * s], and the
    diamond as the expression [(a + b) * (a + b)] builds it, with two
    nodes for [a + b]; then [gradients(d, [a])[0].eval()]. *)
Definition diamond_shared (fuel : nat) (x y : R) : M R :=
  a ← Leaf x;
  b ← Leaf y;
  sm ← Node_add a b;
  d ← Node_mul sm sm;
  gs ← gradients fuel d [a];
  ga ← lift (index gs 0);
  eval fuel ga.

Definition diamond_expr (fuel : nat) (x y : R) : M R :=
  a ← Leaf x;
  b ← Leaf y;
  s1 ← Node_add a b;
  s2 ← Node_add a b;
  d ← Node_mul s1 s2;
  gs ← gradients fuel d [a];
  ga ← lift (index gs 0);
  eval fuel ga.

(** * Specification vocabulary *)

(** ** Frames *)

(** [m] relates the state it starts in to the state it ends in by [P],
    whatever the outcome. *)
Definition preserves {A} (P : state → state → Prop) (m : M A) : Prop :=
  ∀ s r s', m s = (r, s') → P s s'.

(** The nodes the backward rules and [gradients] allocate: a leaf holding
    one of the literals [1], [-1], [0], or an operator node of two inputs
    with no value yet. *)
Definition fresh_shape (n : Node) : Prop :=
  (inputs n = [] ∧ op n = None ∧
   (value n = Some (s_int 1) ∨ value n = Some (s_int (-1)) ∨
    value n = Some (s_int 0))) ∨
  (length (inputs n) = 2 ∧ is_Some (op n) ∧ value n = None).

(** [s'] is [s] with nodes allocated after it: every node of [s] is where
    it was, with the three fields it had, and nothing was evaluated. *)
Definition extends (Q : Node → Prop) (s s' : state) : Prop :=
  ∃ new, heap s' = heap s ++ new ∧ Forall Q new ∧ trace s' = trace s.

(** ** Memoisation *)

(** How a node may differ after an evaluation: [inputs] and [op] are what
    they were, and [value] is what it was unless it was absent on a node
    that has an operator. *)
Definition memo (n n' : Node) : Prop :=
  inputs n' = inputs n ∧ op n' = op n ∧
  (value n' = value n ∨ (value n = None ∧ is_Some (op n))).

(** Every node of [s] is still there in [s'], changed by [memo] at most. *)
Definition grows (s s' : state) : Prop :=
  ∀ a n, heap s !! a = Some n → ∃ n', heap s' !! a = Some n' ∧ memo n n'.

(** The frame of [eval]: the heap keeps its size, its nodes change by
    [memo] at most, and the log is extended. *)
Definition evolves (s s' : state) : Prop :=
  length (heap s') = length (heap s) ∧ grows s s' ∧
  ∃ evs, trace s' = trace s ++ evs.

(** ** What a program can do to the heap *)

(** One call of the interface: constructing a node, evaluating one, or
    taking gradients, with whatever outcome. *)
Inductive step : state → state → Prop :=
  | step_Node_init i o v s : step s (Node_init i o v s).2
  | step_eval fuel self s : step s (eval fuel self s).2
  | step_gradients fuel out wrt s : step s (gradients fuel out wrt s).2.

(** ** The graph *)

(** [i] is an input of the node at [a]. *)
Definition edge (h : list Node) (a i : addr) : Prop :=
  ∃ n, h !! a = Some n ∧ i ∈ inputs n.

Definition reachable (h : list Node) : addr → addr → Prop := rtc (edge h).

(** Every input of a node is a node of the heap. *)
Definition closed (h : list Node) : Prop :=
  ∀ a i, edge h a i → is_Some (h !! i).

(** Acyclicity, witnessed by a rank that decreases along every edge.  The
    constructors give one for free: a node is built from nodes that exist,
    so its inputs have smaller addresses. *)
Definition ranked (h : list Node) (rank : addr → nat) : Prop :=
  ∀ a i, edge h a i → rank i < rank a.

(** The shape of the nodes the interface builds: a leaf has no inputs, an
    operator node has two. *)
Definition arity_ok (h : list Node) : Prop :=
  ∀ a n, h !! a = Some n →
    match op n with
    | None => inputs n = []
    | Some _ => length (inputs n) = 2
    end.

(** In the list [l], every input of a node stands before the node. *)
Definition inputs_first (h : list Node) (l : list addr) : Prop :=
  ∀ j x i, l !! j = Some x → edge h x i → ∃ k, k < j ∧ l !! k = Some i.

(** What one call [build_topo(node)] does to [visited] and [topo_order],
    when every node that is visited and not yet appended (a caller still
    in its loop) has rank [b] at least and [node] is below [b]. *)
Definition topo_call (h : list Node) (rank : addr → nat)
    (from : addr → Prop)
    (run : gset addr * list addr → res (gset addr * list addr))
    (V : gset addr) (T : list addr) (b : nat) : Prop :=
  (∀ x, x ∈ T → x ∈ V) → NoDup T → inputs_first h T →
  (∀ x, x ∈ V → x ∈ T ∨ b ≤ rank x) →
  ∃ V' new,
    run (V, T) = Ok (V', T ++ new) ∧
    (∀ x, x ∈ V' ↔ x ∈ V ∨ x ∈ new) ∧
    (∀ x, x ∈ new → (x ∉ V) ∧ (∃ a, from a ∧ reachable h a x)) ∧
    NoDup (T ++ new) ∧ inputs_first h (T ++ new) ∧
    (∀ a, from a → a ∈ T ++ new).

(** ** Expressions read off the heap *)

(** The expression a node stands for, read off the heap down to the nodes
    one chooses to leave as references. *)
Inductive expr :=
  | Ref (a : addr)
  | Lit (v : R)
  | Bin (o : Op) (e1 e2 : expr).

Inductive denotes (h : list Node) : addr → expr → Prop :=
  | denotes_ref a : denotes h a (Ref a)
  | denotes_lit a v :
      h !! a = Some (mkNode [] None (Some v)) → denotes h a (Lit v)
  | denotes_bin a o x y e1 e2 :
      h !! a = Some (mkNode [x; y] (Some o) None) →
      denotes h x e1 → denotes h y e2 → denotes h a (Bin o e1 e2).

(** ** The reverse walk *)

(** The node at [x] has an operator. *)
Definition has_op (h : list Node) (x : addr) : Prop :=
  ∃ n, h !! x = Some n ∧ is_Some (op n).

(** In the list [l], every node with an operator has an entry in [g]
    already or is an input of an operator node that stands before it. *)
Definition covered (h : list Node) (g : gmap nat nat) (l : list addr) : Prop :=
  ∀ j x, l !! j = Some x → has_op h x →
    x ∈ dom g ∨ ∃ k c, k < j ∧ l !! k = Some c ∧ has_op h c ∧ edge h c x.

(** ** Disconnected nodes *)

(** A node with neither an operator nor a value. *)
Definition malformed (h : list Node) (x : addr) : Prop :=
  ∃ n, h !! x = Some n ∧ op n = None ∧ value n = None.

(** Nodes without an operator have no inputs, as leaves do. *)
Definition leaf_inputs (h : list Node) : Prop :=
  ∀ a n, h !! a = Some n → op n = None → inputs n = [].

(** What the log of a computation says about [ValueError]: the calls of
    [eval] it logs are on nodes reachable from where it started; if it
    raises [ValueError] one of them is on a malformed node; and, when
    nodes without an operator have no inputs, a call on a malformed node
    makes it raise [ValueError]. *)
Definition disconnected_spec {A} (from : addr → Prop) (m : M A) : Prop :=
  ∀ s r s', m s = (r, s') →
    ∃ evs, trace s' = trace s ++ evs ∧
      (∀ x, EvCall x ∈ evs → ∃ a, from a ∧ reachable (heap s) a x) ∧
      (r = Err ValueError → ∃ x, EvCall x ∈ evs ∧ malformed (heap s) x) ∧
      (leaf_inputs (heap s) →
         ∀ x, EvCall x ∈ evs → malformed (heap s) x → r = Err ValueError).

(** ** Heaps in construction order *)

(** Checks that can be run.  [orderedb]: the inputs of every node are at
    smaller addresses, as they are when every node is built from nodes
    that exist.  [arity_okb]: a node has two inputs if it has an operator
    and none if it has not. *)
Fixpoint checkb (f : addr → Node → bool) (a : addr) (h : list Node) : bool :=
  match h with
  | [] => true
  | n :: h' => f a n && checkb f (S a) h'
  end.

Definition orderedb (h : list Node) : bool :=
  checkb (λ a n, forallb (λ i, i <? a) (inputs n)) 0 h.

Definition arity_okb (h : list Node) : bool :=
  checkb (λ _ n, match op n with
                 | None => length (inputs n) =? 0
                 | Some _ => length (inputs n) =? 2
                 end) 0 h.

(** ** Concrete heaps *)

(** The heap of [__main__] with [a = 2] and [b = 3]: [a], [b], [a * a],
    [b * b], their difference, [a / b], and [c] at address [6]. *)
Definition main_state : state :=
  (main_graph (s_int 2) (s_int 3) empty_state).2.

(** [a], [b], [m = a * b] and, at address [3], [Node([a, b, m], addOp)]. *)
Definition three_input_state : state :=
  mkState [mkNode [] None (Some (s_int 1));
           mkNode [] None (Some (s_int 2));
           mkNode [0; 1] (Some MulOp) None;
           mkNode [0; 1; 2] (Some AddOp) None] [].

(** [a], [z = 0], [a / z] and, at address [3], [Node([a / z], None)]: a
    node with an input and neither operator nor value. *)
Definition disconnected_with_input : state :=
  mkState [mkNode [] None (Some (s_int 1));
           mkNode [] None (Some (s_int 0));
           mkNode [0; 1] (Some DivOp) None;
           mkNode [2] None None] [].

(** A leaf, [Node([], None)] with neither operator nor value, and their
    sum at address [2]. *)
Definition disconnected_state : state :=
  mkState [mkNode [] None (Some (s_int 1));
           mkNode [] None None;
           mkNode [0; 1] (Some AddOp) None] [].

(** ** More vocabulary *)

(** The inputs of every node are at smaller addresses: the order in which
    the constructors build a heap. *)
Definition ordered (h : list Node) : Prop :=
  ∀ a i, edge h a i → i < a.

(** Every gradient recorded in [g] is a node of the heap. *)
Definition grads_valid (g : gmap nat nat) (s : state) : Prop :=
  ∀ k r, g !! k = Some r → r < length (heap s).

(** The heaps a program reaches from the empty one: leaves, operators
    applied to nodes that exist, evaluations, and gradients of a node
    that exists (with the fuel its depth needs at most). *)
Inductive built : state → Prop :=
  | built_empty t : built (mkState [] t)
  | built_Leaf v s : built s → built (Leaf v s).2
  | built_op_call o a b s :
      built s → a < length (heap s) → b < length (heap s) →
      built (op_call o a b s).2
  | built_eval fuel self s : built s → built (eval fuel self s).2
  | built_gradients fuel out wrt s :
      built s → out < length (heap s) → out < fuel →
      built (gradients fuel out wrt s).2.

(** The exceptions an evaluation can end in, on a closed acyclic heap and
    with fuel above the rank of what is evaluated. *)
Definition eval_raises (s : state) (e : error) : Prop :=
  (e = ValueError ∨ e = IndexError ∨ e = ZeroDivisionError) ∧
  (arity_ok (heap s) → e ≠ IndexError).

(** [m], started in a heap that begins with the nodes of [hb], ends in
    such a heap, and raises only what [E] allows. *)
Definition raises_only {A} (hb : list Node) (E : error → Prop) (m : M A)
    : Prop :=
  ∀ s r s',
    (∀ a n, hb !! a = Some n → heap s !! a = Some n) → m s = (r, s') →
    (∀ a n, hb !! a = Some n → heap s' !! a = Some n) ∧
    (∀ e, r = Err e → E e).

(** ** More programs *)

(** [c = build(a, b)] over two leaves, then the values of
    [gradients(c, [a, b])]. *)
Definition binary_gradients (build : addr → addr → M addr)
    (fuel : nat) (x y : R) : M (R * R) :=
  a ← Leaf x;
  b ← Leaf y;
  c ← build a b;
  gs ← gradients fuel c [a; b];
  ga ← lift (index gs 0);
  gb ← lift (index gs 1);
  va ← eval fuel ga;
  vb ← eval fuel gb;
  mret (va, vb).

(** [c = a * a], then the value of [gradients(c, [a])[0]], and of the
    gradient of that gradient. *)
Definition square_gradient (fuel : nat) (x : R) : M R :=
  a ← Leaf x;
  c ← Node_mul a a;
  gs ← gradients fuel c [a];
  ga ← lift (index gs 0);
  eval fuel ga.

Definition square_second_gradient (fuel : nat) (x : R) : M R :=
  a ← Leaf x;
  c ← Node_mul a a;
  gs ← gradients fuel c [a];
  ga ← lift (index gs 0);
  gs' ← gradients fuel ga [a];
  ga' ← lift (index gs' 0);
  eval fuel ga'.

(** ** Values and derivatives, read off the heap *)

(** A list computed front to back, each element from those before it. *)
Definition scan {A B} (f : list B → A → B) (l : list A) : list B :=
  foldl (λ acc a, acc ++ [f acc a]) [] l.

(** The value at [i] in a list of values, [0] outside it. *)
Definition val_at (vs : list R) (i : addr) : R :=
  default (s_int 0) (vs !! i).

(** The four operators as functions, with the division of the scalars
    (whatever it gives on [0]). *)
Definition apply_op (o : Op) (x y : R) : R :=
  match o with
  | AddOp => s_add x y
  | SubOp => s_sub x y
  | MulOp => s_mul x y
  | DivOp => s_div x y
  end.

(** The value a node stands for, given the values [vs] of the nodes
    before it: a leaf stands for the value it holds, an operator node for
    its operator applied to its two inputs.  What an operator node has
    cached is not looked at. *)
Definition node_value (vs : list R) (n : Node) : R :=
  match op n, inputs n with
  | None, _ => default (s_int 0) (value n)
  | Some o, [i; j] => apply_op o (val_at vs i) (val_at vs j)
  | Some _, _ => s_int 0
  end.

Definition values (h : list Node) : list R := scan node_value h.

(** The partial derivatives of an operator at [(x, y)], by its first and
    by its second argument. *)
Definition partials (o : Op) (x y : R) : R * R :=
  match o with
  | AddOp => (s_int 1, s_int 1)
  | SubOp => (s_int 1, s_int (-1))
  | MulOp => (y, x)
  | DivOp => (s_div (s_int 1) y, s_div (s_mul (s_int (-1)) x) (s_mul y y))
  end.

(** The derivative of the node at [a] with respect to the node at [x],
    given the values [vs] and the derivatives [ts] of the nodes before it:
    [1] at [x] itself, the chain rule at an operator node, [0] at a
    leaf. *)
Definition node_tangent (x : addr) (vs ts : list R) (a : addr) (n : Node)
    : R :=
  if decide (a = x) then s_int 1
  else
    match op n, inputs n with
    | Some o, [i; j] =>
        s_add
          (s_mul (partials o (val_at vs i) (val_at vs j)).1 (val_at ts i))
          (s_mul (partials o (val_at vs i) (val_at vs j)).2 (val_at ts j))
    | _, _ => s_int 0
    end.

(** The derivatives of all nodes with respect to the node at [x]. *)
Definition tangents (x : addr) (h : list Node) : list R :=
  scan (λ ts n, node_tangent x (values h) ts (length ts) n) h.

(** What operator nodes have cached is the value they stand for, up to
    the equality [eqv] of the scalars. *)
Definition coherent (eqv : R → R → Prop) (h : list Node) : Prop :=
  ∀ a n v, h !! a = Some n → is_Some (op n) → value n = Some v →
    eqv v (val_at (values h) a).

(** No division node has a divisor that stands for zero. *)
Definition div_safe (h : list Node) : Prop :=
  ∀ a n i j, h !! a = Some n → op n = Some DivOp → inputs n = [i; j] →
    s_is_zero (val_at (values h) j) = false.

(** The sum of [f k] over [k < n]. *)
Fixpoint sum_below (f : nat → R) (n : nat) : R :=
  match n with
  | 0 => s_int 0
  | S n' => s_add (sum_below f n') (f n')
  end.

(** The value the gradient recorded for [k] stands for, [0] when none is
    recorded. *)
Definition grad_value (g : gmap addr addr) (vs : list R) (k : addr) : R :=
  match g !! k with
  | Some r => val_at vs r
  | None => s_int 0
  end.

(** What the reverse walk has in hand after the nodes of [seen]: the
    gradients of the nodes still to come, each weighted by the derivative
    of its node with respect to [x], and the gradient of [x] once [x] is
    done. *)
Definition pending (x : addr) (seen : list addr) (g : gmap addr addr)
    (vs ts : list R) (n : nat) : R :=
  s_add
    (sum_below
       (λ k, if decide (k ∈ seen) then s_int 0
             else s_mul (grad_value g vs k) (val_at ts k)) n)
    (if decide (x ∈ seen) then grad_value g vs x else s_int 0).

(** What holds of [grads] and the heap after the reverse walk has done
    the nodes of [seen], for a walk that started from [out] on the heap
    [h0]: the heap is [h0] with nodes after it, in construction order,
    holding every gradient recorded; gradients are recorded for nodes of
    [h0] only; and what the walk has in hand is the derivative of [out]
    with respect to [x]. *)
Definition walk_inv (eqv : R → R → Prop) (h0 : list Node) (x out : addr)
    (seen : list addr) (g : gmap addr addr) (s : state) : Prop :=
  (∃ new, heap s = h0 ++ new) ∧
  ordered (heap s) ∧ grads_valid g s ∧
  (∀ k, is_Some (g !! k) → k < length h0) ∧
  (div_safe h0 → div_safe (heap s)) ∧
  eqv (val_at (tangents x h0) out)
      (pending x seen g (values (heap s)) (tangents x h0) (length h0)).

(** The partial derivative of the operator node [n] with respect to the
    node at [x], as an input of [n]: the sum of the operator's partial
    derivatives at the positions of [inputs] that hold [x], [0] when [x]
    is no input of [n]. *)
Definition edge_weight (vs : list R) (n : Node) (x : addr) : R :=
  match op n, inputs n with
  | Some o, [i; j] =>
      s_add
        (if decide (i = x)
         then (partials o (val_at vs i) (val_at vs j)).1 else s_int 0)
        (if decide (j = x)
         then (partials o (val_at vs i) (val_at vs j)).2 else s_int 0)
  | _, _ => s_int 0
  end.

(** The same for the node at [c] of the heap [h]. *)
Definition weight (h : list Node) (c x : addr) : R :=
  match h !! c with
  | Some n => edge_weight (values h) n x
  | None => s_int 0
  end.

(** * Proofs *)

(** ** Reasoning about heap computations *)

Lemma bind_inv {A B} (m : M A) (k : A → M B) s r s' :
  (m ≫= k) s = (r, s') →
  (∃ x s1, m s = (Ok x, s1) ∧ k x s1 = (r, s')) ∨
  (∃ e, m s = (Err e, s') ∧ r = Err e).
Proof.
  unfold mbind, M_bind. destruct (m s) as [[x|e] s1]; intros E.
  - left. eauto.
  - right. inversion E; subst. eauto.
Qed.

Lemma bind_ok {A B} (m : M A) (k : A → M B) s x s1 :
  m s = (Ok x, s1) → (m ≫= k) s = k x s1.
Proof. unfold mbind, M_bind. by intros ->. Qed.

Section Preserves.
Context (P : state → state → Prop) `{!PreOrder P}.

Lemma preserves_ret {A} (x : A) : preserves P (mret x).
Proof. intros s r s' E. inversion E; subst. reflexivity. Qed.

Lemma preserves_raise {A} e : preserves P (@raise A e).
Proof. intros s r s' E. inversion E; subst. reflexivity. Qed.

Lemma preserves_lift {A} (x : res A) : preserves P (lift x).
Proof. intros s r s' E. inversion E; subst. reflexivity. Qed.

Lemma preserves_get_heap : preserves P get_heap.
Proof. intros s r s' E. inversion E; subst. reflexivity. Qed.

Lemma preserves_get_node a : preserves P (get_node a).
Proof.
  intros s r s'. unfold get_node.
  destruct (heap s !! a); intros E; inversion E; subst; reflexivity.
Qed.

Lemma preserves_bind {A B} (m : M A) (k : A → M B) :
  preserves P m → (∀ x, preserves P (k x)) → preserves P (m ≫= k).
Proof.
  intros Hm Hk s r s' E.
  apply bind_inv in E as [(x & s1 & E1 & E2)|(e & E1 & _)].
  - etrans; [by eapply Hm | by eapply Hk].
  - by eapply Hm.
Qed.

Lemma preserves_mapM {A B} (f : A → M B) l :
  (∀ x, x ∈ l → preserves P (f x)) → preserves P (mapM f l).
Proof.
  induction l as [|x l IH]; intros Hf; simpl.
  - apply preserves_ret.
  - apply preserves_bind; [apply Hf; left|].
    intros y. apply preserves_bind; [apply IH; intros; apply Hf; by right|].
    intros ys. apply preserves_ret.
Qed.

Lemma preserves_foldM {A B} (f : A → B → M A) acc l :
  (∀ acc x, x ∈ l → preserves P (f acc x)) → preserves P (foldM f acc l).
Proof.
  revert acc. induction l as [|x l IH]; intros acc Hf; simpl.
  - apply preserves_ret.
  - apply preserves_bind; [apply Hf; left|].
    intros acc'. apply IH. intros; apply Hf; by right.
Qed.

End Preserves.

(** ** Allocation only *)

#[global] Instance extends_preorder Q : PreOrder (extends Q).
Proof.
  split.
  - intros s. exists []. by rewrite app_nil_r.
  - intros s1 s2 s3 (n1 & H1 & F1 & T1) (n2 & H2 & F2 & T2).
    exists (n1 ++ n2). rewrite H2, H1, T2, T1, <-app_assoc.
    split_and!; [done| by apply Forall_app |done].
Qed.

Lemma extends_lookup Q s s' a n :
  extends Q s s' → heap s !! a = Some n → heap s' !! a = Some n.
Proof. intros (new & -> & _) E. by apply lookup_app_l_Some. Qed.

Lemma alloc_extends (Q : Node → Prop) n : Q n → preserves (extends Q) (alloc n).
Proof.
  intros HQ s r s' E. inversion E; subst. exists [n]. simpl.
  split_and!; [done| by constructor |done].
Qed.

Lemma Node_init_extends (Q : Node → Prop) i o v :
  Q (mkNode i o v) → preserves (extends Q) (Node_init i o v).
Proof. apply alloc_extends. Qed.

Lemma op_call_fresh o a b : preserves (extends fresh_shape) (op_call o a b).
Proof. apply Node_init_extends. right. simpl. eauto. Qed.

Lemma Leaf_fresh z :
  z = 1%Z ∨ z = (-1)%Z ∨ z = 0%Z →
  preserves (extends fresh_shape) (Leaf (s_int z)).
Proof.
  intros Hz. apply Node_init_extends. left. simpl.
  split_and!; [done..|]. destruct Hz as [->|[->| ->]]; auto.
Qed.

Lemma input_at_preserves P `{!PreOrder P} node i : preserves P (input_at node i).
Proof.
  apply (preserves_bind P); [by apply preserves_get_node|].
  intros n. by apply preserves_lift.
Qed.

Lemma backward_fresh o g node : preserves (extends fresh_shape) (backward o g node).
Proof.
  destruct o; unfold backward;
    repeat first
      [ by apply (preserves_ret _)
      | by apply (input_at_preserves _)
      | apply op_call_fresh
      | by apply Leaf_fresh; auto
      | apply (preserves_bind _); [|intros ?] ].
Qed.

Lemma accumulate_fresh g p : preserves (extends fresh_shape) (accumulate g p).
Proof.
  unfold accumulate. destruct (g !! p.1).
  - apply (preserves_bind _); [apply op_call_fresh|].
    intros ?. by apply (preserves_ret _).
  - by apply (preserves_ret _).
Qed.

Lemma propagate_fresh g node : preserves (extends fresh_shape) (propagate g node).
Proof.
  unfold propagate. apply (preserves_bind _); [by apply (preserves_get_node _)|].
  intros n. destruct (op n); [|by apply (preserves_ret _)].
  apply (preserves_bind _).
  { unfold grads_get. destruct (g !! node);
      [by apply (preserves_ret _) | by apply (preserves_raise _)]. }
  intros og. apply (preserves_bind _); [apply backward_fresh|].
  intros ig. apply (preserves_bind _); [by apply (preserves_get_node _)|].
  intros n'. apply (preserves_foldM _). intros; apply accumulate_fresh.
Qed.

Lemma gradients_fresh fuel out wrt :
  preserves (extends fresh_shape) (gradients fuel out wrt).
Proof.
  unfold gradients. apply (preserves_bind _); [apply Leaf_fresh; auto|].
  intros seed. apply (preserves_bind _); [by apply (preserves_get_heap _)|].
  intros h. apply (preserves_bind _); [by apply (preserves_lift _)|].
  intros vt. apply (preserves_bind _).
  { apply (preserves_foldM _). intros; apply propagate_fresh. }
  intros g. apply (preserves_mapM _). intros x _.
  apply (preserves_bind _); [apply Leaf_fresh; auto|].
  intros ?. by apply (preserves_ret _).
Qed.

(** ** Memoisation *)

#[global] Instance memo_preorder : PreOrder memo.
Proof.
  split.
  - intros n. unfold memo. auto.
  - intros n1 n2 n3 (I1 & O1 & V1) (I2 & O2 & V2). unfold memo.
    rewrite I2, I1, O2, O1. split_and!; [done..|].
    destruct V1 as [V1|V1], V2 as [V2|[V2 ?]]; try (right; done).
    + left. congruence.
    + right. rewrite <-V1, <-O1. done.
Qed.

#[global] Instance grows_preorder : PreOrder grows.
Proof.
  split.
  - intros s a n E. exists n. split; [done|reflexivity].
  - intros s1 s2 s3 H1 H2 a n E.
    destruct (H1 a n E) as (n' & E' & M1).
    destruct (H2 a n' E') as (n'' & E'' & M2).
    exists n''. split; [done|by etrans].
Qed.

#[global] Instance evolves_preorder : PreOrder evolves.
Proof.
  split.
  - intros s. split_and!; [done|reflexivity|]. exists []. by rewrite app_nil_r.
  - intros s1 s2 s3 (L1 & G1 & e1 & T1) (L2 & G2 & e2 & T2).
    split_and!; [congruence|by etrans|].
    exists (e1 ++ e2). by rewrite T2, T1, <-app_assoc.
Qed.

Lemma extends_grows Q s s' : extends Q s s' → grows s s'.
Proof.
  intros Hext a n E. exists n. split; [by eapply extends_lookup|reflexivity].
Qed.

Lemma emit_evolves e : preserves evolves (emit e).
Proof.
  intros s r s' E. inversion E; subst; simpl.
  split_and!; [done| |by eexists].
  intros a n Ha. exists n. split; [done|reflexivity].
Qed.

Lemma eval_unfold fuel self :
  eval (S fuel) self =
    (_ ← emit (EvCall self);
     n ← get_node self;
     match value n with
     | Some v => mret v
     | None =>
         input_values ← mapM (eval fuel) (inputs n);
         n' ← get_node self;
         match op n' with
         | None => raise ValueError
         | Some o =>
             _ ← emit (EvForward self);
             v ← lift (forward o input_values);
             _ ← set_value self v;
             mret v
         end
     end).
Proof. reflexivity. Qed.

Lemma get_node_inv a s r s' :
  get_node a s = (r, s') →
  s' = s ∧ ((∃ n, heap s !! a = Some n ∧ r = Ok n) ∨
            (heap s !! a = None ∧ r = Err Dangling)).
Proof.
  unfold get_node. destruct (heap s !! a) as [n|]; intros E; inversion E; subst.
  - split; [done|]. left. eauto.
  - split; [done|]. by right.
Qed.

Tactic Notation "inv_bind" hyp(E) "as" ident(x) ident(s1) ident(E1) :=
  let Hr := fresh in
  let err := fresh "err" in
  apply bind_inv in E as [(x & s1 & E1 & E)|(err & E & Hr)];
  [|first [discriminate Hr | try rewrite Hr in *; clear Hr]].

Lemma emit_inv e s r s' :
  emit e s = (r, s') → r = Ok tt ∧ s' = mkState (heap s) (trace s ++ [e]).
Proof. by intros [= <- <-]. Qed.

Lemma eval_evolves fuel self : preserves evolves (eval fuel self).
Proof.
  revert self. induction fuel as [|fuel IH]; intros self s r s' E.
  { inversion E; subst. reflexivity. }
  rewrite eval_unfold in E.
  inv_bind E as u s0 E0; [|by eapply emit_evolves].
  etrans; [by eapply emit_evolves|]. clear E0 s u.
  inv_bind E as n s1 E1; [|by eapply (preserves_get_node _)].
  apply get_node_inv in E1 as [-> [(? & Hn & [= <-])|[_ [=]]]].
  destruct (value n) as [v|] eqn:Hv.
  { by eapply (preserves_ret _). }
  inv_bind E as vals s1 E1.
  2:{ eapply (preserves_mapM _); [|done]. intros; apply IH. }
  assert (evolves s0 s1) as (L & G & evs & T).
  { eapply (preserves_mapM _); [|done]. intros; apply IH. }
  clear E1.
  inv_bind E as n' s2 E2.
  2:{ apply get_node_inv in E as [-> _]. split_and!; [done..|by eexists]. }
  apply get_node_inv in E2 as [-> [(? & Hn' & [= <-])|[_ [=]]]].
  destruct (G _ _ Hn) as (n'' & Hn'' & I & O & _).
  rewrite Hn' in Hn''. injection Hn'' as <-.
  destruct (op n') as [o|] eqn:Ho.
  2:{ inversion E; subst. split_and!; [done..|by eexists]. }
  (* from here on the heap changes at [self] only *)
  inv_bind E as u s3 E3;
    [apply emit_inv in E3 as [_ ->]|apply emit_inv in E as [[=] _]].
  assert (∃ evs', trace s' = trace s0 ++ evs' ∧
      (heap s' = heap s1 ∨ ∃ v, heap s' =
         alter (λ n, mkNode (inputs n) (op n) (Some v)) self (heap s1)))
    as (evs' & T' & Hs').
  { inv_bind E as v s4 E4.
    2:{ inversion E; subst; simpl. rewrite T, <-app_assoc. eauto. }
    inversion E4; subst; simpl in *.
    inv_bind E as u5 s5 E5; [|inversion E].
    inversion E5; subst. inversion E; subst; simpl.
    rewrite T, <-app_assoc. eauto. }
  split_and!; [| |by eexists].
  - destruct Hs' as [->|[v ->]]; [done|]. by rewrite length_alter.
  - intros a m Ha. destruct Hs' as [->|[v ->]]; [by apply G|].
    destruct (decide (a = self)) as [->|Hne].
    + rewrite list_lookup_alter_eq, Hn'. simpl. eexists. split; [done|].
      rewrite Hn in Ha. injection Ha as <-.
      unfold memo. simpl. split_and!; [done|congruence|].
      right. rewrite <-O. eauto.
    + rewrite list_lookup_alter_ne by done. by apply G.
Qed.

Lemma eval_cached fuel self s n v :
  heap s !! self = Some n → value n = Some v →
  eval (S fuel) self s = (Ok v, mkState (heap s) (trace s ++ [EvCall self])).
Proof.
  intros Hn Hv. rewrite eval_unfold.
  erewrite bind_ok by reflexivity.
  erewrite bind_ok; [|unfold get_node; simpl; by rewrite Hn].
  by rewrite Hv.
Qed.

Lemma eval_ok_value fuel self s v s' :
  eval fuel self s = (Ok v, s') →
  ∃ n', heap s' !! self = Some n' ∧ value n' = Some v.
Proof.
  destruct fuel as [|fuel]; [by intros [=]|].
  rewrite eval_unfold. intros E.
  inv_bind E as u s0 E0. apply emit_inv in E0 as [_ ->].
  inv_bind E as n s1 E1.
  apply get_node_inv in E1 as [-> [(? & Hn & [= <-])|[_ [=]]]].
  destruct (value n) as [w|] eqn:Hv.
  { inversion E; subst. eauto. }
  inv_bind E as vals s1 E1.
  inv_bind E as n' s2 E2.
  apply get_node_inv in E2 as [-> [(? & Hn' & [= <-])|[_ [=]]]].
  destruct (op n') as [o|]; [|done].
  inv_bind E as u' s3 E3. apply emit_inv in E3 as [_ ->].
  inv_bind E as w s4 E4.
  injection E4 as _ <-.
  inv_bind E as u'' s5 E5.
  inversion E5; subst. inversion E; subst. simpl.
  rewrite list_lookup_alter_eq, Hn'. simpl. eauto.
Qed.

(** ** Calls of the interface *)

Lemma step_grows s s' : step s s' → grows s s'.
Proof.
  intros [i o v s0|fuel self s0|fuel out wrt s0].
  - eapply (extends_grows (λ _, True)).
    eapply (Node_init_extends (λ _, True)); [done|]. apply surjective_pairing.
  - eapply eval_evolves. apply surjective_pairing.
  - eapply extends_grows, gradients_fresh. apply surjective_pairing.
Qed.

Lemma steps_grows s s' : rtc step s s' → grows s s'.
Proof.
  induction 1 as [|s1 s2 s3 H12 _ IH]; [reflexivity|].
  etrans; [by apply step_grows|done].
Qed.

Lemma grows_value s s' a n v :
  grows s s' → heap s !! a = Some n → value n = Some v →
  ∃ n', heap s' !! a = Some n' ∧ value n' = Some v.
Proof.
  intros G Hn Hv. destruct (G _ _ Hn) as (n' & Hn' & _ & _ & [V|[V _]]).
  - exists n'. split; [done|congruence].
  - congruence.
Qed.

(** ** The topological order *)

Lemma reachable_rank h rank a b :
  ranked h rank → reachable h a b → rank b ≤ rank a.
Proof.
  intros Hr. induction 1 as [|a i b He _ IH]; [done|].
  apply Hr in He. lia.
Qed.

Lemma inputs_first_app h l x :
  inputs_first h l → (∀ i, edge h x i → i ∈ l) → inputs_first h (l ++ [x]).
Proof.
  intros Hl Hx j y i Hj He.
  apply lookup_app_Some in Hj as [Hj|[Hlen Hj]].
  - destruct (Hl _ _ _ Hj He) as (k & Hk & Hki).
    exists k. split; [done|]. by apply lookup_app_l_Some.
  - apply list_lookup_singleton_Some in Hj as [_ <-].
    apply Hx, list_elem_of_lookup in He as [k Hk].
    exists k. split; [|by apply lookup_app_l_Some].
    apply lookup_lt_Some in Hk. lia.
Qed.

Section Topo.
Context (h : list Node) (rank : addr → nat).
Context (Hclosed : closed h) (Hranked : ranked h rank).

Lemma topo_loop fuel l :
  (∀ node V T b, rank node < fuel → rank node < b → is_Some (h !! node) →
     topo_call h rank (λ a, a = node) (λ vt, build_topo h fuel vt node) V T b) →
  ∀ V T b,
    (∀ i, i ∈ l → rank i < fuel ∧ rank i < b ∧ is_Some (h !! i)) →
    topo_call h rank (λ a, a ∈ l) (λ vt, res_foldM (build_topo h fuel) vt l) V T b.
Proof.
  intros Hcall. induction l as [|i l IH]; intros V T b Hl HTV Hnd Hif Hgray.
  - exists V, []. rewrite app_nil_r. simpl.
    split_and!; [done|set_solver|set_solver|done|done|set_solver].
  - destruct (Hl i) as (Hf & Hb & Hi); [left|].
    destruct (Hcall i V T b Hf Hb Hi HTV Hnd Hif Hgray)
      as (V1 & new1 & E1 & HV1 & Hnew1 & Hnd1 & Hif1 & Hin1).
    destruct (IH V1 (T ++ new1) b) as (V2 & new2 & E2 & HV2 & Hnew2 & Hnd2 & Hif2 & Hin2).
    + intros; apply Hl. by right.
    + intros x Hx. apply HV1. set_solver.
    + done.
    + done.
    + intros x Hx. apply HV1 in Hx as [Hx|Hx]; [|set_solver].
      destruct (Hgray x Hx); [set_solver|by right].
    + exists V2, (new1 ++ new2). simpl. rewrite E1. simpl.
      rewrite app_assoc. split_and!; [done| | |done|done|].
      * intros x. rewrite HV2, HV1. set_solver.
      * intros x [Hx|Hx]%elem_of_app.
        -- destruct (Hnew1 x Hx) as (? & a & -> & ?).
           split; [done|]. exists i. split; [left|done].
        -- destruct (Hnew2 x Hx) as (HxV & a & ? & ?).
           split; [rewrite HV1 in HxV; tauto|].
           exists a. split; [by right|done].
      * intros a [->|Ha]%elem_of_cons; [|by apply Hin2].
        specialize (Hin1 i eq_refl). set_solver.
Qed.

Lemma build_topo_call fuel node V T b :
  rank node < fuel → rank node < b → is_Some (h !! node) →
  topo_call h rank (λ a, a = node) (λ vt, build_topo h fuel vt node) V T b.
Proof.
  revert node V T b. induction fuel as [|fuel IH];
    intros node V T b Hf Hb [n Hn] HTV Hnd Hif Hgray; [lia|].
  simpl. destruct (decide (node ∈ V)) as [Hin|Hnin].
  { exists V, []. rewrite app_nil_r.
    split_and!; [done|set_solver|set_solver|done|done|].
    intros a ->. destruct (Hgray _ Hin); [done|lia]. }
  rewrite Hn.
  destruct (topo_loop fuel (inputs n) IH ({[node]} ∪ V) T (rank node))
    as (V2 & new & E & HV2 & Hnew & Hnd2 & Hif2 & Hin2).
  { intros i Hi. assert (edge h node i) as He by (by exists n).
    split_and!; [apply Hranked in He; lia|by apply Hranked|by eapply Hclosed]. }
  { set_solver. }
  { done. }
  { done. }
  { intros x [Hx|Hx]%elem_of_union.
    - apply elem_of_singleton in Hx as ->. by right.
    - destruct (Hgray x Hx); [by left|right; lia]. }
  exists V2, (new ++ [node]). rewrite E. simpl. rewrite app_assoc.
  assert (node ∉ T ++ new) as Hfresh.
  { intros [Hx|Hx]%elem_of_app; [by apply Hnin, HTV|].
    apply Hnew in Hx as [Hx _]. set_solver. }
  split_and!; [done| | | | |].
  - intros x. rewrite HV2. set_solver.
  - intros x [Hx|Hx]%elem_of_app;
      [|apply list_elem_of_singleton in Hx as ->].
    + destruct (Hnew x Hx) as (HxV & a & Ha & Hr).
      split; [set_solver|]. exists node. split; [done|].
      eapply rtc_l; [|done]. by exists n.
    + split; [done|]. exists node. split; [done|reflexivity].
  - apply NoDup_app. split_and!; [done| |apply NoDup_singleton].
    intros x Hx Hx'. apply list_elem_of_singleton in Hx' as ->. done.
  - apply inputs_first_app; [done|].
    intros i [n' [Hn' Hi]]. apply Hin2. congruence.
  - intros a ->. set_solver.
Qed.

(** [build_topo(output_node)] from the empty [visited] and [topo_order]. *)
Lemma build_topo_spec fuel out :
  rank out < fuel → is_Some (h !! out) →
  ∃ V T,
    build_topo h fuel (∅, []) out = Ok (V, T) ∧
    NoDup T ∧ (∀ x, x ∈ T ↔ reachable h out x) ∧ inputs_first h T.
Proof.
  intros Hf Hout.
  destruct (build_topo_call fuel out ∅ [] (S (rank out)))
    as (V & T & E & HV & Hnew & Hnd & Hif & Hin); try done; try lia.
  { by intros ? ?%elem_of_nil. }
  { constructor. }
  simpl in *. exists V, T. split_and!; [done..| |done].
  intros x. split.
  - intros Hx. by destruct (Hnew x Hx) as (_ & a & -> & ?).
  - revert x. apply rtc_ind_r; [by apply Hin|].
    intros a i _ He IHr.
    apply list_elem_of_lookup in IHr as [j Hj].
    destruct (Hif _ _ _ Hj He) as (k & _ & Hk).
    by eapply list_elem_of_lookup_2.
Qed.

End Topo.

(** ** The backward rules, run *)

Lemma input_at_ok node i s n x :
  heap s !! node = Some n → inputs n !! i = Some x →
  input_at node i s = (Ok x, s).
Proof.
  intros Hn Hi. unfold input_at.
  erewrite bind_ok; [|unfold get_node; by rewrite Hn].
  unfold lift, index. by rewrite Hi.
Qed.

Lemma alloc_run n s :
  alloc n s = (Ok (length (heap s)), mkState (heap s ++ [n]) (trace s)).
Proof. reflexivity. Qed.

(** One step of a straight-line run: the first computation of a bind is
    an allocation, or reads an input of a node of the starting heap. *)
Ltac run_step Hn Hi :=
  first
    [ erewrite bind_ok by (apply alloc_run)
    | erewrite bind_ok by
        (eapply input_at_ok;
         [simpl; repeat (apply lookup_app_l_Some); exact Hn
         |rewrite Hi; reflexivity]) ];
  simpl.

Lemma backward_SubOp_run g node s :
  let l := length (heap s) in
  backward SubOp g node s =
    (Ok [g; l + 1],
     mkState (heap s ++ [mkNode [] None (Some (s_int (-1)));
                         mkNode [l; g] (Some MulOp) None]) (trace s)).
Proof.
  unfold backward, Leaf, Node_mul, op_call, Node_init.
  do 2 run_step I I. by rewrite length_app, <-app_assoc.
Qed.

Lemma backward_MulOp_run g node s n a b :
  heap s !! node = Some n → inputs n = [a; b] →
  let l := length (heap s) in
  backward MulOp g node s =
    (Ok [l; l + 1],
     mkState (heap s ++ [mkNode [b; g] (Some MulOp) None;
                         mkNode [a; g] (Some MulOp) None]) (trace s)).
Proof.
  intros Hn Hi.
  unfold backward, Leaf, Node_mul, op_call, Node_init.
  do 4 run_step Hn Hi. by rewrite length_app, <-app_assoc.
Qed.

Lemma backward_DivOp_run g node s n a b :
  heap s !! node = Some n → inputs n = [a; b] →
  let l := length (heap s) in
  backward DivOp g node s =
    (Ok [l + 2; l + 7],
     mkState (heap s ++ [mkNode [] None (Some (s_int 1));
                         mkNode [l; b] (Some DivOp) None;
                         mkNode [g; l + 1] (Some MulOp) None;
                         mkNode [] None (Some (s_int (-1)));
                         mkNode [l + 3; a] (Some MulOp) None;
                         mkNode [b; b] (Some MulOp) None;
                         mkNode [l + 4; l + 5] (Some DivOp) None;
                         mkNode [g; l + 6] (Some MulOp) None]) (trace s)).
Proof.
  intros Hn Hi.
  unfold backward, Leaf, Node_mul, Node_truediv, op_call, Node_init.
  do 12 run_step Hn Hi.
  rewrite !length_app, <-!app_assoc. simpl.
  by rewrite <-!Nat.add_assoc.
Qed.

Lemma lookup_fresh (h new : list Node) k :
  (h ++ new) !! (length h + k) = new !! k.
Proof. rewrite lookup_app_r by lia. f_equal. lia. Qed.

Lemma lookup_fresh_0 (h new : list Node) :
  (h ++ new) !! length h = new !! 0.
Proof. rewrite <-(lookup_fresh h new 0). f_equal. lia. Qed.

Lemma extends_app (Q : Node → Prop) s new :
  Forall Q new → extends Q s (mkState (heap s ++ new) (trace s)).
Proof. intros HQ. by exists new. Qed.

Lemma fresh_shape_leaf z :
  z = 1%Z ∨ z = (-1)%Z ∨ z = 0%Z →
  fresh_shape (mkNode [] None (Some (s_int z))).
Proof.
  intros Hz. left. simpl. split_and!; [done..|].
  destruct Hz as [->|[->| ->]]; auto.
Qed.

Lemma fresh_shape_op x y o : fresh_shape (mkNode [x; y] (Some o) None).
Proof. right. simpl. eauto. Qed.

Ltac solve_fresh :=
  repeat (apply Forall_cons; split;
          [first [apply fresh_shape_op | apply fresh_shape_leaf; auto]|]);
  apply Forall_nil_2.

Ltac solve_denotes :=
  repeat first
    [ apply denotes_ref
    | eapply denotes_lit;
        first [ by rewrite lookup_fresh | by rewrite lookup_fresh_0 ]
    | eapply denotes_bin;
        [ first [ by rewrite lookup_fresh | by rewrite lookup_fresh_0 ] | | ] ].

(** C2.  What each operator's [backward] returns for an output gradient
    [g] and a node with the two inputs [a] and [b]: [AddOp] gives
    [[g, g]] and allocates nothing; [SubOp] gives [g] and a new node for
    [(-1) * g]; [MulOp] gives new nodes for [b * g] and [a * g]; [DivOp]
    gives new nodes for [g * (1 / b)] and [g * (((-1) * a) / (b * b))].
    One node per input, in the order of the inputs; what is built is
    built as nodes allocated after the existing ones, with no value
    computed. *)
Theorem backward_rules g node s n a b :
  heap s !! node = Some n → inputs n = [a; b] →
  let l := length (heap s) in
  backward AddOp g node s = (Ok [g; g], s) ∧
  (∃ s', backward SubOp g node s = (Ok [g; l + 1], s') ∧
     extends fresh_shape s s' ∧
     denotes (heap s') (l + 1) (Bin MulOp (Lit (s_int (-1))) (Ref g))) ∧
  (∃ s', backward MulOp g node s = (Ok [l; l + 1], s') ∧
     extends fresh_shape s s' ∧
     denotes (heap s') l (Bin MulOp (Ref b) (Ref g)) ∧
     denotes (heap s') (l + 1) (Bin MulOp (Ref a) (Ref g))) ∧
  (∃ s', backward DivOp g node s = (Ok [l + 2; l + 7], s') ∧
     extends fresh_shape s s' ∧
     denotes (heap s') (l + 2)
       (Bin MulOp (Ref g) (Bin DivOp (Lit (s_int 1)) (Ref b))) ∧
     denotes (heap s') (l + 7)
       (Bin MulOp (Ref g)
          (Bin DivOp (Bin MulOp (Lit (s_int (-1))) (Ref a))
                     (Bin MulOp (Ref b) (Ref b))))).
Proof.
  intros Hn Hi l. subst l. split_and!.
  - reflexivity.
  - eexists. split; [apply backward_SubOp_run|]. simpl. split.
    + apply extends_app.
      solve_fresh.
    + solve_denotes.
  - eexists. split; [by eapply backward_MulOp_run|]. simpl. split_and!.
    + apply extends_app.
      solve_fresh.
    + solve_denotes.
    + solve_denotes.
  - eexists. split; [by eapply backward_DivOp_run|]. simpl. split_and!.
    + apply extends_app.
      solve_fresh.
    + solve_denotes.
    + solve_denotes.
Qed.

(** ** The reverse walk *)

Lemma backward_two o g node s n a b :
  heap s !! node = Some n → inputs n = [a; b] →
  ∃ g0 g1 s', backward o g node s = (Ok [g0; g1], s') ∧
    extends fresh_shape s s'.
Proof.
  intros Hn Hi. destruct o.
  - exists g, g, s. split; [done|reflexivity].
  - do 3 eexists. split; [apply backward_SubOp_run|].
    apply extends_app. solve_fresh.
  - do 3 eexists. split; [by eapply backward_MulOp_run|].
    apply extends_app. solve_fresh.
  - do 3 eexists. split; [by eapply backward_DivOp_run|].
    apply extends_app. solve_fresh.
Qed.

Lemma accumulate_run (g : gmap nat nat) p s :
  ∃ r s', accumulate g p s = (Ok (<[p.1 := r]> g), s') ∧
    extends fresh_shape s s'.
Proof.
  unfold accumulate. destruct (g !! p.1) as [e|].
  - do 2 eexists. split; [reflexivity|].
    apply extends_app. solve_fresh.
  - exists p.2, s. split; [done|reflexivity].
Qed.

Lemma fold_accumulate l (g : gmap nat nat) s :
  ∃ g' s', foldM accumulate g l s = (Ok g', s') ∧
    extends fresh_shape s s' ∧
    dom g' = dom g ∪ list_to_set l.*1 ∧
    ∀ k, k ∉ l.*1 → g' !! k = g !! k.
Proof.
  revert g s. induction l as [|p l IH]; intros g s.
  - exists g, s. simpl. split_and!; [done|reflexivity|set_solver|done].
  - destruct (accumulate_run g p s) as (r & s1 & E1 & X1).
    destruct (IH (<[p.1 := r]> g) s1) as (g' & s' & E & X & D & K).
    exists g', s'. simpl. erewrite bind_ok by done.
    split_and!; [done|by etrans| |].
    + rewrite D, dom_insert_L. set_solver.
    + intros k Hk. apply not_elem_of_cons in Hk as [??].
      rewrite K by done. by rewrite lookup_insert_ne.
Qed.

Lemma propagate_leaf (g : gmap nat nat) x s n :
  heap s !! x = Some n → op n = None → propagate g x s = (Ok g, s).
Proof.
  intros Hn Ho. unfold propagate.
  erewrite bind_ok; [|unfold get_node; by rewrite Hn].
  by rewrite Ho.
Qed.

Lemma propagate_op (g : gmap nat nat) x s n a b :
  heap s !! x = Some n → is_Some (op n) → inputs n = [a; b] →
  is_Some (g !! x) →
  ∃ g' s', propagate g x s = (Ok g', s') ∧
    extends fresh_shape s s' ∧
    dom g' = dom g ∪ {[a; b]} ∧
    ∀ k, k ≠ a → k ≠ b → g' !! k = g !! k.
Proof.
  intros Hn [o Ho] Hi [og Hog]. unfold propagate.
  erewrite bind_ok; [|unfold get_node; by rewrite Hn].
  rewrite Ho. unfold grads_get. rewrite Hog.
  erewrite bind_ok by reflexivity.
  destruct (backward_two o og x s n a b Hn Hi) as (g0 & g1 & s1 & E1 & X1).
  erewrite bind_ok by done.
  erewrite bind_ok;
    [|unfold get_node; by erewrite extends_lookup].
  rewrite Hi. simpl zip.
  destruct (fold_accumulate [(a, g0); (b, g1)] g s1) as (g' & s' & E & X & D & K).
  exists g', s'. split_and!; [done|by etrans| |].
  - rewrite D. set_solver.
  - intros k ??. apply K. set_solver.
Qed.

Lemma walk_ok hb l :
  arity_ok hb → (∀ x, x ∈ l → is_Some (hb !! x)) →
  ∀ (g : gmap nat nat) s,
    (∀ a n, hb !! a = Some n → heap s !! a = Some n) →
    covered hb g l →
    ∃ g' s', foldM propagate g l s = (Ok g', s') ∧
      extends fresh_shape s s' ∧
      dom g ⊆ dom g' ∧
      (∀ c x, c ∈ l → has_op hb c → edge hb c x → x ∈ dom g') ∧
      (∀ k, (∀ c, c ∈ l → ¬ edge hb c k) → g' !! k = g !! k).
Proof.
  intros Har. induction l as [|x l IH]; intros Hin g s Hbase Hcov.
  { exists g, s. split_and!; [done|reflexivity|done| |done].
    by intros ?? ?%elem_of_nil. }
  destruct (Hin x) as [n Hn]; [left|].
  pose proof (Har _ _ Hn) as Hshape.
  destruct (op n) as [o|] eqn:Ho.
  - destruct (inputs n) as [|a [|b [|??]]] eqn:Hi; try done.
    assert (is_Some (g !! x)) as Hgx.
    { destruct (Hcov 0 x) as [Hx|(k & ? & ? & _)]; [done| |by apply elem_of_dom|lia].
      exists n. rewrite Ho. eauto. }
    destruct (propagate_op g x s n a b) as (g1 & s1 & E1 & X1 & D1 & K1);
      [by apply Hbase|by rewrite Ho|done|done|].
    destruct (IH (λ y Hy, Hin y (list_elem_of_further _ _ _ Hy)) g1 s1)
      as (g' & s' & E & X & D & C & K).
    { intros a' n' Hn'. eapply extends_lookup; [done|]. by apply Hbase. }
    { intros j y Hj Hy.
      destruct (Hcov (S j) y Hj Hy) as [Hd|(k & c & Hk & Hc & Hop & He)].
      - left. rewrite D1. set_solver.
      - destruct k as [|k].
        + injection Hc as <-. left. rewrite D1.
          destruct He as (n' & Hn' & Hy'). rewrite Hn in Hn'.
          injection Hn' as <-. rewrite Hi in Hy'. set_solver.
        + right. exists k, c. split_and!; [lia|done..]. }
    exists g', s'. simpl. erewrite bind_ok by done.
    split_and!; [done|by etrans| | |].
    + rewrite D1 in D. set_solver.
    + intros c y [->|Hc]%elem_of_cons Hop He; [|by eapply C].
      apply D. rewrite D1.
      destruct He as (n' & Hn' & Hy'). rewrite Hn in Hn'.
      injection Hn' as <-. rewrite Hi in Hy'. set_solver.
    + intros k Hk. rewrite K by (intros; apply Hk; by right).
      assert (¬ edge hb x k) as Hxk by (apply Hk; left).
      apply K1; intros ->; apply Hxk; exists n; rewrite Hi; set_solver.
  - destruct (IH (λ y Hy, Hin y (list_elem_of_further _ _ _ Hy)) g s)
      as (g' & s' & E & X & D & C & K).
    { done. }
    { intros j y Hj Hy.
      destruct (Hcov (S j) y Hj Hy) as [Hd|(k & c & Hk & Hc & Hop & He)].
      - by left.
      - destruct k as [|k].
        + injection Hc as <-. destruct Hop as (n' & Hn' & [o Ho']).
          rewrite Hn in Hn'. injection Hn' as <-. congruence.
        + right. exists k, c. split_and!; [lia|done..]. }
    exists g', s'. simpl. erewrite bind_ok by (by eapply propagate_leaf; [apply Hbase|]).
    split_and!; [done..| |].
    + intros c y [->|Hc]%elem_of_cons Hop He; [|by eapply C].
      destruct Hop as (n' & Hn' & [o Ho']).
      rewrite Hn in Hn'. injection Hn' as <-. congruence.
    + intros k Hk. apply K. intros; apply Hk; by right.
Qed.

Lemma edge_has_op h c x : arity_ok h → edge h c x → has_op h c.
Proof.
  intros Har (n & Hn & Hx). exists n. split; [done|].
  specialize (Har _ _ Hn). destruct (op n); [done|].
  rewrite Har in Hx. by apply elem_of_nil in Hx.
Qed.

(** After [build_topo], the reversed order meets the requirement of the
    walk: the output has its seed, and every other node is an input of a
    node appended after it. *)
Lemma reverse_topo_covered h out seed T :
  arity_ok h → NoDup T → (∀ x, x ∈ T ↔ reachable h out x) →
  inputs_first h T →
  covered h {[out := seed]} (reverse T).
Proof.
  intros Har Hnd Hreach Hif j x Hj _.
  apply reverse_lookup_Some in Hj as [Hj Hlen].
  assert (reachable h out x) as Hx by (by eapply Hreach, list_elem_of_lookup_2).
  apply rtc_inv_r in Hx as [<-|(c & Hc & He)].
  { left. rewrite dom_singleton_L. set_solver. }
  right. apply Hreach, list_elem_of_lookup_1 in Hc as [jc Hjc].
  destruct (Hif _ _ _ Hjc He) as (k & Hk & Hkx).
  assert (k = length T - S j) as -> by (by eapply NoDup_lookup).
  pose proof (lookup_lt_Some _ _ _ Hjc) as Hjclen.
  exists (length T - S jc), c. split_and!; [lia| |by eapply edge_has_op|done].
  apply reverse_lookup_Some. split; [|lia].
  rewrite <-Hjc. f_equal. lia.
Qed.

(** ** A leaf appended to the heap *)

Lemma edge_snoc_leaf h v a i :
  edge (h ++ [mkNode [] None (Some v)]) a i ↔ edge h a i.
Proof.
  split; intros (n & Hn & Hi).
  - apply lookup_app_Some in Hn as [Hn|[_ Hn]]; [by exists n|].
    apply list_lookup_singleton_Some in Hn as [_ <-].
    by apply elem_of_nil in Hi.
  - exists n. split; [by apply lookup_app_l_Some|done].
Qed.

Lemma reachable_snoc_leaf h v a b :
  reachable (h ++ [mkNode [] None (Some v)]) a b ↔ reachable h a b.
Proof.
  split; induction 1 as [|x y z He _ IH]; try reflexivity;
    (eapply rtc_l; [|exact IH]); by apply edge_snoc_leaf in He || apply edge_snoc_leaf.
Qed.

Lemma closed_snoc_leaf h v : closed h → closed (h ++ [mkNode [] None (Some v)]).
Proof.
  intros Hc a i He%edge_snoc_leaf. destruct (Hc _ _ He) as [n Hn].
  exists n. by apply lookup_app_l_Some.
Qed.

Lemma ranked_snoc_leaf h v rank :
  ranked h rank → ranked (h ++ [mkNode [] None (Some v)]) rank.
Proof. intros Hr a i He%edge_snoc_leaf. by apply Hr. Qed.

Lemma arity_ok_snoc_leaf h v :
  arity_ok h → arity_ok (h ++ [mkNode [] None (Some v)]).
Proof.
  intros Har a n Hn. apply lookup_app_Some in Hn as [Hn|[_ Hn]]; [by eapply Har|].
  by apply list_lookup_singleton_Some in Hn as [_ <-].
Qed.

(** ** The result list *)

Lemma grads_get_default_run (g : gmap nat nat) inp s :
  grads_get_default g inp s =
    (Ok (default (length (heap s)) (g !! inp)),
     mkState (heap s ++ [mkNode [] None (Some (s_int 0))]) (trace s)).
Proof. reflexivity. Qed.

Lemma mapM_grads_get_default (g : gmap nat nat) wrt s :
  ∃ gs s', mapM (grads_get_default g) wrt s = (Ok gs, s') ∧
    extends fresh_shape s s' ∧
    length gs = length wrt ∧
    ∀ i x r, wrt !! i = Some x → g !! x = Some r → gs !! i = Some r.
Proof.
  revert s. induction wrt as [|inp wrt IH]; intros s.
  - exists [], s. split_and!; [done|reflexivity|done|].
    intros ??? Hi. by rewrite lookup_nil in Hi.
  - destruct (IH (mkState (heap s ++ [mkNode [] None (Some (s_int 0))]) (trace s)))
      as (gs & s' & E & X & L & G).
    eexists (_ :: gs), s'. simpl.
    erewrite bind_ok by apply grads_get_default_run.
    erewrite bind_ok by exact E.
    split_and!; [done| |by rewrite L|].
    + etrans; [|exact X]. apply extends_app. solve_fresh.
    + intros [|i] x r Hi Hx; simpl in *; [|by eapply G].
      injection Hi as ->. by rewrite Hx.
Qed.

(** ** [gradients], run *)

Lemma inputs_first_snoc_leaf h v T :
  inputs_first (h ++ [mkNode [] None (Some v)]) T ↔ inputs_first h T.
Proof.
  split; intros Hif j x i Hj He; (eapply Hif; [done|]).
  - by apply edge_snoc_leaf.
  - by apply edge_snoc_leaf in He.
Qed.

Lemma covered_prefix h g l1 l2 : covered h g (l1 ++ l2) → covered h g l1.
Proof.
  intros Hcov j x Hj Hop.
  destruct (Hcov j x) as [?|(k & c & Hk & Hc & Hop' & He)];
    [by apply lookup_app_l_Some|done|by left|].
  right. exists k, c. split_and!; [done| |done..].
  rewrite lookup_app_l in Hc; [done|]. apply lookup_lt_Some in Hj. lia.
Qed.

(** The walk up to a node [x] of the list succeeds, and [x] then has its
    entry if it has an operator. *)
Lemma walk_prefix hb l1 x l2 (g : gmap nat nat) s :
  arity_ok hb → (∀ y, y ∈ l1 ++ x :: l2 → is_Some (hb !! y)) →
  (∀ a n, hb !! a = Some n → heap s !! a = Some n) →
  covered hb g (l1 ++ x :: l2) →
  ∃ g1 s1, foldM propagate g l1 s = (Ok g1, s1) ∧
    (has_op hb x → is_Some (g1 !! x)).
Proof.
  intros Har Hin Hbase Hcov.
  destruct (walk_ok hb l1 Har) with (g := g) (s := s)
    as (g1 & s1 & E & _ & D & C & _); [|done|by eapply covered_prefix|].
  { intros y Hy. apply Hin. set_solver. }
  exists g1, s1. split; [done|]. intros Hop. apply elem_of_dom.
  destruct (Hcov (length l1) x) as [?|(k & c & Hk & Hc & Hopc & He)];
    [by apply list_lookup_middle|done|set_solver|].
  rewrite lookup_app_l in Hc by done.
  eapply C; [by eapply list_elem_of_lookup_2|done..].
Qed.

Lemma gradients_run rank fuel out wrt s :
  closed (heap s) → ranked (heap s) rank → arity_ok (heap s) →
  is_Some (heap s !! out) → rank out < fuel →
  let seed := length (heap s) in
  let hb := heap s ++ [mkNode [] None (Some (s_int 1))] in
  ∃ V T g s2 gs s',
    build_topo hb fuel (∅, []) out = Ok (V, T) ∧
    covered hb {[out := seed]} (reverse T) ∧
    foldM propagate {[out := seed]} (reverse T) (mkState hb (trace s))
      = (Ok g, s2) ∧
    g !! out = Some seed ∧
    gradients fuel out wrt s = (Ok gs, s') ∧
    length gs = length wrt ∧
    (∀ i x r, wrt !! i = Some x → g !! x = Some r → gs !! i = Some r) ∧
    extends fresh_shape s s'.
Proof.
  intros Hc Hr Har [n Hn] Hf seed hb.
  assert (closed hb) as Hc' by (by apply closed_snoc_leaf).
  assert (ranked hb rank) as Hr' by (by apply ranked_snoc_leaf).
  assert (arity_ok hb) as Har' by (by apply arity_ok_snoc_leaf).
  assert (hb !! out = Some n) as Hn' by (by apply lookup_app_l_Some).
  destruct (build_topo_spec hb rank Hc' Hr' fuel out Hf)
    as (V & T & ET & Hnd & Hreach & Hif); [by eexists|].
  assert (covered hb {[out := seed]} (reverse T)) as Hcov
    by (by apply reverse_topo_covered).
  assert (∀ y, y ∈ reverse T → is_Some (hb !! y)) as Hin.
  { intros y Hy%elem_of_reverse%Hreach.
    apply rtc_inv_r in Hy as [<-|(c & _ & He)]; [by eexists|by eapply Hc']. }
  destruct (walk_ok hb (reverse T) Har' Hin {[out := seed]} (mkState hb (trace s)))
    as (g & s2 & EW & XW & _ & _ & K); [done..|].
  destruct (mapM_grads_get_default g wrt s2) as (gs & s' & EM & XM & L & G).
  exists V, T, g, s2, gs, s'. split_and!; [done..| | | | | ].
  - rewrite K; [apply lookup_singleton_eq|].
    intros c Hcin%elem_of_reverse%Hreach He.
    pose proof (reachable_rank _ _ _ _ Hr' Hcin).
    apply Hr' in He. lia.
  - unfold gradients, Leaf, Node_init.
    erewrite bind_ok by apply alloc_run.
    erewrite bind_ok by reflexivity. simpl.
    fold hb seed. unfold lift. erewrite bind_ok by (by rewrite ET).
    simpl. erewrite bind_ok by exact EW. done.
  - done.
  - done.
  - etrans; [|exact XM]. etrans; [|exact XW].
    apply extends_app. solve_fresh.
Qed.

(** C5.  In [gradients], on an acyclic heap: [build_topo] returns a
    [topo_order] that holds every node reachable from the output, once
    each, the inputs of a node before the node.  When moreover operator
    nodes have two inputs and the others none, the reverse walk gets as
    far as any node of the order without failing, that node has its entry
    in [grads] if it has an operator, and [gradients] returns a list. *)
Theorem topo_order_and_walk rank fuel out wrt s :
  closed (heap s) → ranked (heap s) rank →
  is_Some (heap s !! out) → rank out < fuel →
  let seed := length (heap s) in
  let hb := heap s ++ [mkNode [] None (Some (s_int 1))] in
  ∃ V T,
    build_topo hb fuel (∅, []) out = Ok (V, T) ∧
    NoDup T ∧
    (∀ x, x ∈ T ↔ reachable (heap s) out x) ∧
    inputs_first (heap s) T ∧
    (arity_ok (heap s) →
       (∀ l1 x l2, reverse T = l1 ++ x :: l2 →
          ∃ g1 s1,
            foldM propagate {[out := seed]} l1 (mkState hb (trace s))
              = (Ok g1, s1) ∧
            (has_op (heap s) x → is_Some (g1 !! x))) ∧
       ∃ gs s', gradients fuel out wrt s = (Ok gs, s') ∧
         length gs = length wrt).
Proof.
  intros Hc Hr [n Hn] Hf seed hb.
  assert (closed hb) as Hc' by (by apply closed_snoc_leaf).
  assert (ranked hb rank) as Hr' by (by apply ranked_snoc_leaf).
  assert (hb !! out = Some n) as Hn' by (by apply lookup_app_l_Some).
  destruct (build_topo_spec hb rank Hc' Hr' fuel out Hf)
    as (V & T & ET & Hnd & Hreach & Hif); [by eexists|].
  exists V, T. split_and!; [done..| | |].
  - intros x. rewrite Hreach. apply reachable_snoc_leaf.
  - by eapply inputs_first_snoc_leaf.
  - intros Har.
    destruct (gradients_run rank fuel out wrt s Hc Hr Har)
      as (V' & T' & g & s2 & gs & s' & ET' & Hcov & _ & _ & EG & L & _);
      [by eexists|done|].
    fold hb in ET'. rewrite ET in ET'. injection ET' as <- <-.
    split; [|by eauto].
    intros l1 x l2 Hsplit. fold seed hb in Hcov. rewrite Hsplit in Hcov.
    destruct (walk_prefix hb l1 x l2 {[out := seed]} (mkState hb (trace s)))
      as (g1 & s1 & E1 & Hx); [by apply arity_ok_snoc_leaf| |done..|].
    { intros y Hy. rewrite <-Hsplit in Hy.
      apply elem_of_reverse, Hreach in Hy.
      apply rtc_inv_r in Hy as [<-|(c & _ & He)]; [by eexists|by eapply Hc']. }
    exists g1, s1. split; [done|].
    intros (m & Hm & Hop). apply Hx. exists m.
    split; [by apply lookup_app_l_Some|done].
Qed.

(** C6.  Once [eval] has returned a value [v] for a node, then after any
    further calls of the interface (nodes constructed, nodes evaluated,
    gradients taken, whatever their outcome) the node's [value] is still
    [v], and a call of [eval] on it returns [v], leaves the heap as it
    is, and logs the call alone: no [forward] is run. *)
Theorem eval_memoised fuel self s v s1 :
  eval fuel self s = (Ok v, s1) →
  ∀ s2, rtc step s1 s2 →
    (∃ n, heap s2 !! self = Some n ∧ value n = Some v) ∧
    ∀ fuel', eval (S fuel') self s2 =
      (Ok v, mkState (heap s2) (trace s2 ++ [EvCall self])).
Proof.
  intros E s2 Hsteps.
  apply eval_ok_value in E as (n1 & Hn1 & Hv1).
  destruct (grows_value s1 s2 self n1 v) as (n2 & Hn2 & Hv2);
    [by apply steps_grows|done..|].
  split; [by eauto|]. intros fuel'. by eapply eval_cached.
Qed.

(** C10.  [gradients] only allocates: whatever its outcome, the heap it
    leaves is the heap it found followed by new nodes, each a leaf holding
    [1], [-1] or [0] or an operator node of two inputs without a value;
    every node that was there has the [inputs], [op] and [value] it had;
    and the log of [eval] is what it was, so nothing was evaluated. *)
Theorem gradients_only_allocates fuel out wrt s :
  let s' := (gradients fuel out wrt s).2 in
  (∃ new, heap s' = heap s ++ new ∧ Forall fresh_shape new) ∧
  (∀ a n, heap s !! a = Some n → heap s' !! a = Some n) ∧
  trace s' = trace s.
Proof.
  intros s'.
  assert (extends fresh_shape s s') as X.
  { eapply gradients_fresh. apply surjective_pairing. }
  split_and!.
  - destruct X as (new & ? & ? & _). eauto.
  - intros a n. by eapply extends_lookup.
  - by destruct X as (new & _ & _ & ?).
Qed.

(** ** Evaluating an operator node *)

Lemma eval_op_node fuel c s n a b o x y v s1 s2 :
  heap s !! c = Some n → value n = None → inputs n = [a; b] → op n = Some o →
  eval fuel a (mkState (heap s) (trace s ++ [EvCall c])) = (Ok x, s1) →
  eval fuel b s1 = (Ok y, s2) →
  forward o [x; y] = Ok v →
  eval (S fuel) c s =
    (Ok v,
     mkState (alter (λ n, mkNode (inputs n) (op n) (Some v)) c (heap s2))
             (trace s2 ++ [EvForward c])).
Proof.
  intros Hn Hv Hi Ho Ea Eb Ef. rewrite eval_unfold.
  erewrite bind_ok by reflexivity.
  erewrite bind_ok; [|unfold get_node; simpl; by rewrite Hn].
  rewrite Hv, Hi. simpl mapM.
  erewrite bind_ok.
  2:{ erewrite bind_ok by exact Ea. erewrite bind_ok; [reflexivity|].
      erewrite bind_ok by exact Eb. reflexivity. }
  assert (grows (mkState (heap s) (trace s ++ [EvCall c])) s2) as G.
  { etrans; [by eapply eval_evolves|by eapply eval_evolves]. }
  destruct (G c n Hn) as (n' & Hn' & _ & O & _).
  erewrite bind_ok; [|unfold get_node; by rewrite Hn'].
  rewrite O, Ho.
  erewrite bind_ok by reflexivity.
  erewrite bind_ok; [|unfold lift; by rewrite Ef].
  reflexivity.
Qed.

(** C3.  For leaves [a = Leaf(x)] and [b = Leaf(y)] made in any heap,
    [(a + b).eval()] is [x + y], [(a - b).eval()] is [x - y],
    [(a * b).eval()] is [x * y], and [(a / b).eval()] is [x / y] when [y]
    is not zero; any fuel from [2] on will do. *)
Theorem eval_binary_on_leaves x y s k :
  let run (build : addr → addr → M addr) :=
    ((a ← Leaf x; b ← Leaf y; c ← build a b; eval (2 + k) c) s).1 in
  run Node_add = Ok (s_add x y) ∧
  run Node_sub = Ok (s_sub x y) ∧
  run Node_mul = Ok (s_mul x y) ∧
  (s_is_zero y = false → run Node_truediv = Ok (s_div x y)).
Proof.
  assert (∀ o v, forward o [x; y] = Ok v →
    ((a ← Leaf x; b ← Leaf y; c ← op_call o a b; eval (2 + k) c) s).1 = Ok v)
    as Hrun.
  { intros o v Hf. unfold Leaf, op_call, Node_init.
    do 3 erewrite bind_ok by apply alloc_run.
    change (2 + k) with (S (S k)). cbn [heap trace].
    erewrite eval_op_node; [done| | | | | | |exact Hf].
    - simpl. by rewrite lookup_fresh_0.
    - done.
    - reflexivity.
    - done.
    - eapply (eval_cached _ _ _ (mkNode [] None (Some x))); [|reflexivity].
      simpl. rewrite <-!app_assoc. simpl. by rewrite lookup_fresh_0.
    - eapply (eval_cached _ _ _ (mkNode [] None (Some y))); [|reflexivity].
      simpl. rewrite <-app_assoc. simpl. rewrite length_app. simpl.
      rewrite <-app_assoc. by rewrite lookup_fresh. }
  intros run. unfold run, Node_add, Node_sub, Node_mul, Node_truediv.
  split_and!; try (by apply Hrun).
  intros Hy. apply Hrun. unfold forward. simpl. by rewrite Hy.
Qed.

(** C8, as the code has it.  [Node.__init__] checks nothing: it builds a
    node from any list of inputs and any operator.  The arity of an
    operator is that of its [__call__], which has two parameters: called
    with two nodes it builds the node of these two inputs, and called with
    any other number of arguments it raises, before its body runs and
    with the heap untouched.  The exception is Python's [TypeError]. *)
Theorem arity_is_that_of_call o s :
  (∀ ins o' v,
     Node_init ins o' v s =
       (Ok (length (heap s)),
        mkState (heap s ++ [mkNode ins o' v]) (trace s))) ∧
  (∀ a b,
     op_apply o [a; b] s =
       (Ok (length (heap s)),
        mkState (heap s ++ [mkNode [a; b] (Some o) None]) (trace s))) ∧
  (∀ args, length args ≠ 2 → op_apply o args s = (Err TypeError, s)).
Proof.
  split_and!; [done..|].
  intros [|a [|b [|c args]]] Hlen; simpl in *; done.
Qed.

(** ** Disconnected nodes *)

Lemma evolves_lookup_inv s s' a n' :
  evolves s s' → heap s' !! a = Some n' →
  ∃ n, heap s !! a = Some n ∧ memo n n'.
Proof.
  intros (L & G & _) Hn'.
  destruct (lookup_lt_is_Some_2 (heap s) a) as [n Hn].
  { rewrite <-L. by eapply lookup_lt_Some. }
  destruct (G _ _ Hn) as (n'' & Hn'' & Hm).
  exists n. split; [done|]. rewrite Hn' in Hn''. by injection Hn'' as <-.
Qed.

Lemma evolves_malformed s s' x :
  evolves s s' → malformed (heap s') x ↔ malformed (heap s) x.
Proof.
  intros Hev. split.
  - intros (n' & Hn' & Ho & Hv).
    destruct (evolves_lookup_inv _ _ _ _ Hev Hn') as (n & Hn & _ & O & V).
    exists n. split_and!; [done|congruence|].
    destruct V as [V|[V _]]; congruence.
  - intros (n & Hn & Ho & Hv). destruct Hev as (_ & G & _).
    destruct (G _ _ Hn) as (n' & Hn' & _ & O & V).
    exists n'. split_and!; [done|congruence|].
    destruct V as [V|[_ [o Ho']]]; congruence.
Qed.

Lemma evolves_edge s s' a i :
  evolves s s' → edge (heap s') a i ↔ edge (heap s) a i.
Proof.
  intros Hev. split.
  - intros (n' & Hn' & Hi).
    destruct (evolves_lookup_inv _ _ _ _ Hev Hn') as (n & Hn & I & _).
    exists n. split; [done|congruence].
  - intros (n & Hn & Hi). destruct Hev as (_ & G & _).
    destruct (G _ _ Hn) as (n' & Hn' & I & _).
    exists n'. split; [done|congruence].
Qed.

Lemma evolves_reachable s s' a b :
  evolves s s' → reachable (heap s') a b → reachable (heap s) a b.
Proof.
  intros Hev. induction 1 as [|x y z He _ IH]; [reflexivity|].
  eapply (rtc_l _ _ y); [|exact IH]. by apply (evolves_edge s s').
Qed.

Lemma evolves_leaf_inputs s s' :
  evolves s s' → leaf_inputs (heap s) → leaf_inputs (heap s').
Proof.
  intros Hev Hl a n' Hn' Ho.
  destruct (evolves_lookup_inv _ _ _ _ Hev Hn') as (n & Hn & I & O & _).
  rewrite I. eapply Hl; [done|congruence].
Qed.

Lemma forward_not_ValueError o vals : forward o vals ≠ Err ValueError.
Proof.
  unfold forward, index.
  destruct (vals !! 0); [|done]. simpl.
  destruct (vals !! 1); [|done]. simpl.
  destruct o; try done. by destruct (s_is_zero _).
Qed.

Lemma mapM_disconnected fuel l :
  (∀ a, disconnected_spec (λ b, b = a) (eval fuel a)) →
  disconnected_spec (λ b, b ∈ l) (mapM (eval fuel) l).
Proof.
  intros Hev. induction l as [|a l IH]; intros s r s' E.
  { inversion E; subst. exists []. rewrite app_nil_r.
    split_and!; [done|..]; try by intros ? ?%elem_of_nil.
    - done.
    - by intros ?? ?%elem_of_nil. }
  simpl in E. inv_bind E as y s1 E1.
  2:{ destruct (Hev a _ _ _ E) as (evs & T & C & V & W).
      exists evs. split_and!; [done| | |].
      - intros z Hz. destruct (C z Hz) as (? & -> & ?). exists a. split; [left|done].
      - intros [= ->]. by apply V.
      - intros Hl z Hz Hm. specialize (W Hl z Hz Hm). by injection W as ->. }
  pose proof (eval_evolves _ _ _ _ _ E1) as Hevo.
  destruct (Hev a _ _ _ E1) as (evs1 & T1 & C1 & V1 & W1).
  assert (∃ r2, mapM (eval fuel) l s1 = (r2, s') ∧
            (r = Err ValueError → r2 = Err ValueError) ∧
            (r2 = Err ValueError → r = Err ValueError))
    as (r2 & E2 & Hr12 & Hr21).
  { inv_bind E as ys s2 E2.
    - inversion E; subst. eexists. split; [done|]. split; intros [=].
    - eexists. split; [done|]. split; intros [=]; by subst. }
  destruct (IH _ _ _ E2) as (evs2 & T2 & C2 & V2 & W2).
  exists (evs1 ++ evs2). split_and!.
  - by rewrite T2, T1, <-app_assoc.
  - intros x [Hx|Hx]%elem_of_app.
    + destruct (C1 x Hx) as (? & -> & ?). exists a. split; [left|done].
    + destruct (C2 x Hx) as (b & Hb & Hr). exists b.
      split; [by right|by apply (evolves_reachable _ _ _ _ Hevo)].
  - intros Hr. destruct (V2 (Hr12 Hr)) as (x & Hx & Hm).
    exists x. split; [set_solver|by apply (evolves_malformed _ _ _ Hevo)].
  - intros Hl x [Hx|Hx]%elem_of_app Hm.
    + by specialize (W1 Hl x Hx Hm).
    + apply Hr21, (W2 (evolves_leaf_inputs _ _ Hevo Hl) x Hx).
      by apply (evolves_malformed _ _ _ Hevo).
Qed.

Lemma eval_disconnected_spec fuel a :
  disconnected_spec (λ b, b = a) (eval fuel a).
Proof.
  revert a. induction fuel as [|fuel IH]; intros a s r s' E.
  { inversion E; subst. exists []. rewrite app_nil_r.
    split_and!; [done|by intros ? ?%elem_of_nil|done|by intros ?? ?%elem_of_nil]. }
  rewrite eval_unfold in E.
  inv_bind E as u s0 E0; [apply emit_inv in E0 as [_ ->]|by apply emit_inv in E as [[=] _]].
  inv_bind E as n s1 E1.
  2:{ apply get_node_inv in E as [-> [(? & _ & [=])|[Hn [= ->]]]]. simpl in *.
      exists [EvCall a]. split_and!; [done| |done|].
      - intros x [= ->]%list_elem_of_singleton. exists a. split; [done|reflexivity].
      - intros _ x [= ->]%list_elem_of_singleton (n & Hn' & _). congruence. }
  apply get_node_inv in E1 as [-> [(? & Hn & [= <-])|[_ [=]]]]. simpl in Hn.
  destruct (value n) as [v|] eqn:Hv.
  { inversion E; subst. simpl. exists [EvCall a]. split_and!; [done| |done|].
    - intros x [= ->]%list_elem_of_singleton. exists a. split; [done|reflexivity].
    - intros _ x [= ->]%list_elem_of_singleton (n' & Hn' & _ & Hv').
      rewrite Hn in Hn'. injection Hn' as <-. congruence. }
  assert (∀ x evs1,
    (∀ x, EvCall x ∈ evs1 → ∃ i, i ∈ inputs n ∧ reachable (heap s) i x) →
    EvCall x ∈ EvCall a :: evs1 → ∃ b, b = a ∧ reachable (heap s) b x) as Hcalls.
  { intros x evs1 C [[= ->]|Hx]%elem_of_cons.
    - exists a. split; [done|reflexivity].
    - destruct (C x Hx) as (i & Hi & Hr). exists a. split; [done|].
      eapply (rtc_l _ _ i); [|exact Hr]. by exists n. }
  inv_bind E as vals s1 E1.
  2:{ destruct (mapM_disconnected fuel (inputs n) IH _ _ _ E)
        as (evs1 & T1 & C1 & V1 & W1). simpl in *.
      exists (EvCall a :: evs1). split_and!.
      - by rewrite T1, <-app_assoc.
      - intros x. by apply Hcalls.
      - intros [= ->]. destruct (V1 eq_refl) as (x & ? & ?).
        exists x. split; [by right|done].
      - intros Hl x [[= ->]|Hx]%elem_of_cons Hm.
        + destruct Hm as (n' & Hn' & Ho' & _). rewrite Hn in Hn'.
          injection Hn' as <-. rewrite (Hl _ _ Hn Ho') in E. by inversion E.
        + specialize (W1 Hl x Hx Hm). by injection W1 as ->. }
  destruct (mapM_disconnected fuel (inputs n) IH _ _ _ E1)
    as (evs1 & T1 & C1 & V1 & W1). simpl in *.
  assert (evolves (mkState (heap s) (trace s ++ [EvCall a])) s1) as Hevo.
  { eapply (preserves_mapM _); [|exact E1]. intros; apply eval_evolves. }
  destruct Hevo as (_ & G & _). destruct (G _ _ Hn) as (n' & Hn' & _ & O & _).
  inv_bind E as n'' s2 E2.
  2:{ apply get_node_inv in E as [_ [(? & _ & [=])|[? _]]]. congruence. }
  apply get_node_inv in E2 as [-> [(? & Hn'' & [= <-])|[_ [=]]]].
  rewrite Hn' in Hn''. injection Hn'' as <-.
  destruct (op n') as [o|] eqn:Ho.
  - (* an operator: the outcome is that of [forward] *)
    assert (r ≠ Err ValueError ∧ ∃ evs2, trace s' = trace s1 ++ evs2 ∧
              ∀ x, EvCall x ∉ evs2) as (Hr & evs2 & T2 & C2).
    { inv_bind E as u' s3 E3;
        [apply emit_inv in E3 as [_ ->]|by apply emit_inv in E as [[=] _]].
      assert (∀ x, EvCall x ∉ [EvForward a]) as Hno.
      { by intros x [=]%list_elem_of_singleton. }
      inv_bind E as v s4 E4.
      2:{ inversion E; subst. split; [apply forward_not_ValueError|]. eauto. }
      inversion E4; subst.
      inv_bind E as u'' s5 E5; [|inversion E].
      inversion E5; subst. inversion E; subst. split; [done|]. simpl. eauto. }
    exists (EvCall a :: evs1 ++ evs2). split_and!.
    + rewrite T2, T1, <-!app_assoc. done.
    + intros x Hx. apply (Hcalls x evs1 C1).
      apply elem_of_cons in Hx as [Hx|[Hx|Hx]%elem_of_app];
        [rewrite Hx; left|by right|by apply C2 in Hx].
    + done.
    + intros Hl x Hx Hm.
      apply elem_of_cons in Hx as [[= ->]|[Hx|Hx]%elem_of_app].
      * destruct Hm as (m & Hm & Hom & _). rewrite Hn in Hm.
        injection Hm as <-. congruence.
      * by specialize (W1 Hl x Hx Hm).
      * by apply C2 in Hx.
  - (* no operator *)
    inversion E; subst. exists (EvCall a :: evs1). split_and!.
    + by rewrite T1, <-app_assoc.
    + intros x. by apply Hcalls.
    + intros _. exists a. split; [left|]. exists n. split_and!; [done|congruence|done].
    + done.
Qed.


(** ** Heaps in construction order *)

Lemma checkb_lookup f a h k n :
  checkb f a h = true → h !! k = Some n → f (a + k) n = true.
Proof.
  revert a k. induction h as [|m h IH]; intros a k Hwf Hk; [done|].
  simpl in Hwf. apply andb_prop in Hwf as [Hm Hh].
  destruct k as [|k]; simpl in Hk.
  - injection Hk as <-. by rewrite Nat.add_0_r.
  - replace (a + S k) with (S a + k) by lia. by eapply IH.
Qed.

Lemma checkb_snoc f a h n :
  checkb f a (h ++ [n]) = checkb f a h && f (a + length h) n.
Proof.
  revert a. induction h as [|m h IH]; intros a; simpl.
  - by rewrite Nat.add_0_r, andb_true_r.
  - rewrite IH, andb_assoc. do 2 f_equal. lia.
Qed.

Lemma orderedb_spec h : orderedb h = true → closed h ∧ ranked h id.
Proof.
  intros Hwf.
  assert (∀ a i, edge h a i → i < a) as Hlt.
  { intros a i (n & Hn & Hi).
    pose proof (checkb_lookup _ 0 h a n Hwf Hn) as Hall. simpl in Hall.
    rewrite forallb_forall in Hall.
    apply Nat.ltb_lt, Hall, list_elem_of_In, Hi. }
  split.
  - intros a i He. pose proof (Hlt _ _ He) as Hia.
    destruct He as (n & Hn & _). apply lookup_lt_Some in Hn.
    apply lookup_lt_is_Some_2. lia.
  - intros a i He. by apply Hlt.
Qed.

Lemma arity_okb_spec h : arity_okb h = true → arity_ok h.
Proof.
  intros Hwf a n Hn.
  pose proof (checkb_lookup _ 0 h a n Hwf Hn) as Hshape. simpl in Hshape.
  destruct (op n).
  - by apply Nat.eqb_eq.
  - apply Nat.eqb_eq in Hshape. by destruct (inputs n).
Qed.

(** Leaves and operator applications on existing nodes keep both. *)
Lemma Leaf_keeps_order v s :
  orderedb (heap s) = true → arity_okb (heap s) = true →
  orderedb (heap (Leaf v s).2) = true ∧ arity_okb (heap (Leaf v s).2) = true.
Proof.
  intros Ho Ha. simpl. unfold orderedb, arity_okb in *.
  rewrite !checkb_snoc, Ho, Ha. done.
Qed.

Lemma op_call_keeps_order o a b s :
  a < length (heap s) → b < length (heap s) →
  orderedb (heap s) = true → arity_okb (heap s) = true →
  orderedb (heap (op_call o a b s).2) = true ∧
  arity_okb (heap (op_call o a b s).2) = true.
Proof.
  intros Hlta Hltb Ho Ha. simpl. unfold orderedb, arity_okb in *.
  rewrite !checkb_snoc, Ho, Ha. simpl.
  apply Nat.ltb_lt in Hlta, Hltb. by rewrite Hlta, Hltb.
Qed.

(** ** What the walk leaves alone *)

Lemma propagate_frame (g : gmap nat nat) x s n g' s' k :
  heap s !! x = Some n → k ∉ inputs n →
  propagate g x s = (Ok g', s') → g' !! k = g !! k.
Proof.
  intros Hn Hk E. unfold propagate in E.
  erewrite bind_ok in E; [|unfold get_node; by rewrite Hn].
  destruct (op n) as [o|]; [|by inversion E].
  inv_bind E as og s1 E1.
  assert (s1 = s) as ->.
  { unfold grads_get in E1. destruct (g !! x); by inversion E1. }
  clear E1. inv_bind E as igs s1 E1.
  pose proof (backward_fresh _ _ _ _ _ _ E1) as X.
  erewrite bind_ok in E; [|unfold get_node; by erewrite extends_lookup].
  destruct (fold_accumulate (zip (inputs n) igs) g s1) as (g2 & s2 & E2 & _ & _ & K).
  rewrite E2 in E. injection E as <- <-. apply K.
  intros ((i & ig) & -> & Hin)%list_elem_of_fmap.
  by apply elem_of_zip_l in Hin.
Qed.

Lemma walk_frame hb l (g : gmap nat nat) s g' s' k :
  (∀ a n, hb !! a = Some n → heap s !! a = Some n) →
  (∀ x, x ∈ l → is_Some (hb !! x)) →
  (∀ c, c ∈ l → ¬ edge hb c k) →
  foldM propagate g l s = (Ok g', s') → g' !! k = g !! k.
Proof.
  revert g s. induction l as [|x l IH]; intros g s Hbase Hin Hk E.
  { by inversion E. }
  simpl in E. inv_bind E as g1 s1 E1.
  destruct (Hin x) as [n Hn]; [left|].
  rewrite (IH g1 s1); [| | | |exact E].
  - eapply propagate_frame; [by apply Hbase| |done].
    intros Hkin. apply (Hk x); [left|]. by exists n.
  - intros a m Hm. eapply extends_lookup; [by eapply propagate_fresh|].
    by apply Hbase.
  - intros; apply Hin. by right.
  - intros; apply Hk. by right.
Qed.

(** C7.  On an acyclic heap, whenever [gradients] returns, it returns a
    list as long as [wrt], and at every position of [wrt] that holds the
    output node itself it returns the seed: the leaf
    [Node([], None, value=1)] made first, whose [eval] is [1].  No step of
    the walk writes the output's entry, because the output is an input of
    no node reachable from it.  And [gradients] does return when operator
    nodes have two inputs and the others none. *)
Theorem output_gradient_is_one rank fuel out wrt s :
  closed (heap s) → ranked (heap s) rank →
  is_Some (heap s !! out) → rank out < fuel →
  (arity_ok (heap s) → ∃ gs s', gradients fuel out wrt s = (Ok gs, s')) ∧
  ∀ gs s', gradients fuel out wrt s = (Ok gs, s') →
    length gs = length wrt ∧
    ∀ i, wrt !! i = Some out →
      ∃ g, gs !! i = Some g ∧
        g = length (heap s) ∧
        heap s' !! g = Some (mkNode [] None (Some (s_int 1))) ∧
        ∀ fuel', (eval (S fuel') g s').1 = Ok (s_int 1).
Proof.
  intros Hc Hr [n Hn] Hf. split.
  { intros Har.
    destruct (gradients_run rank fuel out wrt s Hc Hr Har)
      as (_ & _ & _ & _ & gs & s' & _ & _ & _ & _ & EG & _); [by eexists|done|].
    eauto. }
  intros gs s' EG.
  set (seed := length (heap s)).
  set (hb := heap s ++ [mkNode [] None (Some (s_int 1))]).
  assert (closed hb) as Hc' by (by apply closed_snoc_leaf).
  assert (ranked hb rank) as Hr' by (by apply ranked_snoc_leaf).
  assert (hb !! out = Some n) as Hn' by (by apply lookup_app_l_Some).
  destruct (build_topo_spec hb rank Hc' Hr' fuel out Hf)
    as (V & T & ET & Hnd & Hreach & Hif); [by eexists|].
  unfold gradients, Leaf, Node_init in EG.
  erewrite bind_ok in EG by apply alloc_run.
  erewrite bind_ok in EG by reflexivity. cbn [heap trace] in EG.
  fold hb seed in EG. unfold lift in EG.
  erewrite bind_ok in EG by (by rewrite ET).
  inv_bind EG as g s2 EW. cbn [snd] in EW.
  assert (g !! out = Some seed) as Hseed.
  { rewrite (walk_frame hb (reverse T) {[out := seed]}
               (mkState hb (trace s)) g s2 out);
      [apply lookup_singleton_eq|done| | |exact EW].
    - intros y Hy%elem_of_reverse%Hreach.
      apply rtc_inv_r in Hy as [<-|(c & _ & He)]; [by eexists|by eapply Hc'].
    - intros c Hcin%elem_of_reverse%Hreach He.
      pose proof (reachable_rank _ _ _ _ Hr' Hcin).
      apply Hr' in He. lia. }
  destruct (mapM_grads_get_default g wrt s2) as (gs' & s'' & EM & XM & L & G).
  rewrite EM in EG. injection EG as <- <-.
  split; [done|]. intros i Hi. exists seed.
  assert (heap s'' !! seed = Some (mkNode [] None (Some (s_int 1)))) as Hleaf.
  { eapply extends_lookup; [exact XM|].
    eapply extends_lookup.
    - eapply (preserves_foldM (extends fresh_shape)); [|exact EW].
      intros; apply propagate_fresh.
    - simpl. unfold hb, seed. by rewrite lookup_fresh_0. }
  split_and!; [by eapply G|done|done|].
  intros fuel'. by erewrite eval_cached.
Qed.

(** ** The diamond, run *)

Lemma diamond_shared_run k x y s :
  heap s = [] →
  (diamond_shared (5 + k) x y s).1 =
    Ok (s_add (s_mul (s_add x y) (s_int 1)) (s_mul (s_add x y) (s_int 1))).
Proof. destruct s as [h t]. simpl. intros ->. vm_compute. reflexivity. Qed.

Lemma diamond_expr_run k x y s :
  heap s = [] →
  (diamond_expr (5 + k) x y s).1 =
    Ok (s_add (s_mul (s_add x y) (s_int 1)) (s_mul (s_add x y) (s_int 1))).
Proof. destruct s as [h t]. simpl. intros ->. vm_compute. reflexivity. Qed.

(** ** Accumulation at a shared node *)

Lemma accumulate_existing (g : gmap nat nat) x g1 g2 s :
  g !! x = Some g1 →
  accumulate g (x, g2) s =
    (Ok (<[x := length (heap s)]> g),
     mkState (heap s ++ [mkNode [g1; g2] (Some AddOp) None]) (trace s)).
Proof. intros Hx. unfold accumulate. simpl. by rewrite Hx. Qed.

(** * Further properties *)

Lemma bind_err {A B} (m : M A) (k : A → M B) s e s1 :
  m s = (Err e, s1) → (m ≫= k) s = (Err e, s1).
Proof. unfold mbind, M_bind. by intros ->. Qed.

Tactic Notation "inv_bind'" hyp(E) "as" ident(x) ident(s1) ident(E1) :=
  let Hr := fresh in
  let err := fresh "err" in
  apply bind_inv in E as [(x & s1 & E1 & E)|(err & E & Hr)];
  [|first [discriminate Hr | injection Hr as <-
          | try rewrite Hr in *; clear Hr]].

(** ** What [eval] touches *)

Lemma mapM_eval_untouched fuel l b :
  (∀ a s, ¬ reachable (heap s) a b →
     heap (eval fuel a s).2 !! b = heap s !! b) →
  ∀ s, (∀ i, i ∈ l → ¬ reachable (heap s) i b) →
    heap (mapM (eval fuel) l s).2 !! b = heap s !! b.
Proof.
  intros Hev. induction l as [|a l IH]; intros s Hl; [done|].
  simpl. destruct (eval fuel a s) as [[y|e] s1] eqn:E1.
  - erewrite bind_ok by exact E1.
    assert (heap s1 !! b = heap s !! b) as H1.
    { specialize (Hev a s). rewrite E1 in Hev. apply Hev, Hl. left. }
    assert (heap (mapM (eval fuel) l s1).2 !! b = heap s1 !! b) as H2.
    { apply IH. intros i Hi Hr. apply (Hl i); [by right|].
      eapply evolves_reachable; [|exact Hr]. by eapply eval_evolves. }
    destruct (mapM (eval fuel) l s1) as [[ys|e] s2] eqn:E2.
    + erewrite bind_ok by exact E2. simpl in *. congruence.
    + erewrite bind_err by exact E2. simpl in *. congruence.
  - erewrite bind_err by exact E1. simpl.
    specialize (Hev a s). rewrite E1 in Hev. apply Hev, Hl. left.
Qed.

Lemma eval_untouched fuel a s b :
  ¬ reachable (heap s) a b → heap (eval fuel a s).2 !! b = heap s !! b.
Proof.
  revert a s. induction fuel as [|fuel IH]; intros a s Hb; [done|].
  destruct (eval (S fuel) a s) as [r s'] eqn:E. simpl.
  rewrite eval_unfold in E.
  inv_bind' E as u s0 E0; [apply emit_inv in E0 as [_ ->]|by apply emit_inv in E as [[=] _]].
  inv_bind' E as n s1 E1.
  2:{ by apply get_node_inv in E as [-> _]. }
  apply get_node_inv in E1 as [-> [(? & Hn & [= <-])|[_ [=]]]]. simpl in Hn.
  destruct (value n) as [v|] eqn:Hv; [by inversion E; subst|].
  assert (∀ s1, heap s1 = heap s →
    heap (mapM (eval fuel) (inputs n) s1).2 !! b = heap s !! b) as Hin.
  { intros s1 Hs1. rewrite <-Hs1.
    apply mapM_eval_untouched; [exact (λ a s, IH a s)|].
    rewrite Hs1. intros i Hi Hr. apply Hb.
    eapply (rtc_l _ _ i); [|exact Hr]. by exists n. }
  specialize (Hin (mkState (heap s) (trace s ++ [EvCall a])) eq_refl).
  inv_bind' E as vals s1 E1; [|by rewrite E in Hin].
  rewrite E1 in Hin. simpl in Hin.
  inv_bind' E as n' s2 E2; [|by apply get_node_inv in E as [-> _]].
  apply get_node_inv in E2 as [-> _].
  destruct (op n') as [o|]; [|by inversion E; subst].
  inv_bind' E as u' s3 E3; [apply emit_inv in E3 as [_ ->]|by apply emit_inv in E as [[=] _]].
  inv_bind' E as v s4 E4; [|by inversion E; subst].
  inversion E4; subst.
  inv_bind' E as u'' s5 E5; [|inversion E].
  inversion E5; subst. inversion E; subst. simpl.
  rewrite list_lookup_alter_ne; [done|].
  intros <-. by apply Hb.
Qed.

(** X1.  Whatever its outcome, [eval] leaves the heap its size, leaves
    every node its [inputs] and [op], changes no [value] that is present
    and gives none to a node without operator; and every node that is not
    reachable from the node it is called on is left exactly as it was. *)
Theorem eval_frame fuel self s :
  let s' := (eval fuel self s).2 in
  length (heap s') = length (heap s) ∧
  (∀ b n, heap s !! b = Some n →
     ∃ n', heap s' !! b = Some n' ∧ inputs n' = inputs n ∧ op n' = op n ∧
       (value n' = value n ∨ (value n = None ∧ is_Some (op n)))) ∧
  (∀ b, ¬ reachable (heap s) self b → heap s' !! b = heap s !! b).
Proof.
  intros s'.
  assert (evolves s s') as (L & G & _).
  { eapply eval_evolves. apply surjective_pairing. }
  split_and!; [done| |].
  - intros b n Hn. destruct (G b n Hn) as (n' & Hn' & I & O & V). eauto.
  - intros b Hb. by apply eval_untouched.
Qed.

(** X2.  On an acyclic heap, an [eval] that raises leaves the node it was
    called on exactly as it was, without a value: [value] is written last,
    after [forward] has returned, and the evaluation of the inputs, which
    may have cached theirs, does not come back to the node. *)
Theorem eval_failure_leaves_self rank fuel self s e s' :
  ranked (heap s) rank →
  eval fuel self s = (Err e, s') →
  heap s' !! self = heap s !! self.
Proof.
  intros Hr E. destruct fuel as [|fuel]; [by inversion E|].
  rewrite eval_unfold in E.
  inv_bind' E as u s0 E0; [apply emit_inv in E0 as [_ ->]|by apply emit_inv in E as [[=] _]].
  inv_bind' E as n s1 E1.
  2:{ by apply get_node_inv in E as [-> _]. }
  apply get_node_inv in E1 as [-> [(? & Hn & [= <-])|[_ [=]]]]. simpl in Hn.
  destruct (value n) as [v|] eqn:Hv; [by inversion E|].
  assert (heap (mapM (eval fuel) (inputs n)
                  (mkState (heap s) (trace s ++ [EvCall self]))).2 !! self
          = heap s !! self) as Hin.
  { apply (mapM_eval_untouched fuel (inputs n) self
             (λ a s, eval_untouched fuel a s self)
             (mkState (heap s) (trace s ++ [EvCall self]))).
    simpl. intros i Hi Hreach.
    pose proof (reachable_rank _ _ _ _ Hr Hreach).
    assert (rank i < rank self); [|lia]. apply Hr. by exists n. }
  inv_bind' E as vals s1 E1; [|by rewrite E in Hin].
  rewrite E1 in Hin. simpl in Hin.
  inv_bind' E as n' s2 E2; [|by apply get_node_inv in E as [-> _]].
  apply get_node_inv in E2 as [-> _].
  destruct (op n') as [o|]; [|by inversion E; subst].
  inv_bind' E as u' s3 E3; [apply emit_inv in E3 as [_ ->]|by apply emit_inv in E as [[=] _]].
  inv_bind' E as v s4 E4; [|by inversion E; subst].
  inversion E4; subst.
  inv_bind' E as u'' s5 E5; [|inversion E].
  inversion E5; subst. inversion E.
Qed.

(** ** The outcomes of [eval] *)

Lemma evolves_closed s s' : evolves s s' → closed (heap s) → closed (heap s').
Proof.
  intros Hev Hc a i He. apply (evolves_edge s s') in He; [|done].
  destruct (Hc _ _ He) as [n Hn]. destruct Hev as (_ & G & _).
  destruct (G _ _ Hn) as (n' & Hn' & _). by exists n'.
Qed.

Lemma evolves_ranked s s' rank :
  evolves s s' → ranked (heap s) rank → ranked (heap s') rank.
Proof. intros Hev Hr a i He. apply Hr. by apply (evolves_edge s s'). Qed.

Lemma evolves_arity_ok s s' :
  evolves s s' → arity_ok (heap s) → arity_ok (heap s').
Proof.
  intros Hev Har a n' Hn'.
  destruct (evolves_lookup_inv _ _ _ _ Hev Hn') as (n & Hn & I & O & _).
  rewrite I, O. by eapply Har.
Qed.

Lemma evolves_is_Some s s' a :
  evolves s s' → is_Some (heap s !! a) → is_Some (heap s' !! a).
Proof.
  intros (_ & G & _) [n Hn]. destruct (G _ _ Hn) as (n' & Hn' & _). by exists n'.
Qed.

Lemma mapM_length {A B} (f : A → M B) l s ys s' :
  mapM f l s = (Ok ys, s') → length ys = length l.
Proof.
  revert s ys. induction l as [|x l IH]; intros s ys E.
  { by inversion E. }
  simpl in E. inv_bind' E as y s1 E1. inv_bind' E as ys' s2 E2.
  inversion E; subst. simpl. f_equal. by eapply IH.
Qed.

Lemma forward_errors o vals e :
  forward o vals = Err e →
  (e = IndexError ∨ e = ZeroDivisionError) ∧ (length vals = 2 → e ≠ IndexError).
Proof.
  unfold forward, index.
  destruct vals as [|x [|y vals]]; simpl; try (intros [= <-]; split; [by left|done]).
  destruct o; try done.
  destruct (s_is_zero y); [|done]. intros [= <-]. split; [by right|done].
Qed.

Lemma mapM_eval_errors rank fuel l :
  (∀ a s e s', closed (heap s) → ranked (heap s) rank → rank a < fuel →
     is_Some (heap s !! a) → eval fuel a s = (Err e, s') → eval_raises s e) →
  ∀ s e s', closed (heap s) → ranked (heap s) rank →
    (∀ i, i ∈ l → rank i < fuel ∧ is_Some (heap s !! i)) →
    mapM (eval fuel) l s = (Err e, s') → eval_raises s e.
Proof.
  intros Hev. induction l as [|a l IH]; intros s e s' Hc Hr Hl E.
  { inversion E. }
  simpl in E. destruct (Hl a) as [Hf Ha]; [left|].
  inv_bind' E as y s1 E1; [|by eapply Hev].
  pose proof (eval_evolves _ _ _ _ _ E1) as Hevo.
  inv_bind' E as ys s2 E2; [inversion E|].
  destruct (IH s1 e s') as [He Har]; [by eapply evolves_closed|by eapply evolves_ranked| |done|].
  { intros i Hi. destruct (Hl i) as [? ?]; [by right|].
    split; [done|by eapply evolves_is_Some]. }
  split; [done|]. intros Hok. apply Har. by eapply evolves_arity_ok.
Qed.

Lemma eval_errors rank fuel a s e s' :
  closed (heap s) → ranked (heap s) rank → rank a < fuel →
  is_Some (heap s !! a) → eval fuel a s = (Err e, s') → eval_raises s e.
Proof.
  revert a s e s'. induction fuel as [|fuel IH];
    intros a s e s' Hc Hr Hf [n Hn] E; [lia|].
  rewrite eval_unfold in E.
  inv_bind' E as u s0 E0; [apply emit_inv in E0 as [_ ->]|by apply emit_inv in E as [[=] _]].
  inv_bind' E as n0 s1 E1.
  2:{ apply get_node_inv in E as [_ [(? & _ & [=])|[Hnone _]]]. simpl in Hnone. congruence. }
  apply get_node_inv in E1 as [-> [(? & Hn0 & [= <-])|[_ [=]]]]. simpl in Hn0.
  rewrite Hn in Hn0. injection Hn0 as <-.
  destruct (value n) as [v|] eqn:Hv; [inversion E|].
  assert (∀ i, i ∈ inputs n → rank i < fuel ∧ is_Some (heap s !! i)) as Hin.
  { intros i Hi. assert (edge (heap s) a i) as He by (by exists n).
    split; [apply Hr in He; lia|by eapply Hc]. }
  inv_bind' E as vals s1 E1.
  2:{ by apply (mapM_eval_errors rank fuel (inputs n) IH
              (mkState (heap s) (trace s ++ [EvCall a])) e s'). }
  assert (evolves (mkState (heap s) (trace s ++ [EvCall a])) s1) as Hevo.
  { eapply (preserves_mapM _); [|exact E1]. intros; apply eval_evolves. }
  destruct Hevo as (_ & G & _). destruct (G _ _ Hn) as (n' & Hn' & I & O & _).
  inv_bind' E as n'' s2 E2.
  2:{ apply get_node_inv in E as [_ [(? & _ & [=])|[Hnone _]]]. congruence. }
  apply get_node_inv in E2 as [-> [(? & Hn'' & [= <-])|[_ [=]]]].
  rewrite Hn' in Hn''. injection Hn'' as <-.
  destruct (op n') as [o|] eqn:Ho.
  2:{ inversion E; subst. split; [by left|done]. }
  inv_bind' E as u' s3 E3; [apply emit_inv in E3 as [_ ->]|by apply emit_inv in E as [[=] _]].
  inv_bind' E as v s4 E4.
  2:{ injection E as Ef _. apply forward_errors in Ef as [He Hlen].
      split; [tauto|]. intros Har. apply Hlen.
      rewrite (mapM_length _ _ _ _ _ E1).
      specialize (Har _ _ Hn). rewrite <-O in Har. done. }
  inv_bind' E as u'' s5 E5; [inversion E|inversion E].
Qed.

(** X3.  On a closed acyclic heap, with fuel above the rank of the node,
    [eval] returns a value or raises one of [ValueError], [IndexError] and
    [ZeroDivisionError]: the recursion ends.  [IndexError] needs an
    operator node that has not two inputs, and [ValueError] a reachable
    node with neither operator nor value; so on a heap built by leaves and
    operators, all that [eval] can raise is [ZeroDivisionError]. *)
Theorem eval_outcomes rank fuel self s :
  closed (heap s) → ranked (heap s) rank → rank self < fuel →
  is_Some (heap s !! self) →
  ∀ e, (eval fuel self s).1 = Err e →
    (e = ValueError ∨ e = IndexError ∨ e = ZeroDivisionError) ∧
    (arity_ok (heap s) → e ≠ IndexError) ∧
    ((∀ x, reachable (heap s) self x → ¬ malformed (heap s) x) →
       e ≠ ValueError).
Proof.
  intros Hc Hr Hf Hself e E.
  destruct (eval fuel self s) as [r s'] eqn:Ev. simpl in E. subst r.
  destruct (eval_errors rank fuel self s e s' Hc Hr Hf Hself Ev) as [He Har].
  split_and!; [done..|].
  intros Hwf ->.
  destruct (eval_disconnected_spec fuel self s _ s' Ev) as (evs & _ & C & V & _).
  destruct (V eq_refl) as (x & Hx & Hm).
  destruct (C x Hx) as (? & -> & Hreach). by eapply Hwf.
Qed.

(** ** Operator nodes of fewer or more than two inputs *)

Lemma eval_run fuel a s n o vals s1 :
  heap s !! a = Some n → value n = None → op n = Some o →
  mapM (eval fuel) (inputs n) (mkState (heap s) (trace s ++ [EvCall a]))
    = (Ok vals, s1) →
  eval (S fuel) a s =
    match forward o vals with
    | Ok v =>
        (Ok v,
         mkState (alter (λ n, mkNode (inputs n) (op n) (Some v)) a (heap s1))
                 (trace s1 ++ [EvForward a]))
    | Err e => (Err e, mkState (heap s1) (trace s1 ++ [EvForward a]))
    end.
Proof.
  intros Hn Hv Ho E1. rewrite eval_unfold.
  erewrite bind_ok by reflexivity.
  erewrite bind_ok; [|unfold get_node; simpl; by rewrite Hn].
  rewrite Hv. erewrite bind_ok by exact E1.
  assert (grows (mkState (heap s) (trace s ++ [EvCall a])) s1) as G.
  { eapply (preserves_mapM evolves); [|exact E1]. intros; apply eval_evolves. }
  destruct (G a n Hn) as (n' & Hn' & _ & O & _).
  erewrite bind_ok; [|unfold get_node; by rewrite Hn'].
  rewrite O, Ho. erewrite bind_ok by reflexivity.
  unfold lift. destruct (forward o vals) as [v|e] eqn:Ef.
  - erewrite bind_ok by reflexivity. reflexivity.
  - erewrite bind_err by reflexivity. reflexivity.
Qed.

(** X4.  An operator node whose inputs all evaluate: with fewer than two
    inputs [eval] raises [IndexError], after the inputs were evaluated and
    cached, and stores nothing on the node; with more than two, all
    inputs are evaluated and the result is that of [forward] on the first
    two values, the others being ignored. *)
Theorem eval_arity_edges fuel self s n o vals s1 :
  heap s !! self = Some n → value n = None → op n = Some o →
  mapM (eval fuel) (inputs n) (mkState (heap s) (trace s ++ [EvCall self]))
    = (Ok vals, s1) →
  length vals = length (inputs n) ∧
  (length (inputs n) < 2 →
     eval (S fuel) self s =
       (Err IndexError, mkState (heap s1) (trace s1 ++ [EvForward self]))) ∧
  (∀ x y rest, vals = x :: y :: rest →
     (eval (S fuel) self s).1 = forward o [x; y]).
Proof.
  intros Hn Hv Ho E1.
  pose proof (mapM_length _ _ _ _ _ E1) as Hlen.
  split_and!; [done| |].
  - intros Hlt. erewrite eval_run by done.
    assert (forward o vals = Err IndexError) as ->; [|done].
    rewrite <-Hlen in Hlt. unfold forward, index.
    destruct vals as [|x [|y vals]]; simpl in *; [done|done|lia].
  - intros x y rest ->. erewrite eval_run by done.
    assert (forward o (x :: y :: rest) = forward o [x; y]) as -> by done.
    by destruct (forward o [x; y]).
Qed.

(** ** The outcomes of [gradients] *)

Section RaisesOnly.
Context (hb : list Node) (E : error → Prop).

Lemma raises_only_ret {A} (x : A) : raises_only hb E (mret x).
Proof. intros s r s' Hb [= <- <-]. split; [done|by intros ? [=]]. Qed.

Lemma raises_only_raise {A} e : E e → raises_only hb E (raise e : M A).
Proof. intros He s r s' Hb [= <- <-]. split; [done|]. by intros ? [= <-]. Qed.

Lemma raises_only_bind {A B} (m : M A) (k : A → M B) :
  raises_only hb E m → (∀ x, raises_only hb E (k x)) →
  raises_only hb E (m ≫= k).
Proof.
  intros Hm Hk s r s' Hb Ev.
  apply bind_inv in Ev as [(x & s1 & E1 & E2)|(e & E1 & ->)].
  - destruct (Hm _ _ _ Hb E1) as [Hb1 _]. by eapply Hk.
  - destruct (Hm _ _ _ Hb E1) as [Hb1 He]. split; [done|].
    intros e' [= <-]. by apply He.
Qed.

Lemma raises_only_alloc n : raises_only hb E (alloc n).
Proof.
  intros s r s' Hb [= <- <-]. split; [|by intros ? [=]].
  intros a m Hm. simpl. by apply lookup_app_l_Some, Hb.
Qed.

Lemma raises_only_get_node x :
  is_Some (hb !! x) ∨ E Dangling → raises_only hb E (get_node x).
Proof.
  intros Hx s r s' Hb Ev. apply get_node_inv in Ev as [-> Hr].
  split; [done|]. intros e ->.
  destruct Hr as [(n & _ & [=])|[Hnone Heq]]. injection Heq as ->.
  destruct Hx as [[n Hn]|He]; [|done].
  apply Hb in Hn. congruence.
Qed.

Lemma raises_only_index {A} (l : list A) i :
  E IndexError → raises_only hb E (lift (index l i)).
Proof.
  intros He s r s' Hb [= <- <-]. split; [done|].
  unfold index. destruct (l !! i); by intros ? [= <-].
Qed.

Lemma raises_only_input_at x i :
  is_Some (hb !! x) ∨ E Dangling → E IndexError →
  raises_only hb E (input_at x i).
Proof.
  intros Hx He. apply raises_only_bind; [by apply raises_only_get_node|].
  intros n. by apply raises_only_index.
Qed.

Lemma raises_only_foldM {A B} (f : A → B → M A) acc l :
  (∀ acc x, x ∈ l → raises_only hb E (f acc x)) →
  raises_only hb E (foldM f acc l).
Proof.
  revert acc. induction l as [|x l IH]; intros acc Hf; simpl.
  - apply raises_only_ret.
  - apply raises_only_bind; [apply Hf; left|].
    intros acc'. apply IH. intros; apply Hf; by right.
Qed.

Lemma raises_only_mapM {A B} (f : A → M B) l :
  (∀ x, x ∈ l → raises_only hb E (f x)) → raises_only hb E (mapM f l).
Proof.
  induction l as [|x l IH]; intros Hf; simpl.
  - apply raises_only_ret.
  - apply raises_only_bind; [apply Hf; left|].
    intros y. apply raises_only_bind; [apply IH; intros; apply Hf; by right|].
    intros ys. apply raises_only_ret.
Qed.

Lemma raises_only_backward o g x :
  is_Some (hb !! x) ∨ E Dangling → E IndexError →
  raises_only hb E (backward o g x).
Proof.
  intros Hx He. destruct o; unfold backward, Leaf, Node_mul, Node_truediv,
    op_call, Node_init;
    repeat first
      [ apply raises_only_ret
      | apply raises_only_alloc
      | by apply raises_only_input_at
      | apply raises_only_bind; [|intros ?] ].
Qed.

Lemma raises_only_accumulate g p : raises_only hb E (accumulate g p).
Proof.
  unfold accumulate, Node_add, op_call, Node_init. destruct (g !! p.1).
  - apply raises_only_bind; [apply raises_only_alloc|].
    intros ?. apply raises_only_ret.
  - apply raises_only_ret.
Qed.

Lemma raises_only_propagate g x :
  is_Some (hb !! x) ∨ E Dangling → E IndexError → E KeyError →
  raises_only hb E (propagate g x).
Proof.
  intros Hx Hi Hk. unfold propagate.
  apply raises_only_bind; [by apply raises_only_get_node|].
  intros n. destruct (op n); [|apply raises_only_ret].
  apply raises_only_bind.
  { unfold grads_get. destruct (g !! x);
      [apply raises_only_ret|by apply raises_only_raise]. }
  intros og. apply raises_only_bind; [by apply raises_only_backward|].
  intros igs. apply raises_only_bind; [by apply raises_only_get_node|].
  intros n'. apply raises_only_foldM. intros; apply raises_only_accumulate.
Qed.

End RaisesOnly.

Lemma build_topo_errors h fuel vt node e :
  build_topo h fuel vt node = Err e → e = OutOfFuel ∨ e = Dangling.
Proof.
  revert vt node. induction fuel as [|fuel IH]; intros vt node Ev.
  { injection Ev as <-. by left. }
  simpl in Ev. destruct (decide (node ∈ vt.1)); [done|].
  destruct (h !! node) as [nd|]; [|injection Ev as <-; by right].
  assert (∀ l acc, res_foldM (build_topo h fuel) acc l = Err e →
            e = OutOfFuel ∨ e = Dangling) as Hfold.
  { induction l as [|i l IHl]; intros acc Hl; [done|].
    simpl in Hl. destruct (build_topo h fuel acc i) as [acc'|e'] eqn:Hi.
    - by eapply IHl.
    - injection Hl as <-. by eapply IH. }
  destruct (res_foldM _ _ _) as [vt'|e'] eqn:Hl; [done|].
  injection Ev as <-. by eapply Hfold.
Qed.

(** X5.  [gradients] evaluates nothing and divides nothing: on any heap
    it raises neither [ValueError] nor [ZeroDivisionError] nor
    [TypeError].  On a closed acyclic heap, with fuel above the rank of
    the output, it returns or raises [KeyError] (a node with an operator
    reached without an entry) or [IndexError] (a multiplication or
    division node with fewer than two inputs), nothing else. *)
Theorem gradients_outcomes fuel out wrt s e :
  (gradients fuel out wrt s).1 = Err e →
  (e ≠ ValueError ∧ e ≠ ZeroDivisionError ∧ e ≠ TypeError) ∧
  ∀ rank, closed (heap s) → ranked (heap s) rank →
    is_Some (heap s !! out) → rank out < fuel →
    e = KeyError ∨ e = IndexError.
Proof.
  intros Ev. destruct (gradients fuel out wrt s) as [r s'] eqn:EG.
  simpl in Ev. subst r. split.
  - set (E := λ e, e = KeyError ∨ e = IndexError ∨ e = OutOfFuel ∨ e = Dangling).
    assert (raises_only [] E (gradients fuel out wrt)) as Hro.
    { unfold gradients, Leaf, Node_init.
      apply raises_only_bind; [apply raises_only_alloc|]. intros seed.
      apply raises_only_bind.
      { intros s0 r s1 Hb [= <- <-]. split; [done|by intros ? [=]]. }
      intros h. apply raises_only_bind.
      { intros s0 r s1 Hb [= <- <-]. split; [done|].
        intros e' He'. apply build_topo_errors in He'. unfold E. tauto. }
      intros vt. apply raises_only_bind.
      { apply raises_only_foldM. intros g x _.
        apply raises_only_propagate; unfold E; tauto. }
      intros g. apply raises_only_mapM. intros x _.
      apply raises_only_bind; [apply raises_only_alloc|].
      intros ?. apply raises_only_ret. }
    destruct (Hro s (Err e) s') as [_ He]; [|done|].
    { intros a m Hm. by rewrite lookup_nil in Hm. }
    specialize (He e eq_refl). unfold E in He.
    split_and!; intros ->; destruct He as [|[|[|]]]; done.
  - intros rank Hc Hr [n Hn] Hf.
    set (hb := heap s ++ [mkNode [] None (Some (s_int 1))]).
    assert (closed hb) as Hc' by (by apply closed_snoc_leaf).
    assert (ranked hb rank) as Hr' by (by apply ranked_snoc_leaf).
    assert (hb !! out = Some n) as Hn' by (by apply lookup_app_l_Some).
    destruct (build_topo_spec hb rank Hc' Hr' fuel out Hf)
      as (V & T & ET & Hnd & Hreach & Hif); [by eexists|].
    unfold gradients, Leaf, Node_init in EG.
    erewrite bind_ok in EG by apply alloc_run.
    erewrite bind_ok in EG by reflexivity. cbn [heap trace] in EG.
    fold hb in EG. unfold lift in EG.
    erewrite bind_ok in EG by (by rewrite ET).
    set (E := λ e, e = KeyError ∨ e = IndexError).
    assert (raises_only hb E
              (foldM propagate {[out := length (heap s)]} (reverse T))) as Hw.
    { apply raises_only_foldM. intros g x Hx%elem_of_reverse%Hreach.
      apply raises_only_propagate; unfold E; [left|tauto..].
      apply rtc_inv_r in Hx as [<-|(c & _ & He)]; [by eexists|by eapply Hc']. }
    apply bind_inv in EG as [(g & s2 & EW & EM)|(e' & EW & [= <-])].
    + destruct (mapM_grads_get_default g wrt s2) as (gs & s3 & EM' & _).
      rewrite EM' in EM. done.
    + cbn [snd] in EW.
      destruct (Hw (mkState hb (trace s)) (Err e) s') as [_ He]; [done..|].
      by apply He.
Qed.

(** ** The gradients returned *)

Lemma extends_length (Q : Node → Prop) s s' :
  extends Q s s' → length (heap s) ≤ length (heap s').
Proof. intros (new & -> & _). rewrite length_app. lia. Qed.

Lemma mapM_grads_get_default_run (g : gmap nat nat) wrt s :
  mapM (grads_get_default g) wrt s =
    (Ok (imap (λ i x, default (length (heap s) + i) (g !! x)) wrt),
     mkState (heap s ++ replicate (length wrt) (mkNode [] None (Some (s_int 0))))
             (trace s)).
Proof.
  revert s. induction wrt as [|x wrt IH]; intros s.
  { simpl. rewrite app_nil_r. by destruct s. }
  simpl mapM. erewrite bind_ok by apply grads_get_default_run.
  erewrite bind_ok by apply IH. cbn [heap trace imap length replicate].
  rewrite Nat.add_0_r, <-app_assoc. unfold mret, M_ret. do 3 f_equal.
  apply imap_ext. intros i y _. simpl. rewrite length_app. simpl.
  f_equal. lia.
Qed.

(** The walk of [gradients], when it returns: the entries it leaves and
    the state it leaves them in. *)
Lemma gradients_inv rank fuel out wrt s gs s' :
  closed (heap s) → ranked (heap s) rank →
  is_Some (heap s !! out) → rank out < fuel →
  gradients fuel out wrt s = (Ok gs, s') →
  let hb := heap s ++ [mkNode [] None (Some (s_int 1))] in
  ∃ V T (g : gmap nat nat) s2,
    build_topo hb fuel (∅, []) out = Ok (V, T) ∧
    (∀ x, x ∈ T ↔ reachable (heap s) out x) ∧
    foldM propagate {[out := length (heap s)]} (reverse T)
      (mkState hb (trace s)) = (Ok g, s2) ∧
    length hb ≤ length (heap s2) ∧
    (∀ x, ¬ reachable (heap s) out x → g !! x = None) ∧
    gs = imap (λ i x, default (length (heap s2) + i) (g !! x)) wrt ∧
    s' = mkState
           (heap s2 ++ replicate (length wrt) (mkNode [] None (Some (s_int 0))))
           (trace s2).
Proof.
  intros Hc Hr [n Hn] Hf EG hb.
  assert (closed hb) as Hc' by (by apply closed_snoc_leaf).
  assert (ranked hb rank) as Hr' by (by apply ranked_snoc_leaf).
  assert (hb !! out = Some n) as Hn' by (by apply lookup_app_l_Some).
  destruct (build_topo_spec hb rank Hc' Hr' fuel out Hf)
    as (V & T & ET & Hnd & Hreach & Hif); [by eexists|].
  unfold gradients, Leaf, Node_init in EG.
  erewrite bind_ok in EG by apply alloc_run.
  erewrite bind_ok in EG by reflexivity. cbn [heap trace] in EG.
  fold hb in EG. unfold lift in EG.
  erewrite bind_ok in EG by (by rewrite ET).
  inv_bind' EG as g s2 EW. cbn [snd] in EW.
  rewrite mapM_grads_get_default_run in EG. injection EG as <- <-.
  exists V, T, g, s2. split_and!; [done| |done| | |done..].
  - intros x. rewrite Hreach. apply reachable_snoc_leaf.
  - apply (extends_length fresh_shape (mkState hb (trace s)) s2).
    eapply (preserves_foldM (extends fresh_shape)); [|exact EW].
    intros; apply propagate_fresh.
  - intros x Hx.
    rewrite (walk_frame hb (reverse T) {[out := length (heap s)]}
               (mkState hb (trace s)) g s2 x); [| | | |exact EW].
    + apply lookup_singleton_ne. intros <-. apply Hx. reflexivity.
    + done.
    + intros y Hy%elem_of_reverse%Hreach.
      apply rtc_inv_r in Hy as [<-|(c & _ & He)]; [by eexists|by eapply Hc'].
    + intros c Hcin%elem_of_reverse%Hreach He. apply Hx.
      apply reachable_snoc_leaf with (v := s_int 1).
      eapply rtc_r; [exact Hcin|exact He].
Qed.

(** X6.  On an acyclic heap, when [gradients] returns: for a node of
    [wrt] that the output does not reach, the gradient is a leaf of value
    [0] made for that position, after every node the heap had; two such
    positions get two leaves, also when they hold the same node. *)
Theorem unreachable_gradient_is_fresh_zero rank fuel out wrt s gs s' :
  closed (heap s) → ranked (heap s) rank →
  is_Some (heap s !! out) → rank out < fuel →
  gradients fuel out wrt s = (Ok gs, s') →
  ∀ i x, wrt !! i = Some x → ¬ reachable (heap s) out x →
    ∃ z, gs !! i = Some z ∧
      length (heap s) < z ∧
      heap s' !! z = Some (mkNode [] None (Some (s_int 0))) ∧
      (∀ fuel', (eval (S fuel') z s').1 = Ok (s_int 0)) ∧
      ∀ j y, j ≠ i → wrt !! j = Some y → ¬ reachable (heap s) out y →
        gs !! j ≠ Some z.
Proof.
  intros Hc Hr Hout Hf EG i x Hi Hx.
  destruct (gradients_inv rank fuel out wrt s gs s' Hc Hr Hout Hf EG)
    as (V & T & g & s2 & _ & _ & _ & Hlen & Hnone & -> & ->).
  rewrite length_app in Hlen. simpl in Hlen.
  exists (length (heap s2) + i).
  assert ((heap s2 ++ replicate (length wrt) (mkNode [] None (Some (s_int 0))))
            !! (length (heap s2) + i)
          = Some (mkNode [] None (Some (s_int 0)))) as Hleaf.
  { rewrite lookup_fresh. apply lookup_replicate_2. by eapply lookup_lt_Some. }
  split_and!.
  - rewrite list_lookup_imap, Hi. simpl. by rewrite (Hnone x).
  - lia.
  - done.
  - intros fuel'. by erewrite eval_cached.
  - intros j y Hji Hj Hy. rewrite list_lookup_imap, Hj. simpl.
    rewrite (Hnone y) by done. simpl. intros [=]. lia.
Qed.

Lemma arity_ok_app h new :
  arity_ok h → Forall fresh_shape new → arity_ok (h ++ new).
Proof.
  intros Har Hnew a n Hn.
  apply lookup_app_Some in Hn as [Hn|[_ Hn]]; [by eapply Har|].
  eapply Forall_lookup_1 in Hnew as [(-> & -> & _)|(? & [o ->] & _)]; done.
Qed.

(** Every gradient that the walk records is a node of the heap. *)
Lemma backward_valid o og x s n a b :
  heap s !! x = Some n → inputs n = [a; b] → og < length (heap s) →
  ∃ g0 g1 s', backward o og x s = (Ok [g0; g1], s') ∧
    extends fresh_shape s s' ∧
    g0 < length (heap s') ∧ g1 < length (heap s').
Proof.
  intros Hn Hi Hog. destruct o.
  - exists og, og, s. split_and!; [done|reflexivity|done..].
  - do 3 eexists. split; [apply backward_SubOp_run|]. cbn [heap].
    split_and!; [apply extends_app; solve_fresh
                |rewrite length_app; simpl; lia..].
  - do 3 eexists. split; [by eapply backward_MulOp_run|]. cbn [heap].
    split_and!; [apply extends_app; solve_fresh
                |rewrite length_app; simpl; lia..].
  - do 3 eexists. split; [by eapply backward_DivOp_run|]. cbn [heap].
    split_and!; [apply extends_app; solve_fresh
                |rewrite length_app; simpl; lia..].
Qed.

Lemma accumulate_valid (g : gmap nat nat) p s g' s' :
  grads_valid g s → p.2 < length (heap s) →
  accumulate g p s = (Ok g', s') → grads_valid g' s'.
Proof.
  intros Hg Hp. unfold accumulate.
  destruct (g !! p.1) as [e|] eqn:He.
  - unfold Node_add, op_call, Node_init.
    erewrite bind_ok by apply alloc_run. intros [= <- <-].
    intros k r. cbn [heap]. rewrite length_app. simpl.
    destruct (decide (k = p.1)) as [->|Hne].
    + rewrite lookup_insert_eq. intros [= <-]. lia.
    + rewrite lookup_insert_ne by done. intros ?%Hg. lia.
  - intros [= <- <-]. intros k r.
    destruct (decide (k = p.1)) as [->|Hne].
    + rewrite lookup_insert_eq. by intros [= <-].
    + rewrite lookup_insert_ne by done. apply Hg.
Qed.

Lemma propagate_valid (g : gmap nat nat) x s g' s' :
  arity_ok (heap s) → grads_valid g s →
  propagate g x s = (Ok g', s') → grads_valid g' s'.
Proof.
  intros Har Hg E. unfold propagate in E.
  inv_bind' E as n s0 E0.
  apply get_node_inv in E0 as [-> [(? & Hn & [= <-])|[_ [=]]]].
  pose proof (Har _ _ Hn) as Hshape.
  destruct (op n) as [o|]; [|by injection E as <- <-].
  destruct (inputs n) as [|a [|b [|??]]] eqn:Hi; try done.
  unfold grads_get in E. destruct (g !! x) as [og|] eqn:Hog.
  2:{ by erewrite bind_err in E by reflexivity. }
  erewrite bind_ok in E by reflexivity.
  destruct (backward_valid o og x s n a b Hn Hi (Hg _ _ Hog))
    as (g0 & g1 & s1 & E1 & X1 & H0 & H1).
  erewrite bind_ok in E by done.
  erewrite bind_ok in E; [|unfold get_node; by erewrite extends_lookup].
  rewrite Hi in E. simpl in E.
  inv_bind' E as ga s2 E2. inv_bind' E as gb s3 E3. injection E as <- <-.
  assert (grads_valid g s1) as Hg1.
  { intros k r Hk. pose proof (Hg _ _ Hk).
    pose proof (extends_length _ _ _ X1). lia. }
  pose proof (accumulate_valid g (a, g0) s1 ga s2 Hg1 H0 E2) as Hg2.
  pose proof (extends_length _ _ _ (accumulate_fresh _ _ _ _ _ E2)) as Hl2.
  apply (accumulate_valid ga (b, g1) s2 gb s3 Hg2); [simpl; lia|done].
Qed.

Lemma walk_valid l (g : gmap nat nat) s g' s' :
  arity_ok (heap s) → grads_valid g s →
  foldM propagate g l s = (Ok g', s') → grads_valid g' s'.
Proof.
  revert g s. induction l as [|x l IH]; intros g s Har Hg E.
  { by injection E as <- <-. }
  simpl in E. inv_bind' E as g1 s1 E1.
  apply (IH g1 s1); [|by eapply propagate_valid|done].
  destruct (propagate_fresh _ _ _ _ _ E1) as (new & -> & Hnew & _).
  by apply arity_ok_app.
Qed.

(** X7.  On an acyclic heap of leaves and two-input operator nodes,
    [gradients] returns, and what it returns for a node [x] of [wrt] that
    the output reaches is the entry of [x] in [grads] as the reverse walk
    over the topological order left it: a node that was in the heap before
    the list of results, with its default leaves, was made.  Every position
    of [wrt] that holds [x] gets this one reference. *)
Theorem reachable_gradient_is_shared rank fuel out wrt s :
  closed (heap s) → ranked (heap s) rank → arity_ok (heap s) →
  is_Some (heap s !! out) → rank out < fuel →
  let hb := heap s ++ [mkNode [] None (Some (s_int 1))] in
  ∃ gs s' V T (g : gmap nat nat) s2,
    gradients fuel out wrt s = (Ok gs, s') ∧
    build_topo hb fuel (∅, []) out = Ok (V, T) ∧
    foldM propagate {[out := length (heap s)]} (reverse T)
      (mkState hb (trace s)) = (Ok g, s2) ∧
    heap s' =
      heap s2 ++ replicate (length wrt) (mkNode [] None (Some (s_int 0))) ∧
    ∀ i x, wrt !! i = Some x → reachable (heap s) out x →
      ∃ r, g !! x = Some r ∧ r < length (heap s2) ∧
        heap s' !! r = heap s2 !! r ∧
        gs !! i = Some r ∧
        ∀ j, wrt !! j = Some x → gs !! j = Some r.
Proof.
  intros Hc Hr Har [n Hn] Hf hb.
  destruct (gradients_run rank fuel out wrt s Hc Hr Har)
    as (V & T & g & s2 & gs & s' & ET & Hcov & EW & _ & EG & _ & G & _);
    [by eexists|done|].
  fold hb in ET, Hcov, EW.
  destruct (gradients_inv rank fuel out wrt s gs s' Hc Hr) as
    (V' & T' & g' & s2' & ET' & _ & EW' & _ & _ & _ & Hs'); [by eexists|done..|].
  fold hb in ET', EW'. rewrite ET in ET'. injection ET' as <- <-.
  rewrite EW in EW'. injection EW' as <- <-.
  exists gs, s', V, T, g, s2. do 3 (split; [done|]).
  split; [by rewrite Hs'|]. intros i x Hi Hx.
  assert (closed hb) as Hc' by (by apply closed_snoc_leaf).
  assert (ranked hb rank) as Hr' by (by apply ranked_snoc_leaf).
  assert (arity_ok hb) as Har' by (by apply arity_ok_snoc_leaf).
  assert (hb !! out = Some n) as Hn' by (by apply lookup_app_l_Some).
  destruct (build_topo_spec hb rank Hc' Hr' fuel out Hf)
    as (V' & T' & ET' & _ & Hreach & _); [by eexists|].
  rewrite ET in ET'. injection ET' as <- <-.
  assert (∀ y, y ∈ reverse T → is_Some (hb !! y)) as Hin.
  { intros y Hy%elem_of_reverse%Hreach.
    apply rtc_inv_r in Hy as [<-|(c & _ & He)]; [by eexists|by eapply Hc']. }
  destruct (walk_ok hb (reverse T) Har' Hin {[out := length (heap s)]}
              (mkState hb (trace s)))
    as (g' & s2' & EW' & _ & D & C & _); [done..|].
  rewrite EW in EW'. injection EW' as <- <-.
  assert (grads_valid g s2) as Hg2.
  { eapply (walk_valid (reverse T) {[out := length (heap s)]}
              (mkState hb (trace s))); [done| |done].
    intros k r [<- <-]%lookup_singleton_Some. cbn [heap]. subst hb.
    rewrite length_app. simpl. lia. }
  assert (x ∈ dom g) as [r Hgx]%elem_of_dom.
  { apply (reachable_snoc_leaf _ (s_int 1)) in Hx. fold hb in Hx.
    apply rtc_inv_r in Hx as [<-|(c & Hc0 & He)].
    - apply D. rewrite dom_singleton_L. set_solver.
    - eapply C; [|by eapply edge_has_op|exact He].
      by apply elem_of_reverse, Hreach. }
  exists r. pose proof (Hg2 _ _ Hgx) as Hlt.
  split_and!; [done|done| |by eapply G|].
  - rewrite Hs'. cbn [heap]. by rewrite lookup_app_l.
  - intros j Hj. by eapply G.
Qed.

(** ** Construction order *)

Lemma ordered_closed h : ordered h → closed h.
Proof.
  intros Ho a i He. pose proof (Ho _ _ He) as Hlt.
  destruct He as (n & Hn%lookup_lt_Some & _).
  apply lookup_lt_is_Some. lia.
Qed.

Lemma ordered_ranked h : ordered h → ranked h (λ x, x).
Proof. intros Ho a i He. by apply Ho. Qed.

Lemma ordered_app h new :
  ordered h →
  (∀ k n i, new !! k = Some n → i ∈ inputs n → i < length h + k) →
  ordered (h ++ new).
Proof.
  intros Ho Hnew a i (n & Hn & Hi).
  apply lookup_app_Some in Hn as [Hn|[Hge Hn]].
  - apply Ho. by exists n.
  - pose proof (Hnew _ _ _ Hn Hi). lia.
Qed.

Lemma no_malformed_app h new :
  (∀ x, ¬ malformed h x) → Forall fresh_shape new →
  ∀ x, ¬ malformed (h ++ new) x.
Proof.
  intros Hm Hnew x (n & Hn & Ho & Hv).
  apply lookup_app_Some in Hn as [Hn|[_ Hn]]; [by apply (Hm x); exists n|].
  eapply Forall_lookup_1 in Hnew as [(_ & _ & [?|[?|?]])|(_ & [o ?] & _)];
    [| | | |done]; congruence.
Qed.

(** The inputs of the nodes of a literal list [new] put after [l] nodes
    are below their own address. *)
Ltac solve_ordered_new :=
  let k := fresh "k" in let n := fresh "n" in let i := fresh "i" in
  let Hk := fresh "Hk" in let Hi := fresh "Hi" in
  intros k n i Hk Hi;
  repeat (destruct k as [|k];
          [injection Hk as <-; cbn [inputs] in Hi;
           set_unfold; naive_solver lia|simpl in Hk]);
  by rewrite lookup_nil in Hk.

Lemma backward_ordered o og x s n a b :
  ordered (heap s) → heap s !! x = Some n → inputs n = [a; b] →
  og < length (heap s) →
  ∃ g0 g1 s', backward o og x s = (Ok [g0; g1], s') ∧
    extends fresh_shape s s' ∧ ordered (heap s') ∧
    g0 < length (heap s') ∧ g1 < length (heap s').
Proof.
  intros Ho Hn Hi Hog.
  assert (a < x ∧ b < x) as [Ha Hb].
  { split; apply Ho; exists n; rewrite Hi; set_solver. }
  pose proof (lookup_lt_Some _ _ _ Hn) as Hx.
  destruct o.
  - exists og, og, s. split_and!; [done|reflexivity|done..].
  - do 3 eexists. split; [apply backward_SubOp_run|]. cbn [heap].
    split_and!; [apply extends_app; solve_fresh| |rewrite length_app; simpl; lia..].
    apply ordered_app; [done|]. solve_ordered_new.
  - do 3 eexists. split; [by eapply backward_MulOp_run|]. cbn [heap].
    split_and!; [apply extends_app; solve_fresh| |rewrite length_app; simpl; lia..].
    apply ordered_app; [done|]. solve_ordered_new.
  - do 3 eexists. split; [by eapply backward_DivOp_run|]. cbn [heap].
    split_and!; [apply extends_app; solve_fresh| |rewrite length_app; simpl; lia..].
    apply ordered_app; [done|]. solve_ordered_new.
Qed.

Lemma accumulate_ordered (g : gmap nat nat) p s g' s' :
  ordered (heap s) → grads_valid g s → p.2 < length (heap s) →
  accumulate g p s = (Ok g', s') →
  ordered (heap s') ∧ grads_valid g' s'.
Proof.
  intros Ho Hg Hp. unfold accumulate.
  destruct (g !! p.1) as [e|] eqn:He.
  - unfold Node_add, op_call, Node_init.
    erewrite bind_ok by apply alloc_run. intros [= <- <-]. cbn [heap].
    pose proof (Hg _ _ He) as Hlt.
    split.
    + apply ordered_app; [done|]. solve_ordered_new.
    + intros k r. cbn [heap]. rewrite length_app. simpl.
      destruct (decide (k = p.1)) as [->|Hne].
      * rewrite lookup_insert_eq. intros [= <-]. lia.
      * rewrite lookup_insert_ne by done. intros ?%Hg. lia.
  - intros [= <- <-]. split; [done|]. intros k r.
    destruct (decide (k = p.1)) as [->|Hne].
    + rewrite lookup_insert_eq. by intros [= <-].
    + rewrite lookup_insert_ne by done. apply Hg.
Qed.

Lemma fold_accumulate_ordered l (g : gmap nat nat) s g' s' :
  ordered (heap s) → grads_valid g s →
  Forall (λ p, p.2 < length (heap s)) l →
  foldM accumulate g l s = (Ok g', s') →
  ordered (heap s') ∧ grads_valid g' s'.
Proof.
  revert g s. induction l as [|p l IH]; intros g s Ho Hg Hl E.
  { by injection E as <- <-. }
  simpl in E. inv_bind' E as g1 s1 E1.
  apply Forall_cons in Hl as [Hp Hl].
  destruct (accumulate_ordered g p s g1 s1 Ho Hg Hp E1) as [Ho1 Hg1].
  apply (IH g1 s1); [done..| |done].
  pose proof (extends_length fresh_shape s s1 (accumulate_fresh _ _ _ _ _ E1)).
  eapply Forall_impl; [exact Hl|]. simpl. intros; lia.
Qed.

Lemma propagate_ordered (g : gmap nat nat) x s g' s' :
  ordered (heap s) → arity_ok (heap s) → grads_valid g s →
  propagate g x s = (Ok g', s') →
  ordered (heap s') ∧ grads_valid g' s'.
Proof.
  intros Ho Har Hg E. unfold propagate in E.
  inv_bind' E as n s0 E0.
  apply get_node_inv in E0 as [-> [(? & Hn & [= <-])|[_ [=]]]].
  pose proof (Har _ _ Hn) as Hshape.
  destruct (op n) as [o|]; [|by injection E as <- <-].
  destruct (inputs n) as [|a [|b [|??]]] eqn:Hi; try done.
  unfold grads_get in E. destruct (g !! x) as [og|] eqn:Hog.
  2:{ by erewrite bind_err in E by reflexivity. }
  erewrite bind_ok in E by reflexivity.
  destruct (backward_ordered o og x s n a b Ho Hn Hi (Hg _ _ Hog))
    as (g0 & g1 & s1 & E1 & X1 & Ho1 & H0 & H1).
  erewrite bind_ok in E by done.
  erewrite bind_ok in E; [|unfold get_node; by erewrite extends_lookup].
  rewrite Hi in E. simpl zip in E.
  apply (fold_accumulate_ordered [(a, g0); (b, g1)] g s1); [done| | |done].
  - intros k r Hk. pose proof (Hg _ _ Hk).
    pose proof (extends_length _ _ _ X1). lia.
  - by repeat constructor.
Qed.

Lemma walk_ordered l (g : gmap nat nat) s g' s' :
  ordered (heap s) → arity_ok (heap s) → grads_valid g s →
  foldM propagate g l s = (Ok g', s') →
  ordered (heap s') ∧ grads_valid g' s'.
Proof.
  revert g s. induction l as [|x l IH]; intros g s Ho Har Hg E.
  { by injection E as <- <-. }
  simpl in E. inv_bind' E as g1 s1 E1.
  destruct (propagate_ordered g x s g1 s1 Ho Har Hg E1) as [Ho1 Hg1].
  apply (IH g1 s1); [done| |done..].
  destruct (propagate_fresh _ _ _ _ _ E1) as (new & -> & Hnew & _).
  by apply arity_ok_app.
Qed.

(** [gradients] on a heap in construction order: it returns, and leaves a
    heap in construction order. *)
Lemma gradients_ordered_run fuel out wrt s :
  ordered (heap s) → arity_ok (heap s) →
  out < length (heap s) → out < fuel →
  ∃ gs s',
    gradients fuel out wrt s = (Ok gs, s') ∧
    extends fresh_shape s s' ∧
    ordered (heap s') ∧ arity_ok (heap s') ∧
    length gs = length wrt ∧
    Forall (λ r, r < length (heap s')) gs.
Proof.
  intros Ho Har Hout Hf.
  assert (is_Some (heap s !! out)) as Hsome by (by apply lookup_lt_is_Some).
  destruct (gradients_run (λ x, x) fuel out wrt s)
    as (V & T & g & s2 & gs & s' & ET & _ & EW & _ & EG & Hlen & _ & X);
    [by apply ordered_closed|by apply ordered_ranked|done..|].
  exists gs, s'. split; [done|]. split; [done|].
  set (hb := heap s ++ [mkNode [] None (Some (s_int 1))]) in *.
  destruct (walk_ordered (reverse T) {[out := length (heap s)]}
              (mkState hb (trace s)) g s2) as [Ho2 Hg2]; [| | |done|].
  { apply ordered_app; [done|]. solve_ordered_new. }
  { apply arity_ok_app; [done|]. solve_fresh. }
  { intros k r [<- <-]%lookup_singleton_Some. subst hb. cbn [heap].
    rewrite length_app. simpl. lia. }
  assert (arity_ok (heap s')) as Har'.
  { destruct X as (new & -> & Hfresh & _). by apply arity_ok_app. }
  unfold gradients, Leaf, Node_init in EG.
  erewrite bind_ok in EG by apply alloc_run.
  erewrite bind_ok in EG by reflexivity. cbn [heap trace] in EG.
  fold hb in EG. unfold lift in EG.
  erewrite bind_ok in EG by (by rewrite ET).
  erewrite bind_ok in EG by exact EW.
  rewrite mapM_grads_get_default_run in EG. injection EG as <- <-.
  cbn [heap]. split_and!; [|done..|].
  - apply ordered_app; [done|].
    intros k n i [-> _]%lookup_replicate Hi. by apply elem_of_nil in Hi.
  - apply Forall_lookup. intros i r. rewrite list_lookup_imap, length_app.
    destruct (wrt !! i) as [x|] eqn:Hi; [|done]. simpl. intros [= <-].
    destruct (g !! x) as [r|] eqn:Hgx; simpl.
    + apply Hg2 in Hgx. lia.
    + apply lookup_lt_Some in Hi. rewrite length_replicate. lia.
Qed.

(** X8.  On a heap in construction order (inputs at smaller addresses,
    leaves without inputs, operator nodes with two), [gradients] of a node
    of the heap with fuel above its address returns one gradient per node
    of [wrt], each a node of the final heap; the final heap is in
    construction order as well, so that [gradients] of any gradient
    returned, with fuel above its address, returns too. *)
Theorem gradients_keeps_construction_order fuel out wrt s :
  ordered (heap s) → arity_ok (heap s) →
  out < length (heap s) → out < fuel →
  ∃ gs s',
    gradients fuel out wrt s = (Ok gs, s') ∧
    ordered (heap s') ∧ arity_ok (heap s') ∧
    length gs = length wrt ∧
    Forall (λ r, r < length (heap s')) gs ∧
    ∀ r wrt' fuel', r ∈ gs → r < fuel' →
      ∃ gs2 s2, gradients fuel' r wrt' s' = (Ok gs2, s2).
Proof.
  intros Ho Har Hout Hf.
  destruct (gradients_ordered_run fuel out wrt s Ho Har Hout Hf)
    as (gs & s' & EG & _ & Ho' & Har' & Hlen & Hgs).
  exists gs, s'. split_and!; [done..|].
  intros r wrt' fuel' Hr Hf'.
  destruct (gradients_ordered_run fuel' r wrt' s' Ho' Har') as (gs2 & s2 & E2 & _);
    [|done|by exists gs2, s2].
  by eapply (proj1 (Forall_forall _ _) Hgs).
Qed.

Lemma built_wf s :
  built s →
  ordered (heap s) ∧ arity_ok (heap s) ∧ ∀ x, ¬ malformed (heap s) x.
Proof.
  induction 1 as [t|v s _ (Ho & Har & Hm)|o a b s _ (Ho & Har & Hm) Ha Hb
                  |fuel self s _ (Ho & Har & Hm)
                  |fuel out wrt s _ (Ho & Har & Hm) Hout Hf].
  - split_and!.
    + intros a i (n & Hn & _). cbn [heap] in Hn. by rewrite lookup_nil in Hn.
    + intros a n Hn. cbn [heap] in Hn. by rewrite lookup_nil in Hn.
    + intros x (n & Hn & _). cbn [heap] in Hn. by rewrite lookup_nil in Hn.
  - cbn [Leaf Node_init alloc snd heap]. split_and!.
    + apply ordered_app; [done|]. solve_ordered_new.
    + by apply arity_ok_snoc_leaf.
    + intros x (n & Hn & Hop & Hv).
      apply lookup_app_Some in Hn as [Hn|[_ Hn]]; [by apply (Hm x); exists n|].
      by apply list_lookup_singleton_Some in Hn as [_ <-].
  - cbn [op_call Node_init alloc snd heap]. split_and!.
    + apply ordered_app; [done|]. solve_ordered_new.
    + apply arity_ok_app; [done|]. solve_fresh.
    + apply no_malformed_app; [done|]. solve_fresh.
  - destruct (eval fuel self s) as [r s'] eqn:E. cbn [snd].
    pose proof (eval_evolves _ _ _ _ _ E) as Hev. split_and!.
    + intros a i He. apply Ho. by apply (evolves_edge s s').
    + by eapply evolves_arity_ok.
    + intros x Hx. apply (Hm x). by apply (evolves_malformed s s').
  - destruct (gradients_ordered_run fuel out wrt s Ho Har Hout Hf)
      as (gs & s' & -> & X & Ho' & Har' & _). cbn [snd].
    split_and!; [done..|].
    destruct X as (new & -> & Hnew & _). by apply no_malformed_app.
Qed.

(** X9.  A heap built from the empty one by leaves with a value,
    operators applied to nodes that exist, evaluations and gradients is in
    construction order and has no node without both operator and value;
    on it, [gradients] of a node that exists returns, and [eval] of a node
    that exists returns a value or raises [ZeroDivisionError], nothing
    else. *)
Theorem built_heap_is_safe s :
  built s →
  (ordered (heap s) ∧ arity_ok (heap s) ∧ ∀ x, ¬ malformed (heap s) x) ∧
  (∀ out wrt, out < length (heap s) →
     ∃ gs s', gradients (S out) out wrt s = (Ok gs, s')) ∧
  (∀ fuel self, self < length (heap s) → self < fuel →
     (∃ v, (eval fuel self s).1 = Ok v) ∨
     (eval fuel self s).1 = Err ZeroDivisionError).
Proof.
  intros Hb. destruct (built_wf s Hb) as (Ho & Har & Hm).
  split_and!; [done..| |].
  - intros out wrt Hout.
    destruct (gradients_ordered_run (S out) out wrt s Ho Har Hout) as (gs & s' & E & _);
      [lia|by exists gs, s'].
  - intros fuel self Hself Hf.
    destruct (eval fuel self s) as [[v|e] s'] eqn:E; cbn [fst]; [left; by exists v|].
    right. f_equal.
    destruct (eval_errors (λ x, x) fuel self s e s') as [[-> | [-> | ->]] Hidx];
      [by apply ordered_closed|by apply ordered_ranked|done
      |by apply lookup_lt_is_Some|done| | |done].
    + destruct (eval_disconnected_spec fuel self s _ s' E) as (evs & _ & _ & V & _).
      destruct (V eq_refl) as (x & _ & Hx). by destruct (Hm x).
    + by destruct (Hidx Har).
Qed.

(** ** Gradients of one operator, run *)

Lemma binary_gradients_add_run k x y s :
  heap s = [] →
  (binary_gradients Node_add (6 + k) x y s).1 = Ok (s_int 1, s_int 1).
Proof. destruct s as [h t]. simpl. intros ->. vm_compute. reflexivity. Qed.

Lemma binary_gradients_sub_run k x y s :
  heap s = [] →
  (binary_gradients Node_sub (6 + k) x y s).1 =
    Ok (s_int 1, s_mul (s_int (-1)) (s_int 1)).
Proof. destruct s as [h t]. simpl. intros ->. vm_compute. reflexivity. Qed.

Lemma binary_gradients_mul_run k x y s :
  heap s = [] →
  (binary_gradients Node_mul (6 + k) x y s).1 =
    Ok (s_mul y (s_int 1), s_mul x (s_int 1)).
Proof. destruct s as [h t]. simpl. intros ->. vm_compute. reflexivity. Qed.

Lemma square_gradient_run k x s :
  heap s = [] →
  (square_gradient (6 + k) x s).1 =
    Ok (s_add (s_mul x (s_int 1)) (s_mul x (s_int 1))).
Proof. destruct s as [h t]. simpl. intros ->. vm_compute. reflexivity. Qed.

Lemma square_second_gradient_run k x s :
  heap s = [] →
  (square_second_gradient (6 + k) x s).1 =
    Ok (s_add (s_mul (s_int 1) (s_int 1)) (s_mul (s_int 1) (s_int 1))).
Proof. destruct s as [h t]. simpl. intros ->. vm_compute. reflexivity. Qed.

(** ** Values and derivatives *)

Lemma scan_snoc {A B} (f : list B → A → B) l a :
  scan f (l ++ [a]) = scan f l ++ [f (scan f l) a].
Proof. unfold scan. by rewrite foldl_app. Qed.

Lemma scan_length {A B} (f : list B → A → B) l :
  length (scan f l) = length l.
Proof.
  induction l as [|a l IH] using rev_ind; [done|].
  rewrite scan_snoc, !length_app, IH. done.
Qed.

Lemma scan_app {A B} (f : list B → A → B) l1 l2 :
  ∃ rest, scan f (l1 ++ l2) = scan f l1 ++ rest.
Proof.
  induction l2 as [|a l2 [rest IH]] using rev_ind.
  { exists []. by rewrite !app_nil_r. }
  exists (rest ++ [f (scan f (l1 ++ l2)) a]).
  by rewrite app_assoc, scan_snoc, IH, <-app_assoc.
Qed.

Lemma scan_lookup_prefix {A B} (f : list B → A → B) l1 l2 i :
  i < length l1 → scan f (l1 ++ l2) !! i = scan f l1 !! i.
Proof.
  intros Hi. destruct (scan_app f l1 l2) as [rest ->].
  apply lookup_app_l. by rewrite scan_length.
Qed.

Lemma scan_lookup {A B} (f : list B → A → B) l i a :
  l !! i = Some a → scan f l !! i = Some (f (scan f (take i l)) a).
Proof.
  intros Hi. rewrite <-(take_drop_middle l i a Hi) at 1.
  rewrite cons_middle, app_assoc.
  rewrite scan_lookup_prefix.
  2:{ rewrite length_app, length_take. simpl.
      apply lookup_lt_Some in Hi. lia. }
  rewrite scan_snoc.
  assert (length (scan f (take i l)) = i) as Hlen.
  { rewrite scan_length, length_take. apply lookup_lt_Some in Hi. lia. }
  rewrite lookup_app_r by lia. by rewrite Hlen, Nat.sub_diag.
Qed.

Lemma val_at_prefix (vs vs' : list R) i :
  vs' !! i = vs !! i → val_at vs' i = val_at vs i.
Proof. unfold val_at. by intros ->. Qed.

Lemma values_length h : length (values h) = length h.
Proof. apply scan_length. Qed.

Lemma values_app h new i :
  i < length h → val_at (values (h ++ new)) i = val_at (values h) i.
Proof. intros Hi. apply val_at_prefix. by apply scan_lookup_prefix. Qed.

Lemma node_value_ext (vs vs' : list R) n :
  (∀ i, i ∈ inputs n → val_at vs' i = val_at vs i) →
  node_value vs' n = node_value vs n.
Proof.
  intros Hin. unfold node_value.
  destruct (op n) as [o|]; [|done].
  destruct (inputs n) as [|i [|j [|??]]]; try done.
  rewrite (Hin i), (Hin j); set_solver.
Qed.

(** The equation of [values] on a heap in construction order. *)
Lemma values_eq h a n :
  ordered h → h !! a = Some n →
  val_at (values h) a = node_value (values h) n.
Proof.
  intros Ho Hn. unfold val_at at 1, values at 1.
  rewrite (scan_lookup _ _ _ _ Hn). simpl. fold (values (take a h)).
  apply node_value_ext. intros i Hi.
  assert (i < a) as Hia by (apply Ho; by exists n).
  rewrite <-(take_drop a h) at 2. symmetry. apply values_app.
  rewrite length_take. apply lookup_lt_Some in Hn. lia.
Qed.

Lemma values_outside h a : length h ≤ a → val_at (values h) a = s_int 0.
Proof.
  intros Ha. unfold val_at. rewrite lookup_ge_None_2; [done|].
  by rewrite values_length.
Qed.

Lemma tangents_length x h : length (tangents x h) = length h.
Proof. apply scan_length. Qed.

Lemma node_tangent_ext x (vs ts ts' : list R) a n :
  (∀ i, i ∈ inputs n → val_at ts' i = val_at ts i) →
  node_tangent x vs ts' a n = node_tangent x vs ts a n.
Proof.
  intros Hin. unfold node_tangent.
  destruct (decide (a = x)); [done|].
  destruct (op n) as [o|]; [|done].
  destruct (inputs n) as [|i [|j [|??]]]; try done.
  rewrite (Hin i), (Hin j); set_solver.
Qed.

(** The equation of [tangents] on a heap in construction order. *)
Lemma tangents_eq x h a n :
  ordered h → h !! a = Some n →
  val_at (tangents x h) a = node_tangent x (values h) (tangents x h) a n.
Proof.
  intros Ho Hn. unfold val_at at 1, tangents at 1.
  rewrite (scan_lookup _ _ _ _ Hn). simpl.
  rewrite scan_length, length_take.
  pose proof (lookup_lt_Some _ _ _ Hn) as Ha.
  replace (a `min` length h) with a by lia.
  apply node_tangent_ext. intros i Hi.
  assert (i < a) as Hia by (apply Ho; by exists n).
  apply val_at_prefix. unfold tangents.
  generalize (λ (ts : list R) n0,
                node_tangent x (values h) ts (length ts) n0).
  intros F. rewrite <-(take_drop a h) at 2. symmetry.
  apply scan_lookup_prefix. rewrite length_take. lia.
Qed.

Lemma tangents_outside x h a :
  length h ≤ a → val_at (tangents x h) a = s_int 0.
Proof.
  intros Ha. unfold val_at. rewrite lookup_ge_None_2; [done|].
  by rewrite tangents_length.
Qed.

Lemma scan_ext {A B} (f : list B → A → B) l l' :
  Forall2 (λ a a', ∀ acc, f acc a' = f acc a) l l' → scan f l' = scan f l.
Proof.
  unfold scan. intros H.
  assert (∀ acc0, foldl (λ acc a, acc ++ [f acc a]) acc0 l'
                  = foldl (λ acc a, acc ++ [f acc a]) acc0 l) as Hall;
    [|apply Hall].
  induction H as [|a a' l l' Ha _ IH]; intros acc; [done|].
  simpl. rewrite Ha. apply IH.
Qed.

Lemma node_value_memo (vs : list R) n n' :
  memo n n' → node_value vs n' = node_value vs n.
Proof.
  intros (I & O & V). unfold node_value. rewrite I, O.
  destruct (op n) as [o|]; [done|].
  destruct V as [->|[_ [? ?]]]; done.
Qed.

(** An evaluation changes no value a node stands for. *)
Lemma values_evolves s s' :
  evolves s s' → values (heap s') = values (heap s).
Proof.
  intros (L & G & _). apply scan_ext.
  apply Forall2_same_length_lookup_2; [done|].
  intros a n n' Hn Hn' acc.
  destruct (G a n Hn) as (n'' & Hn'' & Hm).
  rewrite Hn' in Hn''. injection Hn'' as <-. by apply node_value_memo.
Qed.

Lemma coherent_app eqv h new :
  coherent eqv h →
  Forall (λ n, op n = None ∨ value n = None) new →
  coherent eqv (h ++ new).
Proof.
  intros Hco Hnew a n v Hn Ho Hv.
  apply lookup_app_Some in Hn as [Hn|[_ Hn]].
  - rewrite values_app by (by eapply lookup_lt_Some). by eapply Hco.
  - eapply Forall_lookup_1 in Hnew as [Hnone|Hnone]; [| |done].
    + rewrite Hnone in Ho. by destruct Ho.
    + congruence.
Qed.

Lemma fresh_shape_uncached new :
  Forall fresh_shape new →
  Forall (λ n : Node, op n = None ∨ value n = None) new.
Proof.
  intros H. eapply Forall_impl; [exact H|].
  intros n [(_ & ? & _)|(_ & _ & ?)]; [by left|by right].
Qed.

Lemma evolves_ordered s s' :
  evolves s s' → ordered (heap s) → ordered (heap s').
Proof. intros Hev Ho a i He. apply Ho. by apply (evolves_edge s s'). Qed.

Lemma evolves_div_safe s s' :
  evolves s s' → div_safe (heap s) → div_safe (heap s').
Proof.
  intros Hev Hsafe a n' i j Hn' Hop Hin.
  rewrite (values_evolves _ _ Hev).
  destruct (evolves_lookup_inv _ _ _ _ Hev Hn') as (n & Hn & I & O & _).
  apply (Hsafe a n i j Hn); congruence.
Qed.

Lemma values_new h new k n :
  ordered (h ++ new) → new !! k = Some n →
  val_at (values (h ++ new)) (length h + k) = node_value (values (h ++ new)) n.
Proof. intros Ho Hk. apply values_eq; [done|]. by rewrite lookup_fresh. Qed.

Lemma values_new_0 h new n :
  ordered (h ++ new) → new !! 0 = Some n →
  val_at (values (h ++ new)) (length h) = node_value (values (h ++ new)) n.
Proof. intros Ho Hk. apply values_eq; [done|]. by rewrite lookup_fresh_0. Qed.

Lemma values_extends (Q : Node → Prop) s s' i :
  extends Q s s' → i < length (heap s) →
  val_at (values (heap s')) i = val_at (values (heap s)) i.
Proof. intros (new & -> & _) Hi. by apply values_app. Qed.

Lemma div_safe_app h new :
  ordered h → div_safe h →
  (∀ k n i j, new !! k = Some n → op n = Some DivOp → inputs n = [i; j] →
     s_is_zero (val_at (values (h ++ new)) j) = false) →
  div_safe (h ++ new).
Proof.
  intros Ho Hsafe Hnew a n i j Hn Hop Hin.
  apply lookup_app_Some in Hn as [Hn|[_ Hn]]; [|by eapply Hnew].
  rewrite values_app; [by eapply Hsafe|].
  assert (j < a); [|apply lookup_lt_Some in Hn; lia].
  apply Ho. exists n. rewrite Hin. set_solver.
Qed.

(** In the reversed order, a node is met once, before its inputs. *)
Lemma reverse_topo_split h T l1 c l2 :
  NoDup T → inputs_first h T → reverse T = l1 ++ c :: l2 →
  (c ∉ l1) ∧ ∀ i, edge h c i → i ∉ l1.
Proof.
  intros Hnd Hif Hrev.
  assert (T = reverse l2 ++ c :: reverse l1) as ->.
  { rewrite <-(reverse_involutive T), Hrev, reverse_app, reverse_cons.
    by rewrite <-app_assoc. }
  apply NoDup_app in Hnd as (_ & Hdisj & Hnd2).
  apply NoDup_cons in Hnd2 as [Hc _].
  split; [by rewrite elem_of_reverse in Hc|].
  intros i He Hi.
  destruct (Hif (length (reverse l2)) c i) as (k & Hk & Hki); [|done|].
  { by rewrite list_lookup_middle. }
  rewrite lookup_app_l in Hki by done.
  apply list_elem_of_lookup_2 in Hki.
  apply (Hdisj i Hki). right. by apply elem_of_reverse.
Qed.

End Autodiff.

Arguments Node R : clear implicits.
Arguments state R : clear implicits.
Arguments M R A : clear implicits.
Arguments expr R : clear implicits.

(** * Exact rationals and binary64 *)

Section Rationals.

Local Abbreviation main_state := (main_state (R:=Q)).
Local Abbreviation three_input_state := (three_input_state (R:=Q)).
Local Abbreviation disconnected_with_input :=
  (disconnected_with_input (R:=Q)).
Local Abbreviation disconnected_state := (disconnected_state (R:=Q)).

(** ** The numbers of the example *)

(** C1, as the code has it.  With [a = 2] and [b = 3], in exact
    arithmetic: [c.eval()] is [2*2 - 3*3 + 2/3], which is [-13/3] (about
    [-4.333]); the gradient for [a] evaluates to [2*2 + 1/3] and the
    gradient for [b] to [-2*3 - 2/(3*3)].  In binary64: [c.eval()] and the
    gradient for [b] are the floats these expressions compute, and the
    gradient for [a] is next to the float of [2*2 + 1/3], one unit in the
    last place away.  Any fuel from [6] on will do. *)
Theorem main_values_exact k :
  (∃ v va vb,
     (main_values (6 + k) 2%Q 3%Q empty_state).1 = Ok (v, va, vb) ∧
     (v == 2 * 2 - 3 * 3 + 2 / 3)%Q ∧ (v == -13 # 3)%Q ∧
     (va == 2 * 2 + 1 / 3)%Q ∧
     (vb == -2 * 3 - 2 / (3 * 3))%Q) ∧
  (∃ va,
     (main_values (6 + k) 2%float 3%float empty_state).1 =
       Ok ((2 * 2 - 3 * 3 + 2 / 3)%float, va,
           (-2 * 3 - 2 / (3 * 3))%float) ∧
     PrimFloat.eqb va (2 * 2 + 1 / 3)%float = false ∧
     PrimFloat.leb (PrimFloat.abs (va - (2 * 2 + 1 / 3))%float)
                   0x1p-50%float = true).
Proof.
  split.
  - eexists _, _, _. split; [vm_compute; reflexivity|].
    split_and!; vm_compute; reflexivity.
  - eexists. split; [vm_compute; reflexivity|].
    split; vm_compute; reflexivity.
Qed.

(** C1, where the claim fails: [c.eval()] is not about [-4.666]. *)
Lemma c_eval_not_about_minus_4_666 :
  ¬ ∃ v va vb,
      (main_values 6 2%Q 3%Q empty_state).1 = Ok (v, va, vb) ∧
      (- (4667 # 1000) <= v)%Q ∧ (v <= - (4666 # 1000))%Q.
Proof.
  intros (v & va & vb & E & _ & Hle).
  vm_compute in E. injection E as <- _ _.
  revert Hle. apply Qlt_not_le. reflexivity.
Qed.

(** ** Constructing a node of three inputs *)

(** C8, where the claim fails: [Node([a, b, c], addOp)] does not raise.
    It returns a node, and the node evaluates (to [a + b]). *)
Lemma three_inputs_accepted :
  ∃ n s',
    (a ← Leaf 1%Q; b ← Leaf 2%Q; c ← Leaf 3%Q;
     Node_init [a; b; c] (Some AddOp) None) empty_state = (Ok n, s') ∧
    heap s' !! n = Some (mkNode [0; 1; 2] (Some AddOp) None) ∧
    (eval 2 n s').1 = Ok (1 + 2)%Q.
Proof. do 2 eexists. split_and!; reflexivity. Qed.

(** ** Where the hypotheses are needed *)

(** C5, where the claim fails: an acyclic heap on which the walk looks up
    a node that has no entry.  The node at [3] is
    [Node([a, b, m], addOp)] with [m = a * b]: [AddOp.backward] returns two
    gradients, [zip] pairs them with [a] and [b], and [m], which has an
    operator, is reached with nothing in [grads]. *)
Lemma walk_lookup_fails_on_three_inputs :
  closed (heap three_input_state) ∧
  ranked (heap three_input_state) id ∧
  has_op (heap three_input_state) 2 ∧
  (gradients 4 3 [0] three_input_state).1 = Err KeyError.
Proof.
  destruct (orderedb_spec (heap three_input_state) eq_refl) as [Hc Hr].
  split_and!; [done|done| |reflexivity].
  eexists. split; [reflexivity|]. simpl. eauto.
Qed.


(** C7, where the claim fails: the output node is in [wrt] and
    [gradients] returns nothing for it.  On the heap of C5, with the node
    [Node([a, b, m], addOp)] at [3] as output and [wrt = [3]], the walk
    reaches [m] with nothing in [grads] and [gradients] raises
    [KeyError]; with less fuel than the depth of the graph the model stops
    before that, and whatever the fuel it does not return. *)
Lemma output_gradient_raises_on_three_inputs :
  closed (heap three_input_state) ∧
  ranked (heap three_input_state) id ∧
  is_Some (heap three_input_state !! 3) ∧
  [3] !! 0 = Some 3 ∧
  (∀ k, (gradients (3 + k) 3 [3] three_input_state).1 = Err KeyError) ∧
  ∀ fuel, ∃ e, (gradients fuel 3 [3] three_input_state).1 = Err e.
Proof.
  destruct (orderedb_spec (heap three_input_state) eq_refl) as [Hc Hr].
  assert (∀ k, (gradients (3 + k) 3 [3] three_input_state).1 = Err KeyError)
    as Hk by (intros k; vm_compute; reflexivity).
  split_and!; [done|done|by eexists|done|done|].
  intros [|[|[|k]]]; [by eexists; vm_compute..|].
  exists KeyError. apply (Hk k).
Qed.


(** ** The theorems at concrete heaps *)

Lemma backward_rules_witness :
  heap main_state !! 5 = Some (mkNode [0; 1] (Some DivOp) None) ∧
  (backward AddOp 6 5 main_state).1 = Ok [6; 6] ∧
  (backward DivOp 6 5 main_state).1 = Ok [9; 14].
Proof.
  assert (heap main_state !! 5 = Some (mkNode [0; 1] (Some DivOp) None))
    as Hn by reflexivity.
  destruct (backward_rules 6 5 main_state _ 0 1 Hn eq_refl)
    as (HA & _ & _ & (s' & HD & _)).
  split_and!; [done|by rewrite HA|by rewrite HD].
Defined.

Lemma eval_binary_on_leaves_witness :
  s_is_zero 3%Q = false ∧
  ((a ← Leaf 6%Q; b ← Leaf 3%Q; c ← Node_truediv a b; eval 2 c)
     empty_state).1 = Ok (6 / 3)%Q.
Proof.
  assert (s_is_zero 3%Q = false) as Hz by reflexivity.
  split; [done|].
  destruct (eval_binary_on_leaves 6%Q 3%Q empty_state 0) as (_ & _ & _ & HD).
  exact (HD Hz).
Defined.

Lemma topo_order_and_walk_witness :
  closed (heap main_state) ∧ ranked (heap main_state) id ∧
  is_Some (heap main_state !! 6) ∧ id 6 < 7 ∧ arity_ok (heap main_state) ∧
  ∃ V T,
    build_topo (heap main_state ++ [mkNode [] None (Some (s_int 1))]) 7
      (∅, []) 6 = Ok (V, T) ∧
    NoDup T ∧
    ∃ gs s', gradients 7 6 [0; 1] main_state = (Ok gs, s').
Proof.
  destruct (orderedb_spec (heap main_state) eq_refl) as [Hc Hr].
  pose proof (arity_okb_spec (heap main_state) eq_refl) as Har.
  assert (is_Some (heap main_state !! 6)) as Ho by (eexists; reflexivity).
  assert (id 6 < 7) as Hf by (unfold id; lia).
  split_and!; [done..|].
  destruct (topo_order_and_walk id 7 6 [0; 1] main_state Hc Hr Ho Hf)
    as (V & T & E & Hnd & _ & _ & Hwalk).
  destruct (Hwalk Har) as (_ & gs & s' & EG & _).
  exists V, T. split_and!; [done..|]. by exists gs, s'.
Defined.

Lemma eval_memoised_witness :
  let s1 := (eval 4 6 main_state).2 in
  let s2 := (gradients 7 6 [0; 1] s1).2 in
  eval 4 6 main_state = (Ok (-13 # 3)%Q, s1) ∧
  rtc step s1 s2 ∧
  eval 1 6 s2 = (Ok (-13 # 3)%Q, mkState (heap s2) (trace s2 ++ [EvCall 6])).
Proof.
  intros s1 s2.
  assert (eval 4 6 main_state = (Ok (-13 # 3)%Q, s1)) as E by reflexivity.
  assert (rtc step s1 s2) as Hsteps.
  { apply rtc_once. apply step_gradients. }
  split_and!; [done..|].
  destruct (eval_memoised 4 6 main_state _ _ E s2 Hsteps) as [_ Hagain].
  apply Hagain.
Defined.

Lemma output_gradient_is_one_witness :
  closed (heap main_state) ∧ ranked (heap main_state) id ∧
  is_Some (heap main_state !! 6) ∧ id 6 < 7 ∧ arity_ok (heap main_state) ∧
  ∃ gs s',
    gradients 7 6 [0; 6] main_state = (Ok gs, s') ∧
    ∃ g, gs !! 1 = Some g ∧ (eval 1 g s').1 = Ok 1%Q.
Proof.
  destruct (orderedb_spec (heap main_state) eq_refl) as [Hc Hr].
  pose proof (arity_okb_spec (heap main_state) eq_refl) as Har.
  assert (is_Some (heap main_state !! 6)) as Ho by (eexists; reflexivity).
  assert (id 6 < 7) as Hf by (unfold id; lia).
  split_and!; [done..|].
  destruct (output_gradient_is_one id 7 6 [0; 6] main_state Hc Hr Ho Hf)
    as (Hret & Hseed).
  destruct (Hret Har) as (gs & s' & EG).
  destruct (Hseed gs s' EG) as (_ & Hout).
  destruct (Hout 1 eq_refl) as (g & Hg & _ & _ & Hev).
  exists gs, s'. split; [done|]. exists g. split; [done|]. apply Hev.
Defined.

Lemma arity_is_that_of_call_witness :
  length [0; 1; 2] ≠ 2 ∧
  op_apply AddOp [0; 1; 2] main_state = (Err TypeError, main_state).
Proof.
  assert (length [0; 1; 2] ≠ 2) as Hlen by (simpl; lia).
  split; [done|].
  destruct (arity_is_that_of_call AddOp main_state) as (_ & _ & Hargs).
  by apply Hargs.
Defined.


(** ** Gradients of one operator *)

Lemma binary_gradients_truediv_run {R} (Sc : Scalar R) k (x y : R) s :
  heap s = [] →
  s_is_zero y = false → s_is_zero (s_mul y y) = false →
  (binary_gradients Node_truediv (6 + k) x y s).1 =
    Ok (s_mul (s_int 1) (s_div (s_int 1) y),
        s_mul (s_int 1) (s_div (s_mul (s_int (-1)) x) (s_mul y y))).
Proof.
  destruct s as [h t], Sc as [add sub mul div is_zero int]. simpl.
  intros -> Hy Hyy. vm_compute. rewrite Hy. vm_compute. rewrite Hyy.
  vm_compute. reflexivity.
Qed.

Lemma binary_gradients_truediv_zero {R} (Sc : Scalar R) k (x y : R) s :
  heap s = [] → s_is_zero y = true →
  (binary_gradients Node_truediv (6 + k) x y s).1 = Err ZeroDivisionError.
Proof.
  destruct s as [h t], Sc as [add sub mul div is_zero int]. simpl.
  intros -> Hy. vm_compute. rewrite Hy. reflexivity.
Qed.

Lemma Q_is_zero_false (y : Q) : ¬ (y == 0)%Q → s_is_zero y = false.
Proof.
  intros Hy. simpl. destruct (Qeq_bool y 0) eqn:E; [|done].
  by apply Qeq_bool_iff in E.
Qed.

(** X10.  In exact arithmetic, for [c = op(a, b)] over two leaves of
    values [x] and [y] in a fresh heap, the values of
    [gradients(c, [a, b])] are the two partial derivatives of the
    operator: [(1, 1)] for [+], [(1, -1)] for [-], [(y, x)] for [*] and,
    when [y] is not zero, [(1 / y, - x / (y * y))] for [/]; when [y] is
    zero, evaluating the gradients of [a / b] raises
    [ZeroDivisionError]. *)
Theorem operator_gradients_are_partial_derivatives k (x y : Q) (s : state Q) :
  heap s = [] →
  let grads build := (binary_gradients build (6 + k) x y s).1 in
  (∃ va vb, grads Node_add = Ok (va, vb) ∧ (va == 1)%Q ∧ (vb == 1)%Q) ∧
  (∃ va vb, grads Node_sub = Ok (va, vb) ∧ (va == 1)%Q ∧ (vb == -1)%Q) ∧
  (∃ va vb, grads Node_mul = Ok (va, vb) ∧ (va == y)%Q ∧ (vb == x)%Q) ∧
  (¬ (y == 0)%Q →
     ∃ va vb, grads Node_truediv = Ok (va, vb) ∧
       (va == 1 / y)%Q ∧ (vb == - x / (y * y))%Q) ∧
  ((y == 0)%Q → grads Node_truediv = Err ZeroDivisionError).
Proof.
  intros Hs grads. subst grads. cbv beta. split_and!.
  - eexists _, _. split; [by apply binary_gradients_add_run|]. done.
  - eexists _, _. split; [by apply binary_gradients_sub_run|]. done.
  - eexists _, _. split; [by apply binary_gradients_mul_run|].
    simpl. split; ring.
  - intros Hy.
    assert (¬ (y * y == 0)%Q) as Hyy.
    { intros [?|?]%Qmult_integral; done. }
    eexists _, _.
    split; [by apply binary_gradients_truediv_run; [|apply Q_is_zero_false..]|].
    simpl. split; field; done.
  - intros Hy. apply binary_gradients_truediv_zero; [done|].
    simpl. by apply Qeq_bool_iff.
Qed.

(** X11.  In exact arithmetic, for [c = a * a] over a leaf of value [x]
    in a fresh heap: [gradients(c, [a])[0]] evaluates to [2 * x], the two
    contributions of the one input added, and the gradient of that
    gradient with respect to [a] evaluates to [2]. *)
Theorem square_gradients k (x : Q) (s : state Q) :
  heap s = [] →
  (∃ v, (square_gradient (6 + k) x s).1 = Ok v ∧ (v == 2 * x)%Q) ∧
  (∃ v, (square_second_gradient (6 + k) x s).1 = Ok v ∧ (v == 2)%Q).
Proof.
  intros Hs. split.
  - eexists. split; [by apply square_gradient_run|]. simpl. ring.
  - eexists. split; [by apply square_second_gradient_run|]. done.
Qed.

(** ** Evaluation computes the value a node stands for *)

Tactic Notation "split_bind" hyp(E) "as" ident(x) ident(s1) ident(E1) :=
  let Hr := fresh in
  let err := fresh "err" in
  apply bind_inv in E as [(x & s1 & E1 & E)|(err & E & Hr)];
  [|first [discriminate Hr | injection Hr as <-
          | try rewrite Hr in *; clear Hr]].

Lemma apply_op_proper o (x x' y y' : Q) :
  (x == x')%Q → (y == y')%Q → (apply_op o x y == apply_op o x' y')%Q.
Proof. intros Hx Hy. destruct o; simpl; by rewrite Hx, Hy. Qed.

Lemma forward_sound o (x y : Q) :
  match forward o [x; y] with
  | Ok v => v = apply_op o x y
  | Err e => e = ZeroDivisionError ∧ o = DivOp ∧ (y == 0)%Q
  end.
Proof.
  destruct o; try done.
  unfold forward, index. simpl.
  destruct (Qeq_bool y 0) eqn:E; [|done].
  split_and!; [done..|]. by apply Qeq_bool_iff.
Qed.

Lemma mapM_eval_sound fuel l :
  (∀ a (s : state Q) r s',
     ordered (heap s) → arity_ok (heap s) → coherent Qeq (heap s) →
     eval fuel a s = (r, s') →
     coherent Qeq (heap s') ∧
     match r with
     | Ok v => (v == val_at (values (heap s)) a)%Q
     | Err e => e = ZeroDivisionError → ¬ div_safe (heap s)
     end) →
  ∀ (s : state Q) r s',
    ordered (heap s) → arity_ok (heap s) → coherent Qeq (heap s) →
    mapM (eval fuel) l s = (r, s') →
    coherent Qeq (heap s') ∧
    match r with
    | Ok vs => Forall2 (λ v i, (v == val_at (values (heap s)) i)%Q) vs l
    | Err e => e = ZeroDivisionError → ¬ div_safe (heap s)
    end.
Proof.
  intros Hev. induction l as [|a l IH]; intros s r s' Ho Har Hco E.
  { injection E as <- <-. split; [done|constructor]. }
  simpl in E. split_bind E as y s1 E1.
  2:{ by apply (Hev a s (Err err) s'). }
  destruct (Hev a s (Ok y) s1 Ho Har Hco E1) as [Hco1 Hy].
  pose proof (eval_evolves _ _ _ _ _ E1) as Hevo.
  pose proof (values_evolves _ _ Hevo) as HV.
  assert (ordered (heap s1)) as Ho1 by (by eapply evolves_ordered).
  assert (arity_ok (heap s1)) as Har1 by (by eapply evolves_arity_ok).
  split_bind E as ys s2 E2.
  - destruct (IH s1 (Ok ys) s2 Ho1 Har1 Hco1 E2) as [Hco2 Hys].
    injection E as <- <-. split; [done|].
    constructor; [done|]. by rewrite <-HV.
  - destruct (IH s1 (Err err) s' Ho1 Har1 Hco1 E) as [Hco2 Herr].
    split; [done|]. intros He Hsafe. apply (Herr He).
    by eapply evolves_div_safe.
Qed.

Lemma eval_sound fuel a (s : state Q) r s' :
  ordered (heap s) → arity_ok (heap s) → coherent Qeq (heap s) →
  eval fuel a s = (r, s') →
  coherent Qeq (heap s') ∧
  match r with
  | Ok v => (v == val_at (values (heap s)) a)%Q
  | Err e => e = ZeroDivisionError → ¬ div_safe (heap s)
  end.
Proof.
  revert a s r s'. induction fuel as [|fuel IH]; intros a s r s' Ho Har Hco E.
  { injection E as <- <-. split; [done|]. by intros [=]. }
  pose proof (eval_evolves _ _ _ _ _ E) as Hevo.
  pose proof (values_evolves _ _ Hevo) as HV.
  rewrite eval_unfold in E.
  split_bind E as u s0 E0; [|by apply emit_inv in E as [[=] _]].
  apply emit_inv in E0 as [_ ->].
  set (sc0 := mkState (heap s) (trace s ++ [EvCall a])) in *.
  split_bind E as n0 s1 E1.
  2:{ apply get_node_inv in E as [-> [(? & _ & [=])|[_ [= ->]]]].
      split; [done|]. by intros [=]. }
  apply get_node_inv in E1 as [-> [(? & Hn & [= <-])|[_ [=]]]].
  cbn [heap sc0] in Hn.
  destruct (value n0) as [v|] eqn:Hv.
  { injection E as <- <-. split; [done|].
    destruct (op n0) as [o|] eqn:Hop.
    - eapply Hco; [done| |done]. by rewrite Hop.
    - rewrite (values_eq _ _ _ Ho Hn). unfold node_value.
      by rewrite Hop, Hv. }
  split_bind E as vals s1 E1.
  2:{ by apply (mapM_eval_sound fuel (inputs n0) IH sc0 (Err err) s'). }
  destruct (mapM_eval_sound fuel (inputs n0) IH sc0 (Ok vals) s1 Ho Har Hco E1)
    as [Hco1 Hvals].
  assert (evolves sc0 s1) as Hevo1.
  { eapply (preserves_mapM evolves); [|exact E1]. intros; apply eval_evolves. }
  pose proof (values_evolves _ _ Hevo1) as HV1.
  change (heap sc0) with (heap s) in *.
  destruct Hevo1 as (_ & G & _).
  destruct (G _ _ Hn) as (n' & Hn' & I & O & _).
  split_bind E as n'' s2 E2.
  2:{ unfold get_node in E. rewrite Hn' in E. done. }
  unfold get_node in E2. rewrite Hn' in E2. injection E2 as <- <-.
  rewrite O in E. pose proof (Har _ _ Hn) as Hshape.
  destruct (op n0) as [o|] eqn:Hop.
  2:{ injection E as <- <-. split; [done|]. by intros [=]. }
  destruct (inputs n0) as [|i [|j [|??]]] eqn:Hin; try done.
  apply Forall2_cons_inv_r in Hvals as (vi & vals' & Hvi & Hvals & ->).
  apply Forall2_cons_inv_r in Hvals as (vj & vals'' & Hvj & Hvals & ->).
  apply Forall2_nil_inv_r in Hvals as ->.
  split_bind E as u' s3 E3; [|by apply emit_inv in E as [[=] _]].
  apply emit_inv in E3 as [_ ->].
  pose proof (forward_sound o vi vj) as Hfw.
  unfold lift in E.
  destruct (forward o [vi; vj]) as [v|e] eqn:Ef.
  - erewrite bind_ok in E by reflexivity.
    unfold set_value in E. erewrite bind_ok in E by reflexivity.
    injection E as <- <-. cbn [heap] in *.
    assert (v == val_at (values (heap s)) a)%Q as Hval.
    { rewrite (values_eq _ _ _ Ho Hn). unfold node_value. rewrite Hop, Hin.
      subst v. by apply apply_op_proper. }
    split; [|done].
    intros b nb vb Hb Hob Hvb. rewrite HV.
    destruct (decide (b = a)) as [->|Hne].
    + rewrite list_lookup_alter_eq, Hn' in Hb. simpl in Hb.
      injection Hb as <-. simpl in Hvb. by injection Hvb as <-.
    + rewrite list_lookup_alter_ne in Hb by done.
      rewrite <-HV1. by eapply Hco1.
  - erewrite bind_err in E by reflexivity. injection E as <- <-.
    split; [done|]. intros _ Hsafe. destruct Hfw as (_ & -> & Hz).
    pose proof (Hsafe _ _ _ _ Hn Hop Hin) as Hnz. simpl in Hnz.
    rewrite Hvj in Hz. apply Qeq_bool_iff in Hz. congruence.
Qed.

(** ** Sums of rationals *)

Lemma sum_below_ext (f f' : nat → Q) n :
  (∀ k, k < n → (f k == f' k)%Q) → (sum_below f n == sum_below f' n)%Q.
Proof.
  induction n as [|n IH]; intros Hf; [done|]. simpl.
  rewrite IH by (intros; apply Hf; lia). by rewrite (Hf n) by lia.
Qed.

Lemma sum_below_plus (f f' : nat → Q) n :
  (sum_below (λ k, f k + f' k) n == sum_below f n + sum_below f' n)%Q.
Proof. induction n as [|n IH]; simpl; [done|]. rewrite IH. ring. Qed.

Lemma sum_below_zero (f : nat → Q) n :
  (∀ k, k < n → (f k == 0)%Q) → (sum_below f n == 0)%Q.
Proof.
  induction n as [|n IH]; intros Hf; [done|]. simpl.
  rewrite IH by (intros; apply Hf; lia). rewrite (Hf n) by lia. ring.
Qed.

Lemma sum_below_single (u : Q) a n :
  a < n → (sum_below (λ k, if decide (k = a) then u else 0) n == u)%Q.
Proof.
  induction n as [|n IH]; intros Ha; [lia|]. simpl.
  destruct (decide (n = a)) as [->|Hne].
  - rewrite sum_below_zero; [ring|].
    intros k Hk. destruct (decide (k = a)); [lia|done].
  - rewrite IH by lia. ring.
Qed.

(** Taking the node [c] out of the sum over the nodes still to come. *)
Lemma sum_below_seen (G t : nat → Q) (L : list nat) c n :
  c < n → c ∉ L →
  (sum_below (λ k, if decide (k ∈ L) then 0 else G k * t k) n ==
   sum_below (λ k, if decide (k ∈ c :: L) then 0 else G k * t k) n
   + G c * t c)%Q.
Proof.
  intros Hc HcL.
  rewrite <-(sum_below_single (G c * t c) c n Hc).
  rewrite <-sum_below_plus. apply sum_below_ext. intros k _.
  destruct (decide (k = c)) as [->|Hne].
  - rewrite decide_False by done. rewrite decide_True by set_solver. ring.
  - destruct (decide (k ∈ L)).
    + rewrite decide_True by set_solver. ring.
    + rewrite decide_False by set_solver. ring.
Qed.

(** Adding [A] to the gradient of [a] and [B] to that of [b], two nodes
    still to come. *)
Lemma sum_below_add (G G' t : nat → Q) (L : list nat) a b A B n :
  a < n → b < n → a ∉ L → b ∉ L →
  (∀ k, (G' k == G k + (if decide (k = a) then A else 0)
                    + (if decide (k = b) then B else 0))%Q) →
  (sum_below (λ k, if decide (k ∈ L) then 0 else G' k * t k) n ==
   sum_below (λ k, if decide (k ∈ L) then 0 else G k * t k) n
   + A * t a + B * t b)%Q.
Proof.
  intros Ha Hb HaL HbL HG.
  rewrite <-(sum_below_single (A * t a) a n Ha).
  rewrite <-(sum_below_single (B * t b) b n Hb).
  rewrite <-!sum_below_plus. apply sum_below_ext. intros k _.
  destruct (decide (k ∈ L)) as [Hin|Hin].
  - destruct (decide (k = a)) as [Hka|?]; [by subst|].
    destruct (decide (k = b)) as [Hkb|?]; [by subst|]. ring.
  - rewrite HG.
    destruct (decide (k = a)) as [Hka|?], (decide (k = b)) as [Hkb|?];
      subst; ring.
Qed.

(** ** Derivatives below, at and above a node *)

Lemma tangent_outside_0 x (h : list (Node Q)) a :
  length h ≤ a → (val_at (tangents x h) a == 0)%Q.
Proof. intros Ha. by rewrite tangents_outside. Qed.

Lemma tangent_below x (h : list (Node Q)) a :
  ordered h → a < x → (val_at (tangents x h) a == 0)%Q.
Proof.
  intros Ho. induction a as [a IH] using lt_wf_ind. intros Hax.
  destruct (h !! a) as [n|] eqn:Hn.
  2:{ apply tangent_outside_0. by apply lookup_ge_None. }
  rewrite (tangents_eq _ _ _ _ Ho Hn). unfold node_tangent.
  rewrite decide_False by lia.
  destruct (op n) as [o|]; [|done].
  destruct (inputs n) as [|i [|j [|??]]] eqn:Hin; try done.
  assert (i < a ∧ j < a) as [Hi Hj].
  { split; apply Ho; exists n; rewrite Hin; set_solver. }
  simpl. rewrite (IH i), (IH j) by lia. ring.
Qed.

Lemma tangent_self x (h : list (Node Q)) :
  ordered h → x < length h → (val_at (tangents x h) x == 1)%Q.
Proof.
  intros Ho Hx. destruct (lookup_lt_is_Some_2 h x Hx) as [n Hn].
  rewrite (tangents_eq _ _ _ _ Ho Hn). unfold node_tangent.
  by rewrite decide_True.
Qed.

Lemma tangent_leaf x (h : list (Node Q)) c n :
  ordered h → h !! c = Some n → op n = None → c ≠ x →
  (val_at (tangents x h) c == 0)%Q.
Proof.
  intros Ho Hn Hop Hcx. rewrite (tangents_eq _ _ _ _ Ho Hn).
  unfold node_tangent. rewrite decide_False by done. by rewrite Hop.
Qed.

Lemma tangent_op x (h : list (Node Q)) c n o a b :
  ordered h → h !! c = Some n → op n = Some o → inputs n = [a; b] → c ≠ x →
  (val_at (tangents x h) c ==
   (partials o (val_at (values h) a) (val_at (values h) b)).1
     * val_at (tangents x h) a
   + (partials o (val_at (values h) a) (val_at (values h) b)).2
     * val_at (tangents x h) b)%Q.
Proof.
  intros Ho Hn Hop Hin Hcx. rewrite (tangents_eq _ _ _ _ Ho Hn) at 1.
  unfold node_tangent. rewrite decide_False by done. by rewrite Hop, Hin.
Qed.

(** ** The values of the gradients built *)

Lemma Q_is_zero_square (y : Q) :
  s_is_zero y = false → s_is_zero (y * y)%Q = false.
Proof.
  simpl. intros Hy. destruct (Qeq_bool (y * y) 0) eqn:E; [|done].
  apply Qeq_bool_iff, Qmult_integral in E.
  assert (y == 0)%Q as Hz by (by destruct E).
  apply Qeq_bool_iff in Hz. congruence.
Qed.

Lemma backward_values o og c (s : state Q) n a b :
  ordered (heap s) → heap s !! c = Some n → op n = Some o →
  inputs n = [a; b] → og < length (heap s) →
  ∃ g0 g1 s',
    backward o og c s = (Ok [g0; g1], s') ∧
    extends fresh_shape s s' ∧ ordered (heap s') ∧
    g0 < length (heap s') ∧ g1 < length (heap s') ∧
    (val_at (values (heap s')) g0 ==
     val_at (values (heap s)) og
     * (partials o (val_at (values (heap s)) a)
                   (val_at (values (heap s)) b)).1)%Q ∧
    (val_at (values (heap s')) g1 ==
     val_at (values (heap s)) og
     * (partials o (val_at (values (heap s)) a)
                   (val_at (values (heap s)) b)).2)%Q ∧
    (div_safe (heap s) → div_safe (heap s')).
Proof.
  intros Ho Hn Hop Hin Hog.
  assert (a < c ∧ b < c) as [Ha Hb].
  { split; apply Ho; exists n; rewrite Hin; set_solver. }
  pose proof (lookup_lt_Some _ _ _ Hn) as Hc.
  destruct (backward_ordered o og c s n a b Ho Hn Hin Hog)
    as (g0 & g1 & s' & E & X & Ho' & H0 & H1).
  exists g0, g1, s'. do 5 (split; [done|]).
  destruct o.
  - injection E as <- <- <-. simpl. split_and!; [ring|ring|done].
  - rewrite backward_SubOp_run in E. injection E as <- <- <-.
    cbn [heap] in *.
    split_and!.
    + rewrite values_app by done. simpl. ring.
    + rewrite (values_new _ _ 1 _ Ho' eq_refl). unfold node_value. simpl.
      rewrite (values_new_0 _ _ _ Ho' eq_refl). unfold node_value. simpl.
      rewrite values_app by done. ring.
    + intros Hsafe. apply div_safe_app; [done..|].
      intros [|[|k]] ??? [=] [=]; subst; done.
  - rewrite (backward_MulOp_run og c s n a b Hn Hin) in E.
    injection E as <- <- <-. cbn [heap] in *.
    split_and!.
    + rewrite (values_new_0 _ _ _ Ho' eq_refl). unfold node_value. simpl.
      rewrite !values_app by lia. ring.
    + rewrite (values_new _ _ 1 _ Ho' eq_refl). unfold node_value. simpl.
      rewrite !values_app by lia. ring.
    + intros Hsafe. apply div_safe_app; [done..|].
      intros [|[|k]] ??? [=] [=]; subst; done.
  - rewrite (backward_DivOp_run og c s n a b Hn Hin) in E.
    injection E as <- <- <-. cbn [heap] in *.
    match type of Ho' with ordered (_ ++ ?l) => set (new := l) in * end.
    pose proof (values_new_0 _ new _ Ho' eq_refl) as V0.
    pose proof (values_new _ new 1 _ Ho' eq_refl) as V1.
    pose proof (values_new _ new 2 _ Ho' eq_refl) as V2.
    pose proof (values_new _ new 3 _ Ho' eq_refl) as V3.
    pose proof (values_new _ new 4 _ Ho' eq_refl) as V4.
    pose proof (values_new _ new 5 _ Ho' eq_refl) as V5.
    pose proof (values_new _ new 6 _ Ho' eq_refl) as V6.
    pose proof (values_new _ new 7 _ Ho' eq_refl) as V7.
    unfold node_value in V0, V1, V2, V3, V4, V5, V6, V7.
    cbn [op inputs value apply_op default] in V0, V1, V2, V3, V4, V5, V6, V7.
    rewrite V0 in V1. rewrite V3 in V4. rewrite V4, V5 in V6.
    rewrite V1 in V2. rewrite V6 in V7.
    pose proof (values_app (heap s) new og Hog) as Eog.
    pose proof (values_app (heap s) new a ltac:(lia)) as Ea.
    pose proof (values_app (heap s) new b ltac:(lia)) as Eb.
    rewrite Eog, Eb in V2. rewrite Eb in V5. rewrite Eog, Ea, Eb in V7.
    split_and!.
    + rewrite V2. simpl. reflexivity.
    + rewrite V7. simpl. reflexivity.
    + intros Hsafe. pose proof (Hsafe _ _ _ _ Hn Hop Hin) as Hnz.
      apply div_safe_app; [done..|].
      intros k nk i j Hk Hopk Hink.
      destruct k as [|[|[|[|[|[|[|[|k]]]]]]]]; simpl in Hk; try done;
        injection Hk as <-; try done; injection Hink as <- <-.
      * by rewrite Eb.
      * rewrite V5. by apply Q_is_zero_square.
Qed.

(** [ring], after the operations of the scalars have been read as those
    of the rationals. *)
Ltac qring :=
  cbn [s_add s_sub s_mul s_div s_int Q_scalar fst snd partials]; unfold inject_Z;
  ring.

Lemma grad_value_extends (P : Node Q → Prop) (g : gmap nat nat)
    (s s' : state Q) k :
  extends P s s' → grads_valid g s →
  grad_value g (values (heap s')) k = grad_value g (values (heap s)) k.
Proof.
  intros X Hg. unfold grad_value. destruct (g !! k) as [r|] eqn:Hr; [|done].
  eapply values_extends; [done|]. by eapply Hg.
Qed.

Lemma accumulate_values (g : gmap nat nat) k r (s : state Q) g' s' :
  ordered (heap s) → grads_valid g s → r < length (heap s) →
  accumulate g (k, r) s = (Ok g', s') →
  extends fresh_shape s s' ∧ ordered (heap s') ∧ grads_valid g' s' ∧
  (∀ k', is_Some (g' !! k') → k' = k ∨ is_Some (g !! k')) ∧
  (∀ k', (grad_value g' (values (heap s')) k' ==
          grad_value g (values (heap s)) k'
          + (if decide (k' = k) then val_at (values (heap s)) r else 0))%Q) ∧
  (div_safe (heap s) → div_safe (heap s')).
Proof.
  intros Ho Hg Hr E.
  destruct (accumulate_ordered g (k, r) s g' s' Ho Hg Hr E) as [Ho' Hg'].
  pose proof (accumulate_fresh _ _ _ _ _ E) as X.
  do 3 (split; [done|]).
  unfold accumulate in E. cbn [fst snd] in E.
  destruct (g !! k) as [e|] eqn:He.
  - unfold Node_add, op_call, Node_init in E.
    erewrite bind_ok in E by apply alloc_run. injection E as <- <-.
    cbn [heap] in *. pose proof (Hg _ _ He) as Hlt.
    split_and!.
    + intros k'. destruct (decide (k' = k)) as [->|Hne]; [by left|].
      rewrite lookup_insert_ne by done. by right.
    + intros k'. unfold grad_value.
      destruct (decide (k' = k)) as [->|Hne].
      * rewrite lookup_insert_eq, He.
        rewrite (values_new_0 _ _ _ Ho' eq_refl). unfold node_value. simpl.
        by rewrite !values_app by done.
      * rewrite lookup_insert_ne by done.
        destruct (g !! k') as [r'|] eqn:Hr'; [|qring].
        rewrite values_app by (by eapply Hg). qring.
    + intros Hsafe. apply div_safe_app; [done..|].
      intros [|?] ??? [=] [=]; subst; done.
  - injection E as <- <-. split_and!; [| |done].
    + intros k'. destruct (decide (k' = k)) as [->|Hne]; [by left|].
      rewrite lookup_insert_ne by done. by right.
    + intros k'. unfold grad_value.
      destruct (decide (k' = k)) as [->|Hne].
      * rewrite lookup_insert_eq, He. qring.
      * rewrite lookup_insert_ne by done. qring.
Qed.

(** ** The reverse walk accumulates derivatives *)

Lemma propagate_inv (h0 : list (Node Q)) x out L (g : gmap nat nat)
    (s : state Q) c g' s' :
  ordered h0 → arity_ok h0 →
  walk_inv Qeq h0 x out L g s →
  c < length h0 → c ∉ L → (∀ i, edge h0 c i → i ∉ L) →
  propagate g c s = (Ok g', s') →
  walk_inv Qeq h0 x out (c :: L) g' s'.
Proof.
  intros Ho0 Har0 ((new & Hh) & Ho & Hg & Hdom & Hsafe & Hpend) Hc HcL Hin E.
  destruct (lookup_lt_is_Some_2 h0 c Hc) as [n Hn0].
  assert (heap s !! c = Some n) as Hn.
  { rewrite Hh. by apply lookup_app_l_Some. }
  unfold propagate in E.
  erewrite bind_ok in E by (unfold get_node; by rewrite Hn).
  pose proof (Har0 _ _ Hn0) as Hshape.
  destruct (op n) as [o|] eqn:Hop.
  2:{ injection E as <- <-.
      split_and!; [by exists new|done..|].
      apply (Qeq_trans _ _ _ Hpend). unfold pending.
      cbn [s_add s_mul s_int Q_scalar]. unfold inject_Z.
      rewrite (sum_below_seen (grad_value g (values (heap s)))
                 (val_at (tangents x h0)) L c (length h0) Hc HcL).
      destruct (decide (c = x)) as [->|Hcx].
      - rewrite (tangent_self x h0 Ho0 Hc).
        rewrite decide_False by done. rewrite decide_True by set_solver.
        ring.
      - rewrite (tangent_leaf x h0 c n Ho0 Hn0 Hop Hcx).
        destruct (decide (x ∈ L)).
        + rewrite decide_True by set_solver. ring.
        + rewrite decide_False by set_solver. ring. }
  destruct (inputs n) as [|a [|b [|??]]] eqn:Hi; try done.
  assert (a < c ∧ b < c) as [Hac Hbc].
  { split; apply Ho0; exists n; rewrite Hi; set_solver. }
  assert ((a ∉ c :: L) ∧ (b ∉ c :: L)) as [HaL HbL].
  { split; (apply not_elem_of_cons; split; [lia|]);
      apply Hin; exists n; rewrite Hi; set_solver. }
  unfold grads_get in E. destruct (g !! c) as [og|] eqn:Hog.
  2:{ by erewrite bind_err in E by reflexivity. }
  erewrite bind_ok in E by reflexivity.
  destruct (backward_values o og c s n a b Ho Hn Hop Hi (Hg _ _ Hog))
    as (g0 & g1 & s1 & E1 & X1 & Ho1 & H0 & H1 & Hv0 & Hv1 & Hs1).
  erewrite bind_ok in E by exact E1.
  erewrite bind_ok in E; [|unfold get_node; by erewrite extends_lookup].
  rewrite Hi in E. simpl in E.
  assert (grads_valid g s1) as Hg1.
  { intros k r Hk. pose proof (Hg _ _ Hk).
    pose proof (extends_length _ _ _ X1). lia. }
  split_bind E as ga s2 E2.
  destruct (accumulate_values g a g0 s1 ga s2 Ho1 Hg1 H0 E2)
    as (X2 & Ho2 & Hg2 & Hd2 & Hv2 & Hs2).
  pose proof (extends_length _ _ _ X2) as Hlen2.
  split_bind E as gb s3 E3.
  destruct (accumulate_values ga b g1 s2 gb s3 Ho2 Hg2 ltac:(lia) E3)
    as (X3 & Ho3 & Hg3 & Hd3 & Hv3 & Hs3).
  injection E as <- <-.
  assert (extends fresh_shape s s3) as X by (etrans; [|etrans]; done).
  split_and!.
  - destruct X as (new' & -> & _). rewrite Hh. exists (new ++ new').
    by rewrite app_assoc.
  - done.
  - done.
  - intros k [->|[->|Hk]%Hd2]%Hd3; [lia|lia|by apply Hdom].
  - tauto.
  - apply (Qeq_trans _ _ _ Hpend). unfold pending.
    cbn [s_add s_mul s_int Q_scalar]. unfold inject_Z.
    assert (val_at (values (heap s)) a = val_at (values h0) a) as Ea.
    { rewrite Hh. apply values_app. lia. }
    assert (val_at (values (heap s)) b = val_at (values h0) b) as Eb.
    { rewrite Hh. apply values_app. lia. }
    rewrite Ea, Eb in Hv0, Hv1.
    assert (grad_value g (values (heap s)) c = val_at (values (heap s)) og)
      as Gc.
    { unfold grad_value. by rewrite Hog. }
    assert (∀ k,
      (grad_value gb (values (heap s3)) k ==
       grad_value g (values (heap s)) k
       + (if decide (k = a)
          then val_at (values (heap s)) og
               * (partials o (val_at (values h0) a) (val_at (values h0) b)).1
          else 0)
       + (if decide (k = b)
          then val_at (values (heap s)) og
               * (partials o (val_at (values h0) a) (val_at (values h0) b)).2
          else 0))%Q) as HG.
    { intros k. rewrite Hv3, Hv2.
      rewrite (grad_value_extends _ g s s1 k X1 Hg).
      rewrite (values_extends _ s1 s2 g1 X2 H1).
      destruct (decide (k = a)), (decide (k = b));
        rewrite ?Hv0, ?Hv1; ring. }
    rewrite (sum_below_add _ _ (val_at (tangents x h0)) (c :: L) a b _ _
               (length h0) ltac:(lia) ltac:(lia) HaL HbL HG).
    rewrite (sum_below_seen (grad_value g (values (heap s)))
               (val_at (tangents x h0)) L c (length h0) Hc HcL).
    rewrite Gc.
    destruct (decide (c = x)) as [->|Hcx].
    + rewrite (tangent_self x h0 Ho0 Hc).
      rewrite (tangent_below x h0 a Ho0 Hac), (tangent_below x h0 b Ho0 Hbc).
      rewrite decide_False by done. rewrite decide_True by set_solver.
      rewrite (HG x), Gc. rewrite !decide_False by lia. ring.
    + rewrite (tangent_op x h0 c n o a b Ho0 Hn0 Hop Hi Hcx).
      destruct (decide (x ∈ L)) as [HxL|HxL].
      * rewrite decide_True by set_solver. rewrite (HG x).
        rewrite !decide_False by (intros ->; set_solver). ring.
      * rewrite decide_False by set_solver. ring.
Qed.

Lemma walk_inv_foldM (h0 : list (Node Q)) x out l :
  ordered h0 → arity_ok h0 →
  ∀ L (g : gmap nat nat) (s : state Q) g' s',
    walk_inv Qeq h0 x out L g s →
    (∀ l1 c l2, l = l1 ++ c :: l2 →
       c < length h0 ∧ (c ∉ L) ∧ (c ∉ l1) ∧
       ∀ i, edge h0 c i → (i ∉ L) ∧ (i ∉ l1)) →
    foldM propagate g l s = (Ok g', s') →
    walk_inv Qeq h0 x out (reverse l ++ L) g' s'.
Proof.
  intros Ho0 Har0. induction l as [|c l IH]; intros L g s g' s' Hinv Hl E.
  { by injection E as <- <-. }
  simpl in E. split_bind E as g1 s1 E1.
  destruct (Hl [] c l eq_refl) as (Hc & HcL & _ & Hin).
  assert (walk_inv Qeq h0 x out (c :: L) g1 s1) as Hinv1.
  { eapply propagate_inv; [done..| |done]. intros i Hi. by apply Hin. }
  rewrite reverse_cons, <-app_assoc. simpl.
  apply (IH (c :: L) g1 s1); [done| |done].
  intros l1 c' l2 ->.
  destruct (Hl (c :: l1) c' l2 eq_refl) as (Hc' & Hc'L & Hc'l & Hin').
  apply not_elem_of_cons in Hc'l as [? ?].
  split_and!; [done|set_solver|done|].
  intros i Hi. destruct (Hin' i Hi) as [? [? ?]%not_elem_of_cons].
  split; [set_solver|done].
Qed.

(** [gradients] on a heap in construction order: what it returns for a
    node [x] of [wrt] stands for the derivative of [out] with respect to
    [x]. *)
Lemma gradients_tangent fuel out wrt (s : state Q) :
  ordered (heap s) → arity_ok (heap s) →
  out < length (heap s) → out < fuel →
  ∃ gs s',
    gradients fuel out wrt s = (Ok gs, s') ∧
    extends fresh_shape s s' ∧ ordered (heap s') ∧ arity_ok (heap s') ∧
    (div_safe (heap s) → div_safe (heap s')) ∧
    ∀ i x, wrt !! i = Some x →
      ∃ r, gs !! i = Some r ∧ r < length (heap s') ∧
        (val_at (values (heap s')) r == val_at (tangents x (heap s)) out)%Q.
Proof.
  intros Ho Har Hout Hf.
  destruct (gradients_ordered_run fuel out wrt s Ho Har Hout Hf)
    as (gs & s' & EG & X & Ho' & Har' & Hlen & Hgs).
  exists gs, s'. do 4 (split; [done|]).
  pose proof (ordered_closed _ Ho) as Hc.
  pose proof (ordered_ranked _ Ho) as Hr.
  assert (is_Some (heap s !! out)) as Hsome by (by apply lookup_lt_is_Some).
  destruct (gradients_inv (λ x, x) fuel out wrt s gs s' Hc Hr Hsome Hf EG)
    as (V & T & g & s2 & ET & Hreach & EW & Hlen2 & Hnone & Hgs' & Hs').
  set (hb := heap s ++ [mkNode [] None (Some (s_int 1))]) in *.
  assert (ordered hb) as Hob.
  { apply ordered_app; [done|].
    intros [|?] ?? [=] Hi; subst. by apply elem_of_nil in Hi. }
  destruct (build_topo_spec hb (λ x, x) (ordered_closed _ Hob)
              (ordered_ranked _ Hob) fuel out Hf)
    as (V' & T' & ET' & Hnd & _ & Hif).
  { apply lookup_lt_is_Some. subst hb. rewrite length_app. lia. }
  rewrite ET in ET'. injection ET' as <- <-.
  assert (∀ c, c ∈ T → c < length (heap s)) as HT.
  { intros c Hc'%Hreach.
    apply rtc_inv_r in Hc' as [<-|(c' & _ & He)]; [done|].
    by apply lookup_lt_is_Some, (Hc c' c). }
  assert (∀ x, walk_inv Qeq (heap s) x out [] {[out := length (heap s)]}
                 (mkState hb (trace s))) as Hinit.
  { intros x. split_and!.
    - by eexists.
    - done.
    - intros k r [<- <-]%lookup_singleton_Some. cbn [heap]. subst hb.
      rewrite length_app. simpl. lia.
    - intros k [r [<- _]%lookup_singleton_Some]. done.
    - intros Hsafe. apply div_safe_app; [done..|].
      intros [|?] ??? [=] [=]; subst; done.
    - unfold pending. cbn [heap s_add s_mul s_int Q_scalar]. unfold inject_Z.
      rewrite decide_False by apply not_elem_of_nil.
      rewrite (sum_below_ext _
                 (λ k, if decide (k = out)
                       then val_at (tangents x (heap s)) out else 0%Q)).
      { rewrite sum_below_single by done. ring. }
      intros k _. rewrite decide_False by apply not_elem_of_nil.
      unfold grad_value. destruct (decide (k = out)) as [->|Hne].
      + rewrite lookup_singleton_eq.
        rewrite (values_new_0 _ _ _ Hob eq_refl). unfold node_value. simpl.
        ring.
      + rewrite lookup_singleton_ne by done. qring. }
  assert (∀ l1 c l2, reverse T = l1 ++ c :: l2 →
            c < length (heap s) ∧ (c ∉ []) ∧ (c ∉ l1) ∧
            ∀ i, edge (heap s) c i → (i ∉ []) ∧ (i ∉ l1)) as Hsplit.
  { intros l1 c l2 Hrev.
    destruct (reverse_topo_split hb T l1 c l2 Hnd Hif Hrev) as [Hc1 Hin].
    split_and!; [|apply not_elem_of_nil|done|].
    - apply HT, elem_of_reverse. rewrite Hrev. set_solver.
    - intros i Hi. split; [apply not_elem_of_nil|].
      apply Hin. by apply edge_snoc_leaf. }
  split.
  { intros Hsafe.
    destruct (walk_inv_foldM (heap s) 0 out (reverse T) Ho Har []
                _ _ g s2 (Hinit 0) Hsplit EW) as (_ & _ & _ & _ & Hs2 & _).
    rewrite Hs'. cbn [heap]. apply div_safe_app; [|by apply Hs2|].
    - destruct (walk_inv_foldM (heap s) 0 out (reverse T) Ho Har []
                  _ _ g s2 (Hinit 0) Hsplit EW) as (_ & Ho2 & _). done.
    - intros k nk i j [-> _]%lookup_replicate [=]. }
  intros i x Hi.
  destruct (walk_inv_foldM (heap s) x out (reverse T) Ho Har []
              _ _ g s2 (Hinit x) Hsplit EW)
    as (_ & Ho2 & Hg2 & _ & _ & Hpend).
  assert (val_at (tangents x (heap s)) out
          == grad_value g (values (heap s2)) x)%Q as Hx.
  { apply (Qeq_trans _ _ _ Hpend). unfold pending.
    cbn [s_add s_mul s_int Q_scalar]. unfold inject_Z.
    rewrite sum_below_zero.
    - destruct (decide (x ∈ reverse (reverse T) ++ [])) as [|Hx]; [ring|].
      unfold grad_value. rewrite Hnone; [qring|].
      intros Hr'%Hreach. apply Hx. rewrite app_nil_r, reverse_involutive.
      done.
    - intros k _.
      destruct (decide (k ∈ reverse (reverse T) ++ [])) as [|Hk]; [done|].
      unfold grad_value. rewrite Hnone; [qring|].
      intros Hr'%Hreach. apply Hk. rewrite app_nil_r, reverse_involutive.
      done. }
  exists (default (length (heap s2) + i) (g !! x)).
  split_and!.
  - rewrite Hgs', list_lookup_imap, Hi. done.
  - eapply (proj1 (Forall_forall _ _) Hgs).
    rewrite Hgs'. apply list_elem_of_lookup. exists i.
    by rewrite list_lookup_imap, Hi.
  - rewrite Hx. unfold grad_value. rewrite Hs'. cbn [heap].
    destruct (g !! x) as [r|] eqn:Hgx; simpl.
    + rewrite values_app by (by eapply Hg2). done.
    + assert (ordered (heap s2 ++ replicate (length wrt)
                         (mkNode [] None (Some (s_int 0))))) as Ho3.
      { rewrite Hs' in Ho'. done. }
      rewrite (values_new _ _ i (mkNode [] None (Some (s_int 0))) Ho3).
      * done.
      * apply lookup_replicate_2. by eapply lookup_lt_Some.
Qed.

(** ** Programs *)

Lemma built_coherent (s : state Q) : built s → coherent Qeq (heap s).
Proof.
  induction 1 as [t|v s Hb IH|o a b s Hb IH Ha Hb'|fuel self s Hb IH
                  |fuel out wrt s Hb IH Hout Hf].
  - intros a n v Hn. cbn [heap] in Hn. by rewrite lookup_nil in Hn.
  - cbn [Leaf Node_init alloc snd heap].
    apply coherent_app; [done|]. apply Forall_singleton. by left.
  - cbn [op_call Node_init alloc snd heap].
    apply coherent_app; [done|]. apply Forall_singleton. by right.
  - destruct (built_wf s Hb) as (Ho & Har & _).
    destruct (eval fuel self s) as [r s'] eqn:E.
    by destruct (eval_sound fuel self s r s' Ho Har IH E).
  - destruct (gradients fuel out wrt s) as [r s'] eqn:E. cbn [snd].
    destruct (gradients_fresh _ _ _ _ _ _ E) as (new & -> & Hnew & _).
    apply coherent_app; [done|]. by apply fresh_shape_uncached.
Qed.

Lemma eval_value fuel a (s : state Q) :
  ordered (heap s) → arity_ok (heap s) → (∀ x, ¬ malformed (heap s) x) →
  coherent Qeq (heap s) → a < length (heap s) → a < fuel →
  match (eval fuel a s).1 with
  | Ok v => (v == val_at (values (heap s)) a)%Q
  | Err e => e = ZeroDivisionError ∧ ¬ div_safe (heap s)
  end.
Proof.
  intros Ho Har Hm Hco Ha Hf.
  destruct (eval fuel a s) as [r s'] eqn:E. cbn [fst].
  destruct (eval_sound fuel a s r s' Ho Har Hco E) as [_ Hr].
  destruct r as [v|e]; [done|].
  assert (e = ZeroDivisionError) as ->; [|by split; [|apply Hr]].
  destruct (eval_errors (λ x, x) fuel a s e s') as [[-> | [-> | ->]] Hidx];
    [by apply ordered_closed|by apply ordered_ranked|done
    |by apply lookup_lt_is_Some|done| | |done].
  - destruct (eval_disconnected_spec fuel a s _ s' E) as (evs & _ & _ & V & _).
    destruct (V eq_refl) as (x & _ & Hx). by destruct (Hm x).
  - by destruct (Hidx Har).
Qed.

(** X12.  In exact arithmetic, in a program that creates leaves with a
    value, applies the operators to existing nodes and calls [eval] and
    [gradients] on existing nodes: [eval] of a node returns the value of
    the expression the node stands for, whether it finds values cached or
    not; otherwise it raises [ZeroDivisionError], and then some division
    node of the graph has a divisor that stands for zero. *)
Theorem eval_computes_value fuel self (s : state Q) :
  built s → self < length (heap s) → self < fuel →
  match (eval fuel self s).1 with
  | Ok v => (v == val_at (values (heap s)) self)%Q
  | Err e => e = ZeroDivisionError ∧ ¬ div_safe (heap s)
  end.
Proof.
  intros Hb Hself Hf. destruct (built_wf s Hb) as (Ho & Har & Hm).
  apply eval_value; [done..|by apply built_coherent|done|done].
Qed.

(** X13.  In exact arithmetic, in such a program, reverse accumulation is
    right on every graph: [gradients(out, wrt)] returns, for each node [x]
    of [wrt], a node whose [eval] returns the derivative of [out] with
    respect to [x], as the chain rule gives it from the values the nodes
    stand for ([1] for [x] itself, [0] for a node that does not depend on
    [x]); otherwise that [eval] raises [ZeroDivisionError], and then some
    division node of the graph had a divisor that stands for zero. *)
Theorem gradients_are_derivatives fuel out wrt (s : state Q) :
  built s → out < length (heap s) → out < fuel →
  ∃ gs s',
    gradients fuel out wrt s = (Ok gs, s') ∧
    ∀ i x, wrt !! i = Some x →
      ∃ r, gs !! i = Some r ∧
        ∀ fuel', r < fuel' →
          match (eval fuel' r s').1 with
          | Ok v => (v == val_at (tangents x (heap s)) out)%Q
          | Err e => e = ZeroDivisionError ∧ ¬ div_safe (heap s)
          end.
Proof.
  intros Hb Hout Hf. destruct (built_wf s Hb) as (Ho & Har & Hm).
  pose proof (built_coherent s Hb) as Hco.
  destruct (gradients_tangent fuel out wrt s Ho Har Hout Hf)
    as (gs & s' & EG & X & Ho' & Har' & Hsafe & Hgs).
  exists gs, s'. split; [done|]. intros i x Hi.
  destruct (Hgs i x Hi) as (r & Hr & Hlt & Hval).
  exists r. split; [done|]. intros fuel' Hf'.
  assert (∀ y, ¬ malformed (heap s') y) as Hm'.
  { destruct X as (new & -> & Hnew & _). by apply no_malformed_app. }
  assert (coherent Qeq (heap s')) as Hco'.
  { destruct X as (new & -> & Hnew & _).
    apply coherent_app; [done|]. by apply fresh_shape_uncached. }
  pose proof (eval_value fuel' r s' Ho' Har' Hm' Hco' Hlt Hf') as Hev.
  destruct ((eval fuel' r s').1) as [v|e].
  - by rewrite Hev.
  - destruct Hev as [-> Hns]. split; [done|]. intros Hs. by apply Hns, Hsafe.
Qed.

(** ** The gradient of a node, from those of its consumers *)

Lemma sum_below_scale (u : Q) (f : nat → Q) n :
  (sum_below (λ k, u * f k) n == u * sum_below f n)%Q.
Proof. induction n as [|n IH]; simpl; [ring|]. rewrite IH. ring. Qed.

Lemma weight_not_input (h : list (Node Q)) c x :
  ¬ edge h c x → (weight h c x == 0)%Q.
Proof.
  intros He. unfold weight. destruct (h !! c) as [n|] eqn:Hn; [|done].
  unfold edge_weight. destruct (op n) as [o|]; [|done].
  destruct (inputs n) as [|i [|j [|??]]] eqn:Hin; try done.
  rewrite !decide_False; [qring| |];
    intros ->; apply He; exists n; rewrite Hin; set_solver.
Qed.

Lemma weight_op (h : list (Node Q)) c n o i j x :
  h !! c = Some n → op n = Some o → inputs n = [i; j] →
  (weight h c x ==
   (if decide (i = x)
    then (partials o (val_at (values h) i) (val_at (values h) j)).1 else 0)
   + (if decide (j = x)
      then (partials o (val_at (values h) i) (val_at (values h) j)).2
      else 0))%Q.
Proof.
  intros Hn Hop Hin. unfold weight, edge_weight. rewrite Hn, Hop, Hin.
  reflexivity.
Qed.

Lemma tangent_unreachable x (h : list (Node Q)) a :
  ordered h → ¬ reachable h a x → (val_at (tangents x h) a == 0)%Q.
Proof.
  intros Ho. induction a as [a IH] using lt_wf_ind. intros Hax.
  destruct (h !! a) as [n|] eqn:Hn.
  2:{ apply tangent_outside_0. by apply lookup_ge_None. }
  assert (a ≠ x) as Hne by (intros ->; apply Hax; reflexivity).
  destruct (op n) as [o|] eqn:Hop; [|by eapply tangent_leaf].
  rewrite (tangents_eq _ _ _ _ Ho Hn). unfold node_tangent.
  rewrite decide_False by done. rewrite Hop.
  destruct (inputs n) as [|i [|j [|??]]] eqn:Hin; try done.
  assert (edge h a i ∧ edge h a j) as [Hi Hj].
  { split; exists n; rewrite Hin; set_solver. }
  rewrite (IH i), (IH j); [qring|by apply Ho| |by apply Ho|].
  - intros Hr. apply Hax. by apply (rtc_l _ _ j).
  - intros Hr. apply Hax. by apply (rtc_l _ _ i).
Qed.

(** The derivative of [a] with respect to [x] is the sum, over the
    consumers [c] of [x], of the derivative of [a] with respect to [c]
    times the partial derivative of [c] with respect to [x]. *)
Lemma tangent_by_consumers (h : list (Node Q)) x a :
  ordered h → arity_ok h → a < length h →
  (val_at (tangents x h) a ==
   (if decide (a = x) then 1 else 0)
   + sum_below (λ c, val_at (tangents c h) a * weight h c x) (length h))%Q.
Proof.
  intros Ho Har. induction a as [a IH] using lt_wf_ind. intros Ha.
  destruct (lookup_lt_is_Some_2 h a Ha) as [n Hn].
  destruct (decide (a = x)) as [->|Hne].
  { rewrite (tangent_self x h Ho Ha). rewrite sum_below_zero; [ring|].
    intros c _. destruct (decide (x < c)) as [Hlt|Hge].
    - rewrite (tangent_below c h x Ho Hlt). ring.
    - rewrite weight_not_input; [ring|].
      intros He. apply Ho in He. lia. }
  pose proof (Har _ _ Hn) as Hshape.
  destruct (op n) as [o|] eqn:Hop.
  2:{ rewrite (tangent_leaf x h a n Ho Hn Hop Hne).
      rewrite sum_below_zero; [ring|]. intros c _.
      destruct (decide (a = c)) as [<-|Hac].
      - rewrite weight_not_input; [ring|].
        intros (n' & Hn' & Hin). rewrite Hn in Hn'. injection Hn' as <-.
        rewrite Hshape in Hin. by apply elem_of_nil in Hin.
      - rewrite (tangent_leaf c h a n Ho Hn Hop Hac). ring. }
  destruct (inputs n) as [|i [|j [|??]]] eqn:Hin; try done.
  assert (i < a ∧ j < a) as [Hi Hj].
  { split; apply Ho; exists n; rewrite Hin; set_solver. }
  rewrite (tangent_op x h a n o i j Ho Hn Hop Hin Hne).
  rewrite (IH i Hi ltac:(lia)), (IH j Hj ltac:(lia)).
  rewrite (sum_below_ext
             (λ c, val_at (tangents c h) a * weight h c x)%Q
             (λ c, ((partials o (val_at (values h) i)
                       (val_at (values h) j)).1
                    * (val_at (tangents c h) i * weight h c x)
                    + (partials o (val_at (values h) i)
                         (val_at (values h) j)).2
                      * (val_at (tangents c h) j * weight h c x))
                   + (if decide (c = a) then weight h a x else 0))%Q).
  2:{ intros c _. destruct (decide (c = a)) as [->|Hca].
      - rewrite (tangent_self a h Ho Ha).
        rewrite (tangent_below a h i Ho Hi), (tangent_below a h j Ho Hj).
        ring.
      - rewrite (tangent_op c h a n o i j Ho Hn Hop Hin) by done. ring. }
  rewrite !sum_below_plus, !sum_below_scale, sum_below_single by done.
  rewrite (weight_op h a n o i j x Hn Hop Hin).
  destruct (decide (i = x)), (decide (j = x)); ring.
Qed.

Lemma tangent_two_consumers (h : list (Node Q)) x out c1 c2 :
  ordered h → arity_ok h → out < length h → x ≠ out →
  c1 < length h → c2 < length h → c1 ≠ c2 →
  (∀ c, reachable h out c → edge h c x → c = c1 ∨ c = c2) →
  (val_at (tangents x h) out ==
   val_at (tangents c1 h) out * weight h c1 x
   + val_at (tangents c2 h) out * weight h c2 x)%Q.
Proof.
  intros Ho Har Hout Hne H1 H2 H12 Hcons.
  rewrite (tangent_by_consumers h x out Ho Har Hout).
  rewrite decide_False by done.
  rewrite (sum_below_ext _
             (λ c, (if decide (c = c1)
                    then val_at (tangents c1 h) out * weight h c1 x else 0)
                   + (if decide (c = c2)
                      then val_at (tangents c2 h) out * weight h c2 x
                      else 0))%Q).
  { rewrite sum_below_plus, !sum_below_single by done. ring. }
  intros c _.
  destruct (decide (c = c1)) as [->|Hc1].
  { rewrite decide_False by done. ring. }
  destruct (decide (c = c2)) as [->|Hc2]; [ring|].
  assert (¬ (reachable h out c ∧ edge h c x)) as Hno.
  { intros [Hr He]. by destruct (Hcons c Hr He). }
  destruct (h !! c) as [n|] eqn:Hn.
  2:{ rewrite weight_not_input; [ring|]. intros (n & Hn' & _). congruence. }
  destruct (decide (x ∈ inputs n)) as [Hin|Hin].
  - rewrite (tangent_unreachable c h out Ho); [ring|].
    intros Hr. apply Hno. split; [done|]. by exists n.
  - rewrite weight_not_input; [ring|].
    intros (n' & Hn' & Hin'). rewrite Hn in Hn'. by injection Hn' as <-.
Qed.

(** The gradients of a program without a zero divisor evaluate to the
    derivatives. *)
Lemma gradient_value fuel out wrt (s : state Q) :
  built s → div_safe (heap s) → out < length (heap s) → out < fuel →
  ∃ gs s',
    gradients fuel out wrt s = (Ok gs, s') ∧
    ∀ i x, wrt !! i = Some x →
      ∃ r, gs !! i = Some r ∧
        ∀ F, r < F →
          ∃ v, (eval F r s').1 = Ok v ∧
               (v == val_at (tangents x (heap s)) out)%Q.
Proof.
  intros Hb Hsafe Hout Hf. destruct (built_wf s Hb) as (Ho & Har & Hm).
  pose proof (built_coherent s Hb) as Hco.
  destruct (gradients_tangent fuel out wrt s Ho Har Hout Hf)
    as (gs & s' & EG & X & Ho' & Har' & Hsafe' & Hgs).
  exists gs, s'. split; [done|]. intros i x Hi.
  destruct (Hgs i x Hi) as (r & Hr & Hlt & Hval).
  exists r. split; [done|]. intros F HF.
  assert (∀ y, ¬ malformed (heap s') y) as Hm'.
  { destruct X as (new & -> & Hnew & _). by apply no_malformed_app. }
  assert (coherent Qeq (heap s')) as Hco'.
  { destruct X as (new & -> & Hnew & _).
    apply coherent_app; [done|]. by apply fresh_shape_uncached. }
  pose proof (eval_value F r s' Ho' Har' Hm' Hco' Hlt HF) as Hev.
  destruct ((eval F r s').1) as [v|e].
  - exists v. split; [done|]. by rewrite Hev.
  - destruct Hev as [_ Hns]. destruct Hns. by apply Hsafe'.
Qed.

(** ** Shared nodes *)


(** ** The further theorems at concrete heaps *)

Lemma eval_failure_leaves_self_witness :
  let s' := (eval 2 2 disconnected_with_input).2 in
  ranked (heap disconnected_with_input) id ∧
  eval 2 2 disconnected_with_input = (Err ZeroDivisionError, s') ∧
  heap s' !! 2 = Some (mkNode [0; 1] (Some DivOp) None).
Proof.
  intros s'.
  destruct (orderedb_spec (heap disconnected_with_input) eq_refl) as [_ Hr].
  assert (eval 2 2 disconnected_with_input = (Err ZeroDivisionError, s'))
    as E by reflexivity.
  split; [exact Hr|]. split; [exact E|].
  rewrite (eval_failure_leaves_self id 2 2 disconnected_with_input _ s' Hr E).
  reflexivity.
Defined.

Lemma eval_outcomes_witness :
  closed (heap disconnected_with_input) ∧
  ranked (heap disconnected_with_input) id ∧
  id 3 < 4 ∧ is_Some (heap disconnected_with_input !! 3) ∧
  (eval 4 3 disconnected_with_input).1 = Err ZeroDivisionError ∧
  (arity_ok (heap disconnected_with_input) →
     ZeroDivisionError ≠ IndexError).
Proof.
  destruct (orderedb_spec (heap disconnected_with_input) eq_refl) as [Hc Hr].
  assert (id 3 < 4) as Hf by (unfold id; lia).
  assert (is_Some (heap disconnected_with_input !! 3)) as Hs
    by (eexists; reflexivity).
  assert ((eval 4 3 disconnected_with_input).1 = Err ZeroDivisionError)
    as E by reflexivity.
  destruct (eval_outcomes id 4 3 disconnected_with_input Hc Hr Hf Hs _ E)
    as (_ & Hidx & _).
  exact (conj Hc (conj Hr (conj Hf (conj Hs (conj E Hidx))))).
Defined.

Lemma eval_arity_edges_witness :
  let n := mkNode [0; 1; 2] (Some AddOp) None in
  let m := mapM (eval 2) (inputs n)
             (mkState (heap three_input_state)
                      (trace three_input_state ++ [EvCall 3])) in
  heap three_input_state !! 3 = Some n ∧
  m = (Ok [1; 2; 1 * 2]%Q, m.2) ∧
  (eval 3 3 three_input_state).1 = Ok (1 + 2)%Q.
Proof.
  intros n m.
  assert (heap three_input_state !! 3 = Some n) as Hn by reflexivity.
  assert (m = (Ok [1; 2; 1 * 2]%Q, m.2)) as E by reflexivity.
  split; [exact Hn|]. split; [exact E|].
  destruct (eval_arity_edges 2 3 three_input_state n AddOp _ _
              Hn eq_refl eq_refl E) as (_ & _ & Hmore).
  exact (Hmore _ _ _ eq_refl).
Defined.

Lemma gradients_outcomes_witness :
  (gradients 4 3 [0] three_input_state).1 = Err KeyError ∧
  KeyError ≠ ValueError ∧ KeyError ≠ ZeroDivisionError ∧ KeyError ≠ TypeError.
Proof.
  assert ((gradients 4 3 [0] three_input_state).1 = Err KeyError)
    as E by reflexivity.
  split; [exact E|].
  destruct (gradients_outcomes 4 3 [0] three_input_state KeyError E) as [H _].
  exact H.
Defined.

Lemma unreachable_gradient_is_fresh_zero_witness :
  let r := gradients 3 2 [1; 1] main_state in
  closed (heap main_state) ∧ ranked (heap main_state) id ∧
  is_Some (heap main_state !! 2) ∧ id 2 < 3 ∧
  r = (Ok [11; 12], r.2) ∧
  ¬ reachable (heap main_state) 2 1 ∧
  ∃ z, r.1 = Ok [z; 12] ∧ length (heap main_state) < z ∧
    (eval 1 z r.2).1 = Ok 0%Q.
Proof.
  intros r.
  destruct (orderedb_spec (heap main_state) eq_refl) as [Hc Hr].
  assert (is_Some (heap main_state !! 2)) as Ho by (eexists; reflexivity).
  assert (id 2 < 3) as Hf by (unfold id; lia).
  assert (r = (Ok [11; 12], r.2)) as E by reflexivity.
  assert (¬ reachable (heap main_state) 2 1) as Hx.
  { intros H. apply rtc_inv in H as [[=]|(y & (n & Hn & Hy) & H)].
    injection Hn as <-. simpl in Hy.
    assert (y = 0) as -> by set_solver.
    apply rtc_inv in H as [[=]|(z & (n & Hn & Hz) & _)].
    injection Hn as <-. by apply elem_of_nil in Hz. }
  do 6 (split; [assumption|]).
  destruct (unreachable_gradient_is_fresh_zero id 3 2 [1; 1] main_state
              _ _ Hc Hr Ho Hf E 0 1 eq_refl Hx)
    as (z & Hz & Hlt & _ & Hev & _).
  exists z. split; [|split; [exact Hlt|apply Hev]].
  injection Hz as <-. rewrite E. reflexivity.
Defined.

Lemma reachable_gradient_is_shared_witness :
  closed (heap main_state) ∧ ranked (heap main_state) id ∧
  arity_ok (heap main_state) ∧
  is_Some (heap main_state !! 6) ∧ id 6 < 7 ∧
  reachable (heap main_state) 6 0 ∧
  ∃ gs s' (g : gmap nat nat) s2 r,
    gradients 7 6 [0; 0] main_state = (Ok gs, s') ∧
    heap s' = heap s2 ++ replicate 2 (mkNode [] None (Some (s_int 0))) ∧
    g !! 0 = Some r ∧ r < length (heap s2) ∧
    gs !! 0 = Some r ∧ gs !! 1 = Some r.
Proof.
  destruct (orderedb_spec (heap main_state) eq_refl) as [Hc Hr].
  pose proof (arity_okb_spec (heap main_state) eq_refl) as Har.
  assert (is_Some (heap main_state !! 6)) as Ho by (eexists; reflexivity).
  assert (id 6 < 7) as Hf by (unfold id; lia).
  assert (reachable (heap main_state) 6 0) as Hx.
  { apply (rtc_l _ _ 5); [|apply rtc_once];
      (eexists; split; [reflexivity|]); simpl; set_solver. }
  do 6 (split; [assumption|]).
  destruct (reachable_gradient_is_shared id 7 6 [0; 0] main_state
              Hc Hr Har Ho Hf)
    as (gs & s' & V & T & g & s2 & EG & _ & _ & Hs' & Hsh).
  destruct (Hsh 0 0 eq_refl Hx) as (r & Hg & Hlt & _ & H0 & Hall).
  exists gs, s', g, s2, r.
  exact (conj EG (conj Hs' (conj Hg (conj Hlt (conj H0 (Hall 1 eq_refl)))))).
Defined.

Lemma gradients_keeps_construction_order_witness :
  ordered (heap main_state) ∧ arity_ok (heap main_state) ∧
  6 < length (heap main_state) ∧ 6 < 7 ∧
  ∃ gs s',
    gradients 7 6 [0; 1] main_state = (Ok gs, s') ∧
    ordered (heap s') ∧ arity_ok (heap s') ∧
    Forall (λ r, r < length (heap s')) gs.
Proof.
  destruct (orderedb_spec (heap main_state) eq_refl) as [_ Hr].
  pose proof (arity_okb_spec (heap main_state) eq_refl) as Har.
  assert (6 < length (heap main_state)) as Hout by (simpl; lia).
  assert (6 < 7) as Hf by lia.
  split; [exact Hr|]. do 3 (split; [assumption|]).
  destruct (gradients_keeps_construction_order 7 6 [0; 1] main_state
              Hr Har Hout Hf) as (gs & s' & EG & Ho' & Har' & _ & Hgs & _).
  exists gs, s'. exact (conj EG (conj Ho' (conj Har' Hgs))).
Defined.

Lemma built_heap_is_safe_witness :
  built main_state ∧
  (∃ gs s', gradients 7 6 [0; 1] main_state = (Ok gs, s')) ∧
  ((∃ v, (eval 7 6 main_state).1 = Ok v) ∨
   (eval 7 6 main_state).1 = Err ZeroDivisionError).
Proof.
  assert (built main_state) as Hb.
  { pose proof (built_empty (R:=Q) []) as H.
    apply (built_Leaf (s_int 2)) in H. apply (built_Leaf (s_int 3)) in H.
    apply (built_op_call MulOp 0 0) in H; [|simpl; lia..].
    apply (built_op_call MulOp 1 1) in H; [|simpl; lia..].
    apply (built_op_call SubOp 2 3) in H; [|simpl; lia..].
    apply (built_op_call DivOp 0 1) in H; [|simpl; lia..].
    apply (built_op_call AddOp 4 5) in H; [|simpl; lia..].
    exact H. }
  split; [exact Hb|].
  destruct (built_heap_is_safe main_state Hb) as (_ & Hg & He).
  split; [apply (Hg 6 [0; 1])|apply (He 7 6)]; simpl; lia.
Defined.

Lemma operator_gradients_are_partial_derivatives_witness :
  heap (empty_state (R:=Q)) = [] ∧ ¬ (3 == 0)%Q ∧
  (∃ va vb,
     (binary_gradients Node_mul 6 2%Q 3%Q empty_state).1 = Ok (va, vb) ∧
     (va == 3)%Q ∧ (vb == 2)%Q) ∧
  (∃ va vb,
     (binary_gradients Node_truediv 6 2%Q 3%Q empty_state).1 = Ok (va, vb) ∧
     (va == 1 / 3)%Q ∧ (vb == - 2 / (3 * 3))%Q).
Proof.
  assert (heap (empty_state (R:=Q)) = []) as Hs by reflexivity.
  assert (¬ (3 == 0)%Q) as Hy by done.
  split; [exact Hs|]. split; [exact Hy|]. split.
  - destruct (operator_gradients_are_partial_derivatives 0 2%Q 3%Q
                empty_state Hs) as (_ & _ & Hmul & _).
    exact Hmul.
  - destruct (operator_gradients_are_partial_derivatives 0 2%Q 3%Q
                empty_state Hs) as (_ & _ & _ & Hdiv & _).
    exact (Hdiv Hy).
Defined.

Lemma square_gradients_witness :
  heap (empty_state (R:=Q)) = [] ∧
  (∃ v, (square_gradient 6 5%Q empty_state).1 = Ok v ∧ (v == 2 * 5)%Q) ∧
  (∃ v, (square_second_gradient 6 5%Q empty_state).1 = Ok v ∧ (v == 2)%Q).
Proof.
  assert (heap (empty_state (R:=Q)) = []) as Hs by reflexivity.
  split; [exact Hs|]. exact (square_gradients 0 5%Q empty_state Hs).
Defined.

Lemma main_state_built : built main_state.
Proof.
  pose proof (built_empty (R:=Q) []) as H.
  apply (built_Leaf (s_int 2)) in H. apply (built_Leaf (s_int 3)) in H.
  apply (built_op_call MulOp 0 0) in H; [|simpl; lia..].
  apply (built_op_call MulOp 1 1) in H; [|simpl; lia..].
  apply (built_op_call SubOp 2 3) in H; [|simpl; lia..].
  apply (built_op_call DivOp 0 1) in H; [|simpl; lia..].
  apply (built_op_call AddOp 4 5) in H; [|simpl; lia..].
  exact H.
Qed.

Lemma eval_computes_value_witness :
  built main_state ∧ 6 < length (heap main_state) ∧ 6 < 7 ∧
  (val_at (values (heap main_state)) 6 == -13 # 3)%Q ∧
  match (eval 7 6 main_state).1 with
  | Ok v => (v == val_at (values (heap main_state)) 6)%Q
  | Err e => e = ZeroDivisionError ∧ ¬ div_safe (heap main_state)
  end.
Proof.
  assert (6 < length (heap main_state)) as Hlt by (simpl; lia).
  assert (6 < 7) as Hf by lia.
  split; [exact main_state_built|]. split; [exact Hlt|]. split; [exact Hf|].
  split; [reflexivity|].
  exact (eval_computes_value 7 6 main_state main_state_built Hlt Hf).
Defined.

Lemma gradients_are_derivatives_witness :
  built main_state ∧ 6 < length (heap main_state) ∧ 6 < 7 ∧
  (val_at (tangents 0 (heap main_state)) 6 == 13 # 3)%Q ∧
  ∃ gs s' r,
    gradients 7 6 [0; 1] main_state = (Ok gs, s') ∧ gs !! 0 = Some r ∧
    match (eval (S r) r s').1 with
    | Ok v => (v == val_at (tangents 0 (heap main_state)) 6)%Q
    | Err e => e = ZeroDivisionError ∧ ¬ div_safe (heap main_state)
    end.
Proof.
  assert (6 < length (heap main_state)) as Hlt by (simpl; lia).
  assert (6 < 7) as Hf by lia.
  split; [exact main_state_built|]. split; [exact Hlt|]. split; [exact Hf|].
  split; [reflexivity|].
  destruct (gradients_are_derivatives 7 6 [0; 1] main_state
              main_state_built Hlt Hf) as (gs & s' & EG & Hall).
  destruct (Hall 0 0 eq_refl) as (r & Hr & Hev).
  exists gs, s', r. split; [exact EG|]. split; [exact Hr|].
  apply Hev. lia.
Defined.

Lemma main_state_div_safe : div_safe (heap main_state).
Proof.
  intros a n i j Hn Hop Hin.
  destruct a as [|[|[|[|[|[|[|a]]]]]]]; simpl in Hn; try done;
    injection Hn as <-; try done.
  injection Hin as <- <-. reflexivity.
Qed.


End Rationals.
